(** * pyFIR: block convolution engines (OLA, OLS, UPOLS)

    A shallow embedding of [src/pyFIR.py] (class [FIRfilter]) and the
    properties of its specification.

    Modelling conventions.
    - Samples are exact rationals ([Q]) in place of float64; the only
      float behaviour kept is that a division by zero yields a non-finite
      value ([NonFinite]) and not an exception.
    - Signals and impulse responses are one-dimensional arrays
      ([list Q], one channel, [N_ch = 1]); the one block of two dimensions
      is that of [OLS_frames], given by its rows.
    - The numpy in use is a parameter, [strict]: from numpy 1.25 on the
      comparison [h != self.stored_h] of arrays whose shapes cannot be
      broadcast raises a [ValueError]; before, it answers [True].
    - numpy's [fft]/[ifft] are external.  A spectrum is represented by the
      length-n sequence whose DFT it is (the DFT is a bijection on length-n
      sequences).  Hence [fft(x, n)] is [x] cropped or zero padded to [n]
      ([resize]), the product of two spectra is the circular convolution of
      their sequences ([cconv], convolution theorem), the sum of spectra is
      the sum of their sequences (linearity) and [ifft(.).real] reads the
      sequence back.
    - The object is an explicit record [FIR]; methods are computations in a
      state-and-exception monad that returns the state reached when an
      exception is raised, as a Python object keeps its attributes. *)

From Stdlib Require Import List Arith ZArith QArith Qabs Lia Lqa Bool.
Import ListNotations.

Local Open Scope nat_scope.

(** ** Arrays *)

Definition zeros (n : nat) : list Q := repeat 0%Q n.

(** [fft(x, n)]: the input is cropped or zero padded to [n] samples. *)
Definition resize (n : nat) (x : list Q) : list Q :=
  firstn n x ++ zeros (n - length x).

(** [np.roll(a, -k)] on a one-dimensional array. *)
Definition roll_left (k : nat) (a : list Q) : list Q :=
  match length a with
  | 0 => a
  | n => skipn (k mod n) a ++ firstn (k mod n) a
  end.

(** [np.roll(F, 1, axis=0)]: the last row becomes the first. *)
Definition roll_rows {A : Type} (F : list A) : list A :=
  match rev F with
  | [] => []
  | r :: front => r :: rev front
  end.

(** First index of the Python slice [a[-B:]] of an array of length [n]
    ([-0] is [0], so [a[-0:]] is the whole array). *)
Definition tail_start (B n : nat) : nat := if B =? 0 then 0 else n - B.

(** [a[-B:]] *)
Definition py_tail (B : nat) (a : list Q) : list Q :=
  skipn (tail_start B (length a)) a.

(** Broadcasting a one-dimensional value to [m] elements: its length is
    [m], or it has one element. *)
Definition broadcast_to (m : nat) (x : list Q) : option (list Q) :=
  if length x =? m then Some x
  else match x with
       | [c] => Some (repeat c m)
       | _ => None
       end.

(** [a[-B:] = x] *)
Definition assign_tail (B : nat) (a x : list Q) : option (list Q) :=
  let k := tail_start B (length a) in
  match broadcast_to (length a - k) x with
  | Some v => Some (firstn k a ++ v)
  | None => None
  end.


(** [a[-B:] = 0] *)
Definition zero_tail (B : nat) (a : list Q) : list Q :=
  firstn (tail_start B (length a)) a
  ++ zeros (length a - tail_start B (length a)).

(** [a[:l] = x] *)
Definition assign_head (l : nat) (a x : list Q) : option (list Q) :=
  match broadcast_to (Nat.min l (length a)) x with
  | Some v => Some (v ++ skipn l a)
  | None => None
  end.

Fixpoint zip_add (a b : list Q) : list Q :=
  match a, b with
  | x :: a', y :: b' => (x + y)%Q :: zip_add a' b'
  | _, _ => []
  end.

(** [a + b] on one-dimensional arrays, with numpy's broadcasting. *)
Definition vadd (a b : list Q) : option (list Q) :=
  if length a =? length b then Some (zip_add a b)
  else match a, b with
       | [c], _ => Some (map (fun y => (c + y)%Q) b)
       | _, [c] => Some (map (fun x => (x + c)%Q) a)
       | _, _ => None
       end.

Fixpoint sumQ (l : list Q) : Q :=
  match l with
  | [] => 0%Q
  | a :: r => (a + sumQ r)%Q
  end.

(** Circular convolution of two length-n sequences: the sequence whose
    spectrum is the product of the spectra of [X] and [H]. *)
Definition cconv (X H : list Q) : list Q :=
  let n := length X in
  map (fun i =>
         sumQ (map (fun k => (nth k H 0 * nth ((i + n - k) mod n) X 0)%Q)
                   (seq 0 n)))
      (seq 0 n).

(** [X * H] on spectra of one transform size. *)
Definition spec_mul (X H : list Q) : option (list Q) :=
  if length X =? length H then Some (cconv X H) else None.

(** [np.convolve(x, h)]: direct linear convolution, [len x + len h - 1]
    samples. *)
Definition convolve (x h : list Q) : list Q :=
  map (fun n =>
         sumQ (map (fun k => (nth k h 0 * (if k <=? n then nth (n - k) x 0 else 0))%Q)
                   (seq 0 (length h))))
      (seq 0 (length x + length h - 1)).

(** ** Values returned to the caller *)

(** A float64 sample: a finite value, or a non-finite one (inf or nan). *)
Inductive fval : Type :=
| Finite (q : Q)
| NonFinite.

(** [a / r] on floats: numpy divides by zero without raising. *)
Definition fdiv (r a : Q) : fval :=
  if Qeq_bool r 0 then NonFinite else Finite (a / r)%Q.

(** ** Exceptions and the object monad *)

Inductive exn : Type :=
| AttributeError      (* an attribute of [None] or an unset attribute is read *)
| TypeError           (* an array operation is applied to [None] *)
| ValueError          (* shapes cannot be broadcast, empty transform, int(nan) *)
| IndexError          (* too many indices for a 0-d array *)
| UnboundLocalError   (* a local is read before assignment *)
| ZeroDivisionError
| OverflowError.      (* int(-inf) *)

Inductive res (A : Type) : Type :=
| Ok (a : A)
| Raise (e : exn).
Arguments Ok {A} a.
Arguments Raise {A} e.

(** ** The UPOLS parameter optimizer *)

Definition Qn (n : nat) : Q := inject_Z (Z.of_nat n).

Definition Qlt_bool (a b : Q) : bool := negb (Qle_bool b a).

Section Optimizer.

(** [np.log2] on transform sizes, as the cost model uses it. *)
Variable log2 : nat -> Q.

Definition cost (B N L K : nat) : Q :=
  (1 / Qn B * (1.68 * Qn K * log2 K + 3.49 * Qn K * log2 K
               + 6 * ((Qn K + 1) / 2)
               + ((Qn N / Qn L) - 1) * 8 * ((Qn K + 1) / 2)))%Q.

(** [[2**k for k in range(0, int(np.log2(N)))]] *)
Definition rang (N : nat) : list nat :=
  map (fun k => 2 ^ k) (seq 0 (Nat.log2 N)).

Definition d_max_of (B L : nat) : nat := B - Nat.gcd L B.

Definition K_min_of (B L : nat) : nat := B + L + d_max_of B L - 1.

Definition K_max_of (B L : nat) : nat := 2 ^ Nat.log2_up (K_min_of B L).

(** [np.arange(k_sort[0], k_sort[1] + 1)] *)
Definition K_range (B L : nat) : list nat :=
  let lo := Nat.min (K_min_of B L) (K_max_of B L) in
  let hi := Nat.max (K_min_of B L) (K_max_of B L) in
  let hi := if lo =? hi then hi + 1 else hi in
  seq lo (hi + 1 - lo).

(** The running optimum: [c_opt] ([None] is [Inf]) and [(L_opt, K_opt)]
    ([None] while the two locals are unbound). *)
Definition opt_acc : Type := (option Q * option (nat * nat))%type.

Definition scan_K (B N L : nat) (acc : opt_acc) (K : nat) : opt_acc :=
  let c := cost B N L K in
  match fst acc with
  | None => (Some c, Some (L, K))
  | Some c_opt => if Qlt_bool c c_opt then (Some c, Some (L, K)) else acc
  end.

(** The loop over [rang].  With [B = 0], [K_min] is [-1] and
    [int(2**np.ceil(np.log2(K_min)))] is [int(nan)], a [ValueError]. *)
Fixpoint scan_L (B N : nat) (Ls : list nat) (acc : opt_acc) : res opt_acc :=
  match Ls with
  | [] => Ok acc
  | L :: Ls' =>
      if B =? 0 then Raise ValueError
      else scan_L B N Ls' (fold_left (scan_K B N L) (K_range B L) acc)
  end.

(** [optimize_UPOLS_parameters(N, B)]; [int(np.log2(0))] is [int(-inf)],
    an [OverflowError]. *)
Definition optimize_UPOLS_parameters (N B : nat) : res (nat * nat) :=
  if N =? 0 then Raise OverflowError
  else match scan_L B N (rang N) (None, None) with
       | Raise e => Raise e
       | Ok (_, Some LK) => Ok LK
       | Ok (_, None) => Raise UnboundLocalError
       end.

End Optimizer.

(** ** The engine object *)

(** The five accepted method strings name three algorithms
    ('overlap-save' = 'ols', 'overlap-add' = 'ola', 'upols'). *)
Inductive method_t : Type := OLS_m | OLA_m | UPOLS_m.

(** The attributes of a [FIRfilter] object.  [H] holds the rows of
    [self.H]: one row for OLA and OLS, [P] rows for UPOLS, none while the
    attribute is unset.  Buffers that [__init__] does not create are empty
    until the method that owns them allocates them. *)
Record FIR : Type := mkFIR {
  method : method_t;
  B : nat;
  NFFT : option nat;
  flagIRchanged : bool;
  stored_h : option (list Q);
  ref : option Q;
  N_ch : nat;
  left_overs : list Q;
  len_y_left : nat;
  partition : option nat;
  normalize : bool;
  H : list (list Q);
  OLS_input_buffer : list Q;
  P : nat;
  input_buffer : list Q;
  nm : list nat;
  FDL : list (list Q)
}.

Definition set_NFFT (v : option nat) (s : FIR) : FIR :=
  mkFIR (method s) (B s) v (flagIRchanged s) (stored_h s) (ref s) (N_ch s)
        (left_overs s) (len_y_left s) (partition s) (normalize s) (H s)
        (OLS_input_buffer s) (P s) (input_buffer s) (nm s) (FDL s).

Definition set_flagIRchanged (v : bool) (s : FIR) : FIR :=
  mkFIR (method s) (B s) (NFFT s) v (stored_h s) (ref s) (N_ch s)
        (left_overs s) (len_y_left s) (partition s) (normalize s) (H s)
        (OLS_input_buffer s) (P s) (input_buffer s) (nm s) (FDL s).

Definition set_stored_h (v : option (list Q)) (s : FIR) : FIR :=
  mkFIR (method s) (B s) (NFFT s) (flagIRchanged s) v (ref s) (N_ch s)
        (left_overs s) (len_y_left s) (partition s) (normalize s) (H s)
        (OLS_input_buffer s) (P s) (input_buffer s) (nm s) (FDL s).

Definition set_ref (v : option Q) (s : FIR) : FIR :=
  mkFIR (method s) (B s) (NFFT s) (flagIRchanged s) (stored_h s) v (N_ch s)
        (left_overs s) (len_y_left s) (partition s) (normalize s) (H s)
        (OLS_input_buffer s) (P s) (input_buffer s) (nm s) (FDL s).

Definition set_N_ch (v : nat) (s : FIR) : FIR :=
  mkFIR (method s) (B s) (NFFT s) (flagIRchanged s) (stored_h s) (ref s) v
        (left_overs s) (len_y_left s) (partition s) (normalize s) (H s)
        (OLS_input_buffer s) (P s) (input_buffer s) (nm s) (FDL s).

Definition set_left_overs (v : list Q) (s : FIR) : FIR :=
  mkFIR (method s) (B s) (NFFT s) (flagIRchanged s) (stored_h s) (ref s) (N_ch s)
        v (len_y_left s) (partition s) (normalize s) (H s)
        (OLS_input_buffer s) (P s) (input_buffer s) (nm s) (FDL s).

Definition set_len_y_left (v : nat) (s : FIR) : FIR :=
  mkFIR (method s) (B s) (NFFT s) (flagIRchanged s) (stored_h s) (ref s) (N_ch s)
        (left_overs s) v (partition s) (normalize s) (H s)
        (OLS_input_buffer s) (P s) (input_buffer s) (nm s) (FDL s).

Definition set_partition (v : option nat) (s : FIR) : FIR :=
  mkFIR (method s) (B s) (NFFT s) (flagIRchanged s) (stored_h s) (ref s) (N_ch s)
        (left_overs s) (len_y_left s) v (normalize s) (H s)
        (OLS_input_buffer s) (P s) (input_buffer s) (nm s) (FDL s).

Definition set_H (v : list (list Q)) (s : FIR) : FIR :=
  mkFIR (method s) (B s) (NFFT s) (flagIRchanged s) (stored_h s) (ref s) (N_ch s)
        (left_overs s) (len_y_left s) (partition s) (normalize s) v
        (OLS_input_buffer s) (P s) (input_buffer s) (nm s) (FDL s).

Definition set_OLS_input_buffer (v : list Q) (s : FIR) : FIR :=
  mkFIR (method s) (B s) (NFFT s) (flagIRchanged s) (stored_h s) (ref s) (N_ch s)
        (left_overs s) (len_y_left s) (partition s) (normalize s) (H s)
        v (P s) (input_buffer s) (nm s) (FDL s).

Definition set_P (v : nat) (s : FIR) : FIR :=
  mkFIR (method s) (B s) (NFFT s) (flagIRchanged s) (stored_h s) (ref s) (N_ch s)
        (left_overs s) (len_y_left s) (partition s) (normalize s) (H s)
        (OLS_input_buffer s) v (input_buffer s) (nm s) (FDL s).

Definition set_input_buffer (v : list Q) (s : FIR) : FIR :=
  mkFIR (method s) (B s) (NFFT s) (flagIRchanged s) (stored_h s) (ref s) (N_ch s)
        (left_overs s) (len_y_left s) (partition s) (normalize s) (H s)
        (OLS_input_buffer s) (P s) v (nm s) (FDL s).

Definition set_nm (v : list nat) (s : FIR) : FIR :=
  mkFIR (method s) (B s) (NFFT s) (flagIRchanged s) (stored_h s) (ref s) (N_ch s)
        (left_overs s) (len_y_left s) (partition s) (normalize s) (H s)
        (OLS_input_buffer s) (P s) (input_buffer s) v (FDL s).

Definition set_FDL (v : list (list Q)) (s : FIR) : FIR :=
  mkFIR (method s) (B s) (NFFT s) (flagIRchanged s) (stored_h s) (ref s) (N_ch s)
        (left_overs s) (len_y_left s) (partition s) (normalize s) (H s)
        (OLS_input_buffer s) (P s) (input_buffer s) (nm s) v.

(** A computation on the object: its result, or the exception it raised,
    and the object as the computation left it. *)
Definition M (A : Type) : Type := FIR -> res A * FIR.

Definition ret {A : Type} (a : A) : M A := fun s => (Ok a, s).

Definition raise {A : Type} (e : exn) : M A := fun s => (Raise e, s).

Definition bind {A C : Type} (m : M A) (k : A -> M C) : M C :=
  fun s => match m s with
           | (Ok a, s') => k a s'
           | (Raise e, s') => (Raise e, s')
           end.

Definition get {A : Type} (f : FIR -> A) : M A := fun s => (Ok (f s), s).

Definition upd (f : FIR -> FIR) : M unit := fun s => (Ok tt, f s).

(** Reads of a value that may be [None] or unset, and operations that may
    fail, raise the given exception. *)
Definition need {A : Type} (e : exn) (o : option A) : M A :=
  match o with
  | Some a => ret a
  | None => raise e
  end.

Definition lift {A : Type} (r : res A) : M A :=
  match r with
  | Ok a => ret a
  | Raise e => raise e
  end.

Declare Scope fir_scope.
Delimit Scope fir_scope with fir.
Notation "x <- m ;; k" := (bind m (fun x => k))
  (at level 61, m at next level, right associativity) : fir_scope.
Notation "m ;;; k" := (bind m (fun _ => k))
  (at level 61, right associativity) : fir_scope.
Local Open Scope fir_scope.

(** ** Methods of [FIRfilter] *)

Definition pad_the_end (x : list Q) (new_length : nat) : list Q :=
  if length x <? new_length then x ++ zeros (new_length - length x) else x.

(** [pad_beginning(x, padding)], for a non-empty [x]. *)
Definition pad_beginning (x : list Q) (padding : nat) : list Q :=
  zeros padding ++ x.

(** [np.max(np.sum(abs(h), axis=0))] of a one-dimensional [h]. *)
Definition ref_of (h : list Q) : Q := sumQ (map Qabs h).

Definition generate_ref : M unit :=
  sh <- get stored_h ;;
  h <- need TypeError sh ;;
  upd (set_ref (Some (ref_of h))) ;;;
  upd (set_N_ch 1).

Definition normalize_output (data : list Q) : M (list fval) :=
  r <- get ref ;;
  r <- need AttributeError r ;;
  ret (map (fdiv r) data).

(** [fft(x, n)]; without [n] the transform has the size of [x]; numpy
    refuses a transform of less than one point. *)
Definition np_fft (x : list Q) (n : option nat) : M (list Q) :=
  let n' := match n with Some k => k | None => length x end in
  if n' =? 0 then raise ValueError else ret (resize n' x).

(** [max(h.shape)] of the local [h], which may be [None]. *)
Definition max_shape (h : option (list Q)) : M nat :=
  h <- need AttributeError h ;;
  ret (length h).

(** [fft_conv].  [self.H] is one row here; the product with a matrix left
    by another method is not modelled (the method of an object is fixed
    at construction). *)
Definition fft_conv (x : list Q) : M (list Q) :=
  n <- get NFFT ;;
  X <- np_fft x n ;;
  chg <- get flagIRchanged ;;
  (if chg then
     sh <- get stored_h ;;
     h <- need TypeError sh ;;
     Hh <- np_fft h n ;;
     upd (set_H [Hh]) ;;;
     upd (set_flagIRchanged false)
   else ret tt) ;;;
  Hs <- get H ;;
  match Hs with
  | [] => raise AttributeError
  | [Hv] => need ValueError (spec_mul X Hv)
  | _ => raise ValueError
  end.

Definition finish (out : list Q) : M (list fval) :=
  nrm <- get normalize ;;
  if nrm then normalize_output out else ret (map Finite out).

(** [OLA].  Two corners of the lazy initialisation: [B + Nh - 1] is
    negative for [B = Nh = 0] and [np.zeros] raises; for an empty impulse
    response [len_y_left] is negative and every continuation ends in an
    exception, raised here at once: the code raises it further on, after
    it has assigned [NFFT = B - 1], and the attributes that this failing
    call leaves are not modelled.  [np.squeeze] turns the [(1, 1)] array
    of [NFFT = 1] into a 0-d array, whose indexing raises. *)
Definition OLA (x : list Q) (h : option (list Q)) : M (list fval) :=
  n0 <- get NFFT ;;
  (match n0 with
   | None =>
       Nh <- max_shape h ;;
       b <- get B ;;
       if Nh =? 0 then raise ValueError
       else
         upd (set_NFFT (Some (b + Nh - 1))) ;;;
         upd (set_left_overs (zeros (b + Nh - 1))) ;;;
         upd (set_len_y_left (b + Nh - 1 - b))
   | Some _ => ret tt
   end) ;;;
  y <- fft_conv x ;;
  n <- get NFFT ;;
  (if match n with Some k => k =? 1 | None => false end
   then raise IndexError else ret tt) ;;;
  b <- get B ;;
  lo <- get left_overs ;;
  out <- need ValueError (vadd (firstn b y) (firstn b lo)) ;;
  upd (set_left_overs (roll_left b lo)) ;;;
  lo <- get left_overs ;;
  upd (set_left_overs (zero_tail b lo)) ;;;
  lo <- get left_overs ;;
  l <- get len_y_left ;;
  sm <- need ValueError (vadd (firstn l lo) (skipn b y)) ;;
  lo' <- need ValueError (assign_head l lo sm) ;;
  upd (set_left_overs lo') ;;;
  finish out.

Definition OLS (x : list Q) (h : option (list Q)) : M (list fval) :=
  n0 <- get NFFT ;;
  (match n0 with
   | None =>
       Nh <- max_shape h ;;
       b <- get B ;;
       if b + Nh =? 0 then raise ValueError
       else
         upd (set_NFFT (Some (b + Nh - 1))) ;;;
         upd (set_OLS_input_buffer (zeros (b + Nh - 1)))
   | Some _ => ret tt
   end) ;;;
  b <- get B ;;
  buf <- get OLS_input_buffer ;;
  upd (set_OLS_input_buffer (roll_left b buf)) ;;;
  buf <- get OLS_input_buffer ;;
  buf' <- need ValueError (assign_tail b buf x) ;;
  upd (set_OLS_input_buffer buf') ;;;
  out <- fft_conv buf' ;;
  finish (py_tail b out).


(** [B + L + dmax] with [dmax = B - np.gcd(L, B)]; for [B = 0] the gcd is
    [L] and the sum is [0]. *)
Definition upols_nfft (b L : nat) : nat :=
  if b =? 0 then 0 else b + L + (b - Nat.gcd L b).

(** [int(np.ceil(Nh / L))] for [L > 0]. *)
Definition ceil_div (Nh L : nat) : nat := (Nh + L - 1) / L.

(** Row [m] of the partitioned filter: the slice [h[m*L : m*L + L]] (a
    Python slice never raises, so the [except] branch with [pad_the_end]
    is dead and a short last slice is padded by the transform), delayed by
    [dm = (m*L) mod B] and transformed at size [n]. *)
Definition h_row (h : list Q) (L b n m : nat) : list Q :=
  let h_partit := firstn L (skipn (m * L) h) in
  let dm := (m * L) mod b in
  resize n (pad_beginning h_partit dm).

(** [np.sum(rows, axis=0)] of rows of [n] samples. *)
Definition sum_rows (n : nat) (rows : list (list Q)) : list Q :=
  fold_left zip_add rows (zeros n).

(** [FDL[nm, :] * H]: row [m] is the product of FDL row [nm[m]] with
    filter row [m]. *)
Fixpoint fdl_products (F : list (list Q)) (slots : list nat) (Hs : list (list Q))
  : M (list (list Q)) :=
  match slots, Hs with
  | [], [] => ret []
  | i :: slots', Hm :: Hs' =>
      X <- need IndexError (nth_error F i) ;;
      p <- need ValueError (spec_mul X Hm) ;;
      ps <- fdl_products F slots' Hs' ;;
      ret (p :: ps)
  | _, _ => raise ValueError
  end.

Section Engine.

Variable log2 : nat -> Q.

(** The numpy in use.  The imports of [pyFIR.py] need numpy 1.x; from
    version 1.25 on, [!=] between arrays whose shapes cannot be broadcast
    raises a [ValueError] ([strict]), where earlier versions warn and
    answer [True]. *)
Variable strict : bool.

(** The setup block of [UPOLS], run while [flagIRchanged] is set.  The
    rows of [H] and the slots [nm] are filled by the loop over
    [enumerate(range(0, Nh, L))], which has [P] rounds; a transform of
    size 0 and the division by [B = 0] raise in its first round. *)
Definition UPOLS_setup (h : option (list Q)) : M unit :=
  Nh <- max_shape h ;;
  hv <- need AttributeError h ;;
  b <- get B ;;
  part <- get partition ;;
  L <- (match part with
        | None =>
            LK <- lift (optimize_UPOLS_parameters log2 Nh b) ;;
            upd (set_partition (Some (fst LK))) ;;;
            upd (set_NFFT (Some (snd LK))) ;;;
            ret (fst LK)
        | Some L =>
            upd (set_NFFT (Some (upols_nfft b L))) ;;;
            ret L
        end) ;;
  (if L =? 0 then raise ZeroDivisionError else ret tt) ;;;
  n <- get NFFT ;;
  n <- need AttributeError n ;;
  upd (set_P (ceil_div Nh L)) ;;;
  upd (set_input_buffer (zeros n)) ;;;
  upd (set_nm (repeat 0 (ceil_div Nh L))) ;;;
  upd (set_H (repeat (zeros n) (ceil_div Nh L))) ;;;
  (if (0 <? ceil_div Nh L) && (n =? 0) then raise ValueError else ret tt) ;;;
  (if (0 <? ceil_div Nh L) && (b =? 0) then raise ZeroDivisionError else ret tt) ;;;
  upd (set_H (map (h_row hv L b n) (seq 0 (ceil_div Nh L)))) ;;;
  upd (set_nm (map (fun m => (m * L) / b) (seq 0 (ceil_div Nh L)))) ;;;
  slots <- get nm ;;
  (if length slots =? 0 then raise ValueError else ret tt) ;;;
  upd (set_FDL (repeat (zeros n) (list_max slots + 1))) ;;;
  upd (set_flagIRchanged false).

Definition UPOLS (x : list Q) (h : option (list Q)) : M (list fval) :=
  chg <- get flagIRchanged ;;
  (if chg then UPOLS_setup h else ret tt) ;;;
  b <- get B ;;
  buf <- get input_buffer ;;
  upd (set_input_buffer (roll_left b buf)) ;;;
  buf <- get input_buffer ;;
  buf' <- need ValueError (assign_tail b buf x) ;;
  upd (set_input_buffer buf') ;;;
  F <- get FDL ;;
  upd (set_FDL (roll_rows F)) ;;;
  F <- get FDL ;;
  X <- np_fft buf' None ;;
  (match F with
   | [] => raise IndexError
   | _ :: rest => upd (set_FDL (X :: rest))
   end) ;;;
  F <- get FDL ;;
  slots <- get nm ;;
  Hs <- get H ;;
  prods <- fdl_products F slots Hs ;;
  n <- get NFFT ;;
  finish (py_tail b (sum_rows (match n with Some k => k | None => 0 end) prods)).

(** [np.any(h != stored_h)].  Against [None] every element differs;
    arrays of one length are compared element by element and a
    one-element array is broadcast ([comparable]); for other lengths the
    comparison fails: [ir_changed] is then the [True] that numpy before
    1.25 answers, and [process] raises where numpy is [strict]. *)
Definition comparable (h : list Q) (st : option (list Q)) : bool :=
  match st with
  | None => true
  | Some g => (length h =? length g) || (length h =? 1) || (length g =? 1)
  end.

Definition Qneqb (a c : Q) : bool := negb (Qeq_bool a c).

Fixpoint any_differs (h g : list Q) : bool :=
  match h, g with
  | a :: h', c :: g' => Qneqb a c || any_differs h' g'
  | _, _ => false
  end.

Definition ir_changed (h : list Q) (st : option (list Q)) : bool :=
  match st with
  | None => negb (length h =? 0)
  | Some g =>
      if length h =? length g then any_differs h g
      else match h, g with
           | [a], _ => existsb (Qneqb a) g
           | _, [c] => existsb (fun a => Qneqb a c) h
           | _, _ => true
           end
  end.

Definition dispatch (x : list Q) (h : option (list Q)) : M (list fval) :=
  mth <- get method ;;
  match mth with
  | OLS_m => OLS x h
  | OLA_m => OLA x h
  | UPOLS_m => UPOLS x h
  end.

Definition process (x : list Q) (h : option (list Q)) : M (list fval) :=
  sh <- get stored_h ;;
  match h with
  | Some hv =>
      if strict && negb (comparable hv sh) then raise ValueError
      else if ir_changed hv sh then
        upd (set_flagIRchanged true) ;;;
        upd (set_stored_h (Some hv)) ;;;
        generate_ref ;;;
        dispatch x (Some hv)
      else dispatch x sh
  | None => dispatch x sh
  end.

(** [__init__] with a valid method name.  Attributes that the
    constructor does not assign are given empty values. *)
Definition init (mth : method_t) (b : nat) (h : option (list Q))
           (part : option nat) (nrm : bool) : res FIR :=
  let s0 := mkFIR mth b None true h
                  (match h with Some hv => Some (ref_of hv) | None => None end)
                  1 (zeros b) 0 part nrm [] [] 0 [] [] [] in
  match mth, part, h with
  | UPOLS_m, None, Some hv =>
      match optimize_UPOLS_parameters log2 (length hv) b with
      | Ok LK => Ok (set_NFFT (Some (snd LK)) (set_partition (Some (fst LK)) s0))
      | Raise e => Raise e
      end
  | _, _, _ => Ok s0
  end.

End Engine.

(** ** Running an engine *)

Section Streams.

Variable log2 : nat -> Q.
Variable strict : bool.

(** A streaming loop: one [process] call per block, the impulse response
    left as it is; the loop ends at the first exception. *)
Fixpoint stream (xs : list (list Q)) : M (list (list fval)) :=
  match xs with
  | [] => ret []
  | x :: xs' =>
      o <- process log2 strict x None ;;
      os <- stream xs' ;;
      ret (o :: os)
  end.

(** Construction followed by a streaming loop. *)
Definition engine_run (mth : method_t) (b : nat) (h : option (list Q))
           (part : option nat) (nrm : bool) (xs : list (list Q))
  : res (list (list fval)) :=
  match init log2 mth b h part nrm with
  | Ok s => fst (stream xs s)
  | Raise e => Raise e
  end.

End Streams.

(** Equality of returned samples, up to the representation of rationals. *)
Definition fval_eq (a c : fval) : Prop :=
  match a, c with
  | Finite p, Finite q => (p == q)%Q
  | NonFinite, NonFinite => True
  | _, _ => False
  end.

(** A returned sample lies in [[-1, 1]]. *)
Definition in_unit (v : fval) : Prop :=
  match v with
  | Finite q => (-1 <= q /\ q <= 1)%Q
  | NonFinite => False
  end.

(** An integer stand-in for [np.log2], used to run the optimizer. *)
Definition ilog2 (n : nat) : Q := Qn (Nat.log2 n).

(** All pairs [(L, K)] the two loops of the optimizer visit. *)
Definition candidates (N b : nat) : list (nat * nat) :=
  flat_map (fun L => map (pair L) (K_range b L)) (rang N).

(** The running optimum is unbound exactly while [c_opt] is [Inf], and
    once bound it is one of the pairs of [C]. *)
Definition acc_ok (C : list (nat * nat)) (acc : opt_acc) : Prop :=
  match snd acc with
  | None => fst acc = None
  | Some p => In p C /\ fst acc <> None
  end.

(** The scenario of the specification: an eight-sample impulse response,
    blocks of four samples, two successive input blocks, and the direct
    convolution of the eight input samples with the impulse response. *)
Definition h_scn : list Q := [1; 0; 0; 0; 0; 0; 0; 1]%Q.

Definition x_scn1 : list Q := [1; 2; 3; 4]%Q.

Definition x_scn2 : list Q := [5; 6; 7; 8]%Q.

Definition y_scn : list Q := convolve (x_scn1 ++ x_scn2) h_scn.

(** ** Assertions on computations *)

(** [hoare P m Q E]: from a state in [P], [m] returns a value and a state
    in [Q], or raises and leaves a state in [E]. *)
Definition hoare {A : Type} (P : FIR -> Prop) (m : M A)
           (Q : A -> FIR -> Prop) (E : FIR -> Prop) : Prop :=
  forall s, P s ->
    match m s with
    | (Ok a, s') => Q a s'
    | (Raise _, s') => E s'
    end.

(** [stable I m]: [m] keeps [I], whether it returns or raises. *)
Definition stable {A : Type} (I : FIR -> Prop) (m : M A) : Prop :=
  hoare I m (fun _ => I) I.

(** The stored reference is zero and the output is normalised. *)
Definition zero_ref (s : FIR) : Prop :=
  normalize s = true /\ exists r, ref s = Some r /\ (r == 0)%Q.

(** The object that [FIRfilter('ols', B=2, h=[0, 0])] constructs. *)
Definition zero_engine : FIR :=
  mkFIR OLS_m 2 None true (Some [0; 0]%Q) (Some (ref_of [0; 0]%Q)) 1
        (zeros 2) 0 None true [] [] 0 [] [] [].

(** The rows [FDL[nm, :] * H] as a value: [fdl_products] reads no
    attribute. *)
Fixpoint fdl_rows (F : list (list Q)) (slots : list nat) (Hs : list (list Q))
  : res (list (list Q)) :=
  match slots, Hs with
  | [], [] => Ok []
  | i :: slots', Hm :: Hs' =>
      match nth_error F i with
      | None => Raise IndexError
      | Some X =>
          match spec_mul X Hm with
          | None => Raise ValueError
          | Some p =>
              match fdl_rows F slots' Hs' with
              | Ok ps => Ok (p :: ps)
              | Raise e => Raise e
              end
          end
      end
  | _, _ => Raise ValueError
  end.

(** Whether a call [process x h] from state [s] takes the branch of a
    changed impulse response, the impulse response in force during the
    call, and the value of [flagIRchanged] when the method starts. *)
Definition changed_by (h : option (list Q)) (s : FIR) : bool :=
  match h with
  | Some hv => ir_changed hv (stored_h s)
  | None => false
  end.

Definition h_in_force (h : option (list Q)) (s : FIR) : option (list Q) :=
  if changed_by h s then h else stored_h s.

Definition flag_at_call (h : option (list Q)) (s : FIR) : bool :=
  flagIRchanged s || changed_by h s.



(** The filter transform that a method computes from the impulse response
    [hv]: one row for OLS and OLA, one row per partition for UPOLS. *)
Definition fresh_H (s : FIR) (hv : list Q) : list (list Q) :=
  match method s, NFFT s, partition s with
  | UPOLS_m, Some n, Some L =>
      map (h_row hv L (B s) n) (seq 0 (ceil_div (length hv) L))
  | UPOLS_m, _, _ => []
  | _, Some n, _ => [resize n hv]
  | _, None, _ => []
  end.

(** An OLS object (B = 2, two-sample impulse response, NFFT = 3) whose
    flag is clear and whose [H] is not the transform of [stored_h]. *)
Definition stale_engine : FIR :=
  mkFIR OLS_m 2 (Some 3) false (Some [1; 1]%Q) (Some 2%Q) 1
        (zeros 2) 0 None false [[5; 5; 5]%Q] (zeros 3) 0 [] [] [].

(** The ring buffer of a method: the input window of OLS and UPOLS, the
    carry buffer of OLA. *)
Definition window (s : FIR) : list Q :=
  match method s with
  | OLS_m => OLS_input_buffer s
  | OLA_m => left_overs s
  | UPOLS_m => input_buffer s
  end.

(** The ring buffer that a call [process x h] starts from: the stored one,
    or [n] zeros when the call allocates it (lazy initialisation of OLS and
    OLA, setup of UPOLS). *)
Definition window_before (h : option (list Q)) (s : FIR) (n : nat) : list Q :=
  match method s with
  | OLS_m => match NFFT s with None => zeros n | Some _ => OLS_input_buffer s end
  | OLA_m => match NFFT s with None => zeros n | Some _ => left_overs s end
  | UPOLS_m => if flag_at_call h s then zeros n else input_buffer s
  end.

(** The delay line that a UPOLS call starts from. *)
Definition FDL_before (h : option (list Q)) (s s' : FIR) (n : nat)
  : list (list Q) :=
  if flag_at_call h s then repeat (zeros n) (list_max (nm s') + 1) else FDL s.

(** The buffers an engine holds have the size of the transform, which is
    at least a block.  OLS and OLA allocate with [NFFT]; UPOLS allocates in
    its setup, which clears the flag. *)
Definition buffers_ok (s : FIR) : Prop :=
  match method s with
  | OLS_m =>
      forall n, NFFT s = Some n ->
                length (OLS_input_buffer s) = n /\ B s <= n
  | OLA_m =>
      forall n, NFFT s = Some n ->
                length (left_overs s) = n /\ B s <= n
                /\ len_y_left s = n - B s
  | UPOLS_m =>
      flagIRchanged s = false ->
      exists n, NFFT s = Some n /\ length (input_buffer s) = n /\ B s <= n
                /\ Forall (fun r => length r = n) (FDL s)
  end.

(** The states of an engine in use: constructed with a positive block
    size, then driven by [process] calls that return, each with a block of
    [B] samples and any impulse-response argument. *)
Inductive reachable (log2 : nat -> Q) (strict : bool) : FIR -> Prop :=
| reach_init mth b h part nrm s :
    0 < b -> init log2 mth b h part nrm = Ok s -> reachable log2 strict s
| reach_step s x hopt out s' :
    reachable log2 strict s -> length x = B s ->
    process log2 strict x hopt s = (Ok out, s') -> reachable log2 strict s'.

(** The object that [FIRfilter('upols', B=2, h=[1, 1, 1], partition=2,
    normalize=False)] constructs. *)
Definition upols_engine : FIR :=
  mkFIR UPOLS_m 2 None true (Some [1; 1; 1]%Q) (Some (ref_of [1; 1; 1]%Q)) 1
        (zeros 2) 0 (Some 2) false [] [] 0 [] [] [].

(** [upols_engine] after the block [1, 2]: its input window holds the
    block. *)
Definition upols_engine_1 : FIR :=
  snd (process ilog2 true [1; 2]%Q None upols_engine).


(** The objects that [FIRfilter('ola', B=2, h=[1, 1], normalize=False)]
    and [FIRfilter('ols', B=2, h=[1, 1], normalize=False)] construct, and
    the first after the block [1, 2]. *)
Definition ola_engine : FIR :=
  mkFIR OLA_m 2 None true (Some [1; 1]%Q) (Some (ref_of [1; 1]%Q)) 1
        (zeros 2) 0 None false [] [] 0 [] [] [].


Definition ola_engine_1 : FIR :=
  snd (process ilog2 true [1; 2]%Q None ola_engine).





(** ** Bounds on samples *)

(** A sample in [[-1, 1]]. *)
Definition unitQ (q : Q) : Prop := (-1 <= q /\ q <= 1)%Q.

(** ** The configuration and the optimizer's running optimum *)

(** The configuration that the constructor fixes. *)
Definition same_configuration (s s' : FIR) : Prop :=
  method s' = method s /\ B s' = B s /\ normalize s' = normalize s.

(** The running optimum after the pairs of [C] were visited: unbound while
    [C] is empty, and then a visited pair with its cost, which no visited
    pair undercuts. *)
Definition acc_min (log2 : nat -> Q) (b N : nat) (C : list (nat * nat))
           (acc : opt_acc) : Prop :=
  match acc with
  | (Some c, Some (L, K)) =>
      c = cost log2 b N L K
      /\ forall L' K', In (L', K') C -> (c <= cost log2 b N L' K')%Q
  | (None, None) => C = []
  | _ => False
  end.

(** ** Streaming and direct convolution *)

(** Sample [p] of [np.convolve(S, h)], for [p] within the output. *)
Definition conv_at (h S : list Q) (p : nat) : Q :=
  sumQ (map (fun k => (nth k h 0 * (if k <=? p then nth (p - k) S 0 else 0))%Q)
            (seq 0 (length h))).

(** What the caller gets for a sample [q]: [q], or [q] divided by the
    reference of [h] when the engine normalises. *)
Definition returned (nrm : bool) (h : list Q) (q : Q) : fval :=
  if nrm then fdiv (ref_of h) q else Finite q.

(** The last [n] samples of the input [S] received so far, after [n]
    zeros: the input window of OLS and of UPOLS. *)
Definition past_window (n : nat) (S : list Q) : list Q :=
  skipn (length S) (zeros n ++ S).

(** The OLS engine for [h] after the input [S], one block or more. *)
Definition ols_after (b : nat) (h : list Q) (part : option nat) (nrm : bool)
           (S : list Q) : FIR :=
  mkFIR OLS_m b (Some (b + length h - 1)) false (Some h) (Some (ref_of h)) 1
        (zeros b) 0 part nrm [resize (b + length h - 1) h]
        (past_window (b + length h - 1) S) 0 [] [] [].

(** The blocks [outs] returned for the blocks [xs] are, sample by sample,
    the first samples of the direct convolution of the whole input with
    [h], as the caller gets them. *)
Definition streams_convolution (nrm : bool) (h : list Q) (b : nat)
           (xs : list (list Q)) (outs : list (list fval)) : Prop :=
  Forall (fun o => length o = b) outs
  /\ Forall2 fval_eq (concat outs)
       (map (returned nrm h)
            (firstn (length (concat xs)) (convolve (concat xs) h))).

(** The same, for the blocks that follow the input [S]. *)
Definition continues_convolution (nrm : bool) (h : list Q) (b : nat)
           (S : list Q) (xs : list (list Q)) (outs : list (list fval)) : Prop :=
  Forall (fun o => length o = b) outs
  /\ Forall2 fval_eq (concat outs)
       (map (fun p => returned nrm h (conv_at h (S ++ concat xs) p))
            (seq (length S) (length (concat xs)))).

(** What the input [S] received so far adds to the sample [i] places after
    it: the taps beyond [i], which meet samples of [S].  The carry buffer
    of OLA holds these sums. *)
Definition carry_at (h S : list Q) (i : nat) : Q :=
  sumQ (map (fun k => (nth k h 0
                       * (if (i <? k) && (k <=? length S + i)
                          then nth (length S + i - k) S 0 else 0))%Q)
            (seq 0 (length h))).

(** The OLA engine for [h] with the carry buffer [lo], after one block or
    more. *)
Definition ola_state (b : nat) (h : list Q) (part : option nat) (nrm : bool)
           (lo : list Q) : FIR :=
  mkFIR OLA_m b (Some (b + length h - 1)) false (Some h) (Some (ref_of h)) 1
        lo (b + length h - 1 - b) part nrm [resize (b + length h - 1) h]
        [] 0 [] [] [].

(** The carry buffer [lo] holds what the input [S] carries over. *)
Definition carries (b : nat) (h S lo : list Q) : Prop :=
  length lo = b + length h - 1
  /\ forall i, i < b + length h - 1 -> (nth i lo 0 == carry_at h S i)%Q.

(** The active slots of the delay line, [nm]. *)
Definition upols_slots (b L Nh : nat) : list nat :=
  map (fun m => m * L / b) (seq 0 (ceil_div Nh L)).

(** The delay line after the input [S]: row [r] is the window of [r]
    blocks ago, all zeros while the input is shorter. *)
Definition delay_line (b n R : nat) (S : list Q) : list (list Q) :=
  map (fun r => past_window n (firstn (length S - r * b) S)) (seq 0 R).

(** The UPOLS engine for [h] and the partition length [L] after its setup
    and the input [S]. *)
Definition upols_after (b : nat) (h : list Q) (L : nat) (nrm : bool)
           (S : list Q) : FIR :=
  mkFIR UPOLS_m b (Some (upols_nfft b L)) false (Some h) (Some (ref_of h)) 1
        (zeros b) 0 (Some L) nrm
        (map (h_row h L b (upols_nfft b L)) (seq 0 (ceil_div (length h) L)))
        [] (ceil_div (length h) L) (past_window (upols_nfft b L) S)
        (upols_slots b L (length h))
        (delay_line b (upols_nfft b L)
                    (list_max (upols_slots b L (length h)) + 1) S).

(** The constructions that can stream: a positive block size, an impulse
    response with a sample or more, a transform of more than one point
    for OLA, and for UPOLS a positive partition length or an impulse
    response the optimizer accepts. *)
Definition streamable (mth : method_t) (b : nat) (h : list Q)
           (part : option nat) : Prop :=
  0 < b
  /\ match mth with
     | OLS_m => 0 < length h
     | OLA_m => 0 < length h /\ 2 < b + length h
     | UPOLS_m =>
         match part with
         | Some L => 0 < L /\ 0 < length h
         | None => 2 <= length h
         end
     end.

(** ** A changed impulse response *)

(** The engine as [process] leaves it for the method when the call brings
    the changed impulse response [h]: flag set, [h] stored, reference and
    channel count recomputed. *)
Definition with_new_ir (h : list Q) (s : FIR) : FIR :=
  set_N_ch 1 (set_ref (Some (ref_of h))
                      (set_stored_h (Some h) (set_flagIRchanged true s))).

(** The carry buffer of OLA after the input [S] under the impulse response
    [h1] and then the input [X] under [h2]: both inputs carry over, each
    under its own impulse response. *)
Definition carries_over (b : nat) (h1 h2 S X lo : list Q) : Prop :=
  length lo = b + length h2 - 1
  /\ forall i, i < b + length h2 - 1 ->
       (nth i lo 0 == carry_at h1 S (length X + i) + carry_at h2 X i)%Q.

(** The blocks [outs] returned for the blocks [xs] that follow the input
    [X] are the convolution of the input since the switch with [h2], over
    what the input [S] before the switch carries over under [h1]. *)
Definition continues_superposed (nrm : bool) (h1 h2 : list Q) (b : nat)
           (S X : list Q) (xs : list (list Q)) (outs : list (list fval))
  : Prop :=
  Forall (fun o => length o = b) outs
  /\ Forall2 fval_eq (concat outs)
       (map (fun q => returned nrm h2
                        (conv_at h2 (X ++ concat xs) q + carry_at h1 S q))
            (seq (length X) (length (concat xs)))).

(** ** A block of one sample *)

(** How a method reads a block of the one sample [c]: OLS and UPOLS write
    it into the last [b] positions of the window, where it is broadcast;
    OLA transforms it, zero padded. *)
Definition one_sample_as (mth : method_t) (b : nat) (c : Q) : list Q :=
  match mth with
  | OLA_m => c :: zeros (b - 1)
  | _ => repeat c b
  end.

(** ** Blocks of another length or shape *)



(** * Properties *)

(** ** The optimizer *)

Section OptimizerFacts.

Variable log2 : nat -> Q.

Lemma scan_K_ok C b N L acc K :
  acc_ok C acc -> In (L, K) C -> acc_ok C (scan_K log2 b N L acc K).
Proof.
  unfold acc_ok, scan_K. destruct acc as [[c|] o]; simpl.
  - destruct (Qlt_bool _ c); simpl; intros Hacc Hin; auto.
    split; [assumption | discriminate].
  - intros _ Hin. split; [assumption | discriminate].
Qed.

Lemma scan_K_bound C b N L acc K :
  acc_ok C acc -> snd (scan_K log2 b N L acc K) <> None.
Proof.
  unfold acc_ok, scan_K. destruct acc as [[c|] o]; simpl.
  - destruct (Qlt_bool _ c); simpl; [discriminate|].
    destruct o; [discriminate | intros H; discriminate H].
  - discriminate.
Qed.

Lemma fold_scan_K_ok C b N L Ks : forall acc,
  acc_ok C acc -> (forall K, In K Ks -> In (L, K) C) ->
  acc_ok C (fold_left (scan_K log2 b N L) Ks acc).
Proof.
  induction Ks as [|K Ks IH]; simpl; intros acc Hacc Hin; [assumption|].
  apply IH; [apply scan_K_ok; auto | auto].
Qed.

Lemma acc_ok_bound_stable C b N L Ks : forall acc,
  acc_ok C acc -> (forall K, In K Ks -> In (L, K) C) -> snd acc <> None ->
  snd (fold_left (scan_K log2 b N L) Ks acc) <> None.
Proof.
  induction Ks as [|K Ks IH]; simpl; intros acc Hacc Hin Hb; [assumption|].
  apply IH; [apply scan_K_ok; auto | auto | eapply scan_K_bound; eauto].
Qed.

Lemma fold_scan_K_bound C b N L Ks : forall acc,
  acc_ok C acc -> (forall K, In K Ks -> In (L, K) C) -> Ks <> [] ->
  snd (fold_left (scan_K log2 b N L) Ks acc) <> None.
Proof.
  destruct Ks as [|K Ks]; [congruence|]. simpl. intros acc Hacc Hin _.
  apply (acc_ok_bound_stable C); [apply scan_K_ok; auto | auto |].
  eapply scan_K_bound; eauto.
Qed.

Lemma K_range_nonempty b L : K_range b L <> [].
Proof.
  unfold K_range.
  set (lo := Nat.min _ _). set (hi := Nat.max _ _).
  assert (lo <= hi) by (subst lo hi; lia).
  destruct (lo =? hi) eqn:E;
    [replace (hi + 1 + 1 - lo) with (S (hi + 1 - lo)) by lia
    | replace (hi + 1 - lo) with (S (hi - lo)) by lia]; discriminate.
Qed.

Lemma scan_L_ok C b N : forall Ls acc,
  b <> 0 -> acc_ok C acc ->
  (forall L K, In L Ls -> In K (K_range b L) -> In (L, K) C) ->
  exists acc', scan_L log2 b N Ls acc = Ok acc' /\ acc_ok C acc'
               /\ (Ls <> [] -> snd acc' <> None).
Proof.
  induction Ls as [|L Ls IH]; simpl; intros acc Hb Hacc Hin.
  - exists acc. repeat split; auto.
  - destruct (Nat.eqb_spec b 0) as [->|_]; [congruence|].
    assert (HK : forall K, In K (K_range b L) -> In (L, K) C) by auto.
    destruct (IH (fold_left (scan_K log2 b N L) (K_range b L) acc) Hb)
      as (acc' & Hrun & Hok & Hbd).
    + apply fold_scan_K_ok; auto.
    + auto.
    + exists acc'. repeat split; auto. intros _.
      destruct Ls as [|L' Ls].
      * simpl in Hrun. injection Hrun as <-.
        apply (fold_scan_K_bound C); auto. apply K_range_nonempty.
      * apply Hbd. discriminate.
Qed.

Lemma rang_nonempty N : 2 <= N -> rang N <> [].
Proof.
  intros HN. unfold rang.
  assert (1 <= Nat.log2 N) by (apply Nat.log2_le_pow2; simpl; lia).
  destruct (Nat.log2 N); [lia | discriminate].
Qed.

(** For an impulse response of two samples or more and a positive block
    size the search returns one of the pairs it visits. *)
Lemma optimize_in_candidates N b :
  2 <= N -> 0 < b ->
  exists L K, optimize_UPOLS_parameters log2 N b = Ok (L, K)
              /\ In (L, K) (candidates N b).
Proof.
  intros HN Hb. unfold optimize_UPOLS_parameters.
  destruct (Nat.eqb_spec N 0) as [->|_]; [lia|].
  destruct (scan_L_ok (candidates N b) b N (rang N) (None, None))
    as (acc' & -> & Hok & Hbd).
  - lia.
  - reflexivity.
  - intros L K HL HK. unfold candidates. apply in_flat_map.
    exists L. split; [assumption | apply in_map; assumption].
  - specialize (Hbd (rang_nonempty N HN)).
    destruct acc' as [c [[L K]|]]; [|exfalso; apply Hbd; reflexivity].
    exists L, K. split; [reflexivity | apply Hok].
Qed.

Lemma K_min_le_K_max b L : K_min_of b L <= K_max_of b L.
Proof.
  unfold K_max_of. destruct (Nat.le_gt_cases (K_min_of b L) 1) as [Hle|Hgt].
  - pose proof (Nat.pow_nonzero 2 (Nat.log2_up (K_min_of b L))). lia.
  - apply Nat.log2_up_spec in Hgt. lia.
Qed.

Lemma K_range_lower b L K : In K (K_range b L) -> K_min_of b L <= K.
Proof.
  unfold K_range. intros HK. apply in_seq in HK.
  pose proof (K_min_le_K_max b L). lia.
Qed.

Lemma candidates_spec N b L K :
  In (L, K) (candidates N b) ->
  In L (rang N) /\ In K (K_range b L).
Proof.
  unfold candidates. intros HI. apply in_flat_map in HI.
  destruct HI as (L' & HL & HK). apply in_map_iff in HK.
  destruct HK as (K' & E & HK). injection E as <- <-. auto.
Qed.

Lemma rang_spec N L : In L (rang N) -> exists k, L = 2 ^ k /\ k < Nat.log2 N.
Proof.
  unfold rang. intros HI. apply in_map_iff in HI.
  destruct HI as (k & <- & Hk). apply in_seq in Hk. exists k. split; [reflexivity | lia].
Qed.

End OptimizerFacts.

(** C5. For every impulse-response length [N >= 2] and every positive block
    size, [optimize_UPOLS_parameters N B] returns a pair [(L, K)]; [L] is
    one of the candidate partition lengths [rang N], a power of two with
    [L <= N], and [K >= B + L - 1]. *)
Theorem optimizer_validity (log2 : nat -> Q) (N b : nat) :
  2 <= N -> 0 < b ->
  exists L K,
    optimize_UPOLS_parameters log2 N b = Ok (L, K)
    /\ In L (rang N)
    /\ (exists k, L = 2 ^ k)
    /\ L <= N
    /\ b + L - 1 <= K.
Proof.
  intros HN Hb.
  destruct (optimize_in_candidates log2 N b HN Hb) as (L & K & Hrun & Hin).
  apply candidates_spec in Hin. destruct Hin as [HL HK].
  destruct (rang_spec N L HL) as (k & -> & Hk).
  exists (2 ^ k), K. repeat split; auto.
  - exists k. reflexivity.
  - transitivity (2 ^ Nat.log2 N).
    + apply Nat.pow_le_mono_r; lia.
    + apply Nat.log2_spec. lia.
  - apply K_range_lower in HK. unfold K_min_of, d_max_of in HK. lia.
Qed.

Lemma optimizer_validity_witness :
  exists L K,
    optimize_UPOLS_parameters ilog2 8 4 = Ok (L, K)
    /\ In L (rang 8) /\ (exists k, L = 2 ^ k) /\ L <= 8 /\ 4 + L - 1 <= K.
Proof.
  apply (optimizer_validity ilog2 8 4); lia.
Defined.

(** C9. For an impulse response of one sample the candidate list is empty,
    [L_opt] and [K_opt] are never assigned and the optimizer raises
    [UnboundLocalError] for every block size; so does the construction of a
    UPOLS engine from a one-sample impulse response without a partition. *)
Theorem optimizer_unbound_for_one_sample (log2 : nat -> Q) (b : nat) :
  rang 1 = []
  /\ optimize_UPOLS_parameters log2 1 b = Raise UnboundLocalError
  /\ forall (a : Q) (nrm : bool),
       init log2 UPOLS_m b (Some [a]) None nrm = Raise UnboundLocalError.
Proof.
  repeat split.
Qed.

(** ** The scenario *)

Lemma candidates_scn :
  candidates 8 4 = [(1, 7); (1, 8); (2, 7); (2, 8); (4, 7); (4, 8)].
Proof. reflexivity. Qed.

Lemma y_scn_value : y_scn = [1; 2; 3; 4; 5; 6; 7; 9; 2; 3; 4; 5; 6; 7; 8]%Q.
Proof. reflexivity. Qed.

(** C1, as amended.  In the scenario (impulse response [1,0,0,0,0,0,0,1],
    B = 4, blocks [1,2,3,4] then [5,6,7,8]) the OLS, OLA and UPOLS engines,
    the latter with the partition of the optimizer under any cost ordering,
    return the same two blocks.  With [normalize = False] these are the
    first eight samples of the direct convolution; with [normalize = True],
    the default, they are those samples divided by the reference 2. *)
Theorem scenario_blocks (log2 : nat -> Q) (strict : bool) (mth : method_t) :
  engine_run log2 strict mth 4 (Some h_scn) None false [x_scn1; x_scn2]
  = Ok [map Finite (firstn 4 y_scn); map Finite (firstn 4 (skipn 4 y_scn))]
  /\ engine_run log2 strict mth 4 (Some h_scn) None true [x_scn1; x_scn2]
     = Ok [map (fdiv 2) (firstn 4 y_scn); map (fdiv 2) (firstn 4 (skipn 4 y_scn))].
Proof.
  destruct mth; try (split; vm_compute; reflexivity).
  destruct (optimize_in_candidates log2 8 4) as (L & K & Hrun & Hin); try lia.
  rewrite candidates_scn in Hin. unfold engine_run, init.
  change (length h_scn) with 8. rewrite Hrun.
  simpl in Hin.
  repeat (destruct Hin as [Hin|Hin];
          [injection Hin as <- <-; split; vm_compute; reflexivity|]).
  contradiction.
Qed.

(** C1 as stated fails for an engine built with the constructor's default
    [normalize = True]: the first block is half of the direct convolution. *)
Lemma scenario_default_normalize_differs :
  engine_run ilog2 true OLS_m 4 (Some h_scn) None true [x_scn1; x_scn2]
  = Ok [[Finite (1 # 2); Finite (2 # 2); Finite (3 # 2); Finite (4 # 2)];
        [Finite (5 # 2); Finite (6 # 2); Finite (7 # 2); Finite (9 # 2)]]
  /\ ~ Forall2 fval_eq
         [Finite (1 # 2); Finite (2 # 2); Finite (3 # 2); Finite (4 # 2)]
         (map Finite (firstn 4 y_scn)).
Proof.
  split; [vm_compute; reflexivity|].
  intros HF. inversion HF as [|a c l l' Hac _]; subst.
  vm_compute in Hac. discriminate Hac.
Qed.

(** ** Rules for assertions *)

Section Rules.

Context {A C : Type}.

Lemma hoare_bind (P : FIR -> Prop) (m : M A) (Q : A -> FIR -> Prop)
      (k : A -> M C) (R : C -> FIR -> Prop) (E : FIR -> Prop) :
  hoare P m Q E -> (forall a, hoare (Q a) (k a) R E) ->
  hoare P (bind m k) R E.
Proof.
  intros Hm Hk s Hs. unfold bind. specialize (Hm s Hs).
  destruct (m s) as [[a|e] s1]; [apply Hk; assumption | assumption].
Qed.

Lemma hoare_conseq (P P' : FIR -> Prop) (m : M A)
      (Q Q' : A -> FIR -> Prop) (E E' : FIR -> Prop) :
  hoare P' m Q' E' ->
  (forall s, P s -> P' s) -> (forall a s, Q' a s -> Q a s) ->
  (forall s, E' s -> E s) ->
  hoare P m Q E.
Proof.
  intros Hm HP HQ HE s Hs. specialize (Hm s (HP s Hs)).
  destruct (m s) as [[a|e] s1]; auto.
Qed.

Lemma hoare_stable_bind (I : FIR -> Prop) (m : M A) (k : A -> M C)
      (R : C -> FIR -> Prop) (E : FIR -> Prop) :
  stable I m -> (forall s, I s -> E s) -> (forall a, hoare I (k a) R E) ->
  hoare I (bind m k) R E.
Proof.
  intros Hm HE Hk. apply hoare_bind with (Q := fun _ => I); [|assumption].
  apply hoare_conseq with (P' := I) (Q' := fun _ => I) (E' := I); auto.
Qed.

Lemma stable_bind (I : FIR -> Prop) (m : M A) (k : A -> M C) :
  stable I m -> (forall a, stable I (k a)) -> stable I (bind m k).
Proof. intros Hm Hk. eapply hoare_bind; eauto. Qed.

Lemma stable_ret (I : FIR -> Prop) (a : A) : stable I (ret a).
Proof. intros s Hs. exact Hs. Qed.

Lemma stable_raise (I : FIR -> Prop) (e : exn) : stable I (@raise A e).
Proof. intros s Hs. exact Hs. Qed.

Lemma stable_get (I : FIR -> Prop) (f : FIR -> A) : stable I (get f).
Proof. intros s Hs. exact Hs. Qed.

Lemma stable_need (I : FIR -> Prop) (e : exn) (o : option A) :
  stable I (need e o).
Proof. destruct o; [apply stable_ret | apply stable_raise]. Qed.

Lemma stable_lift (I : FIR -> Prop) (r : res A) : stable I (lift r).
Proof. destruct r; [apply stable_ret | apply stable_raise]. Qed.

End Rules.

Lemma stable_upd (I : FIR -> Prop) (f : FIR -> FIR) :
  (forall s, I s -> I (f s)) -> stable I (upd f).
Proof. intros Hf s Hs. apply Hf, Hs. Qed.

(** One step of a stability proof: split a sequence, close an elementary
    computation, or branch on the value a conditional inspects. *)
Ltac stable_step :=
  match goal with
  | |- stable _ (bind _ _) => apply stable_bind; [|intros ?]
  | |- stable _ (ret _) => apply stable_ret
  | |- stable _ (raise _) => apply stable_raise
  | |- stable _ (get _) => apply stable_get
  | |- stable _ (need _ _) => apply stable_need
  | |- stable _ (lift _) => apply stable_lift
  | |- stable _ (upd _) => apply stable_upd; intros ? ?; assumption
  | |- stable _ (if ?c then _ else _) => destruct c
  | |- stable _ (match ?x with _ => _ end) => destruct x
  end.

Lemma stable_fdl_products (I : FIR -> Prop) F : forall slots Hs,
  stable I (fdl_products F slots Hs).
Proof.
  induction slots as [|i slots IH]; intros [|Hm Hs]; simpl;
    repeat stable_step. apply IH.
Qed.

(** ** Normalisation by a zero reference *)

Lemma sumQ_abs_zero (h : list Q) :
  Forall (fun a => (a == 0)%Q) h -> (ref_of h == 0)%Q.
Proof.
  unfold ref_of. induction 1 as [|a h Ha _ IH]; simpl; [reflexivity|].
  rewrite IH, Ha. reflexivity.
Qed.

Lemma fdiv_zero (r a : Q) : (r == 0)%Q -> fdiv r a = NonFinite.
Proof.
  intros Hr. unfold fdiv. apply Qeq_bool_iff in Hr. rewrite Hr. reflexivity.
Qed.

Lemma finish_zero_ref (out : list Q) :
  hoare zero_ref (finish out)
        (fun o _ => Forall (fun v => v = NonFinite) o) (fun _ => True).
Proof.
  intros s [Hn (r & Hr & Hz)]. unfold finish, normalize_output, bind, get.
  rewrite Hn, Hr. simpl. apply Forall_forall. intros v Hv.
  apply in_map_iff in Hv. destruct Hv as (a & <- & _). apply fdiv_zero, Hz.
Qed.

(** A step of a proof that a method ends in [finish]: the statements
    before it keep the invariant. *)
Ltac to_finish :=
  repeat match goal with
         | |- hoare _ (bind _ _) _ _ =>
             apply hoare_stable_bind;
             [repeat stable_step; try apply stable_fdl_products
             | intros ? ?; exact I | intros ?]
         end.

Section ZeroReference.

Variable log2 : nat -> Q.

Lemma stable_fft_conv_zero_ref x : stable zero_ref (fft_conv x).
Proof. unfold fft_conv, np_fft. repeat stable_step. Qed.

Lemma OLS_zero_ref x h :
  hoare zero_ref (OLS x h)
        (fun o _ => Forall (fun v => v = NonFinite) o) (fun _ => True).
Proof.
  unfold OLS, max_shape. to_finish; try apply stable_fft_conv_zero_ref.
  apply finish_zero_ref.
Qed.

Lemma OLA_zero_ref x h :
  hoare zero_ref (OLA x h)
        (fun o _ => Forall (fun v => v = NonFinite) o) (fun _ => True).
Proof.
  unfold OLA, max_shape. to_finish; try apply stable_fft_conv_zero_ref.
  apply finish_zero_ref.
Qed.

Lemma UPOLS_zero_ref x h :
  hoare zero_ref (UPOLS log2 x h)
        (fun o _ => Forall (fun v => v = NonFinite) o) (fun _ => True).
Proof.
  unfold UPOLS, UPOLS_setup, max_shape, np_fft. to_finish.
  apply finish_zero_ref.
Qed.

Lemma dispatch_zero_ref x h :
  hoare zero_ref (dispatch log2 x h)
        (fun o _ => Forall (fun v => v = NonFinite) o) (fun _ => True).
Proof.
  unfold dispatch. apply hoare_stable_bind;
    [apply stable_get | intros ? ?; exact I | intros mth].
  destruct mth; [apply OLS_zero_ref | apply OLA_zero_ref | apply UPOLS_zero_ref].
Qed.

End ZeroReference.

Lemma hoare_and {A : Type} (P : FIR -> Prop) (m : M A)
      (Q1 Q2 : A -> FIR -> Prop) (E1 E2 : FIR -> Prop) :
  hoare P m Q1 E1 -> hoare P m Q2 E2 ->
  hoare P m (fun a s => Q1 a s /\ Q2 a s) (fun s => E1 s /\ E2 s).
Proof.
  intros H1 H2 s Hs. specialize (H1 s Hs). specialize (H2 s Hs).
  destruct (m s) as [[a|e] s1]; auto.
Qed.

Section ZeroReferenceStream.

Variable log2 : nat -> Q.
Variable strict : bool.

Lemma stable_dispatch_zero_ref x h : stable zero_ref (dispatch log2 x h).
Proof.
  unfold dispatch, OLS, OLA, UPOLS, UPOLS_setup, fft_conv, np_fft, max_shape,
    finish, normalize_output.
  repeat stable_step; apply stable_fdl_products.
Qed.

Lemma process_zero_ref x :
  hoare zero_ref (process log2 strict x None)
        (fun o s => Forall (fun v => v = NonFinite) o /\ zero_ref s)
        (fun _ => True).
Proof.
  unfold process.
  apply hoare_stable_bind; [apply stable_get | intros ? ?; exact I | intros sh].
  eapply hoare_conseq.
  - apply hoare_and; [apply dispatch_zero_ref | apply stable_dispatch_zero_ref].
  - auto.
  - auto.
  - auto.
Qed.

Lemma stream_zero_ref xs :
  hoare zero_ref (stream log2 strict xs)
        (fun os _ => Forall (Forall (fun v => v = NonFinite)) os)
        (fun _ => True).
Proof.
  induction xs as [|x xs IH]; simpl.
  - intros s _. constructor.
  - eapply hoare_bind; [apply process_zero_ref|].
    intros o s [Ho Hs]. unfold bind. specialize (IH s Hs).
    destruct (stream log2 strict xs s) as [[os|e] s1]; simpl; auto.
Qed.

End ZeroReferenceStream.

(** C10. If the stored impulse response is all zeros and [normalize] is
    set, the reference that [generate_ref] computes is exactly 0, and every
    block that [process] returns afterwards is divided by it: none of its
    samples is finite. *)
Theorem zero_impulse_response_never_finite
        (log2 : nat -> Q) (strict : bool) (s : FIR) (h : list Q)
        (xs : list (list Q))
        (outs : list (list fval)) (s' : FIR) :
  stored_h s = Some h ->
  Forall (fun a => (a == 0)%Q) h ->
  normalize s = true ->
  stream log2 strict xs (snd (generate_ref s)) = (Ok outs, s') ->
  ref (snd (generate_ref s)) = Some (ref_of h)
  /\ (ref_of h == 0)%Q
  /\ Forall (Forall (fun v => v = NonFinite)) outs.
Proof.
  intros Hh Hz Hn Hrun.
  assert (Hr : ref (snd (generate_ref s)) = Some (ref_of h)).
  { unfold generate_ref, bind, get, need. rewrite Hh. reflexivity. }
  assert (Hn' : normalize (snd (generate_ref s)) = true).
  { unfold generate_ref, bind, get, need. rewrite Hh. exact Hn. }
  repeat split; [exact Hr | apply sumQ_abs_zero, Hz |].
  pose proof (stream_zero_ref log2 strict xs (snd (generate_ref s))) as Hs.
  rewrite Hrun in Hs. apply Hs. split; [exact Hn'|].
  exists (ref_of h). split; [exact Hr | apply sumQ_abs_zero, Hz].
Qed.

Lemma zero_impulse_response_never_finite_witness :
  init ilog2 OLS_m 2 (Some [0; 0]%Q) None true = Ok zero_engine
  /\ ref (snd (generate_ref zero_engine)) = Some (ref_of [0; 0]%Q)
  /\ (ref_of [0; 0]%Q == 0)%Q
  /\ Forall (Forall (fun v => v = NonFinite)) [[NonFinite; NonFinite]].
Proof.
  split; [reflexivity|].
  apply (zero_impulse_response_never_finite ilog2 true zero_engine [0; 0]%Q
           [[1; 1]%Q] [[NonFinite; NonFinite]]
           (snd (stream ilog2 true [[1; 1]%Q] (snd (generate_ref zero_engine))))).
  - reflexivity.
  - repeat constructor.
  - reflexivity.
  - vm_compute. reflexivity.
Defined.

(** ** Arrays: lengths and slices *)

Lemma zeros_length n : length (zeros n) = n.
Proof. apply repeat_length. Qed.

Lemma resize_length n x : length (resize n x) = n.
Proof.
  unfold resize. rewrite length_app, length_firstn, zeros_length. lia.
Qed.

Lemma roll_left_length k a : length (roll_left k a) = length a.
Proof.
  unfold roll_left. destruct (length a) eqn:E; [assumption|].
  rewrite length_app, length_firstn, length_skipn. lia.
Qed.

Lemma zip_add_length a : forall c,
  length (zip_add a c) = Nat.min (length a) (length c).
Proof.
  induction a as [|x a IH]; intros [|y c]; simpl; auto.
Qed.

Lemma cconv_length X Hv : length (cconv X Hv) = length X.
Proof. unfold cconv. rewrite length_map, length_seq. reflexivity. Qed.

Lemma broadcast_to_exact m x : length x = m -> broadcast_to m x = Some x.
Proof. intros E. unfold broadcast_to. rewrite E, Nat.eqb_refl. reflexivity. Qed.

Lemma tail_start_pos b n : 0 < b -> tail_start b n = n - b.
Proof.
  intros Hb. unfold tail_start. destruct (Nat.eqb_spec b 0); [lia | reflexivity].
Qed.

(** Writing a block of [b] samples into the last [b] positions. *)
Lemma assign_tail_block b a x :
  0 < b -> b <= length a -> length x = b ->
  assign_tail b a x = Some (firstn (length a - b) a ++ x).
Proof.
  intros Hb Hle Hx. unfold assign_tail. rewrite tail_start_pos by assumption.
  rewrite broadcast_to_exact by lia. reflexivity.
Qed.

(** Rolling by [b] and writing the block: the window slides by [b]. *)
Lemma slide_window b a x :
  0 < b -> b <= length a -> length x = b ->
  assign_tail b (roll_left b a) x = Some (skipn b a ++ x).
Proof.
  intros Hb Hle Hx. rewrite assign_tail_block; rewrite ?roll_left_length; auto.
  f_equal. f_equal. unfold roll_left.
  destruct (length a) as [|n] eqn:E; [lia|].
  destruct (Nat.eq_dec b (S n)) as [->|Hne].
  - rewrite Nat.Div0.mod_same, Nat.sub_diag, (skipn_all2 a (n := S n)) by lia.
    reflexivity.
  - rewrite Nat.mod_small by lia.
    rewrite firstn_app, length_skipn, E.
    replace (S n - b - (S n - b)) with 0 by lia. rewrite firstn_O, app_nil_r.
    apply firstn_all2. rewrite length_skipn. lia.
Qed.

Lemma py_tail_length b a :
  0 < b -> b <= length a -> length (py_tail b a) = b.
Proof.
  intros Hb Hle. unfold py_tail. rewrite tail_start_pos by assumption.
  rewrite length_skipn. lia.
Qed.

Lemma ceil_div_small Nh L : 0 < Nh -> Nh <= L -> ceil_div Nh L = 1.
Proof.
  intros H0 HL. unfold ceil_div.
  replace (Nh + L - 1) with (Nh - 1 + 1 * L) by lia.
  rewrite Nat.div_add by lia. rewrite Nat.div_small by lia. reflexivity.
Qed.

Lemma upols_nfft_pos b L : 0 < b -> upols_nfft b L = b + L + (b - Nat.gcd L b).
Proof.
  intros Hb. unfold upols_nfft. destruct (Nat.eqb_spec b 0); [lia | reflexivity].
Qed.

(** ** Symbolic execution of the methods *)

(** Unfold the methods and the monad on a state given by its fields. *)
Ltac fir_run :=
  cbv beta iota zeta delta
      [process dispatch UPOLS UPOLS_setup OLS OLA fft_conv finish
       normalize_output generate_ref np_fft max_shape
       bind get upd ret raise need lift
       method B NFFT flagIRchanged stored_h ref N_ch left_overs len_y_left
       partition normalize H OLS_input_buffer P input_buffer nm FDL
       set_NFFT set_flagIRchanged set_stored_h set_ref set_N_ch
       set_left_overs set_len_y_left set_partition set_H
       set_OLS_input_buffer set_P set_input_buffer set_nm set_FDL].

Ltac fir_run_in Hyp :=
  cbv beta iota zeta delta
      [process dispatch UPOLS UPOLS_setup OLS OLA fft_conv finish
       normalize_output generate_ref np_fft max_shape
       bind get upd ret raise need lift
       method B NFFT flagIRchanged stored_h ref N_ch left_overs len_y_left
       partition normalize H OLS_input_buffer P input_buffer nm FDL
       set_NFFT set_flagIRchanged set_stored_h set_ref set_N_ch
       set_left_overs set_len_y_left set_partition set_H
       set_OLS_input_buffer set_P set_input_buffer set_nm set_FDL] in Hyp.

Lemma eqb_false_of_pos n : 0 < n -> (n =? 0) = false.
Proof. intros Hn. apply Nat.eqb_neq. lia. Qed.

Lemma resize_id n x : length x = n -> resize n x = x.
Proof.
  intros E. unfold resize. rewrite firstn_all2 by lia.
  replace (n - length x) with 0 by lia. apply app_nil_r.
Qed.

Lemma spec_mul_ok X Hv :
  length X = length Hv -> spec_mul X Hv = Some (cconv X Hv).
Proof. intros E. unfold spec_mul. rewrite E, Nat.eqb_refl. reflexivity. Qed.

Lemma h_row_length h L b n m : length (h_row h L b n m) = n.
Proof. apply resize_length. Qed.

Lemma slide_length b (a x : list Q) :
  b <= length a -> length x = b -> length (skipn b a ++ x) = length a.
Proof. intros Hle Hx. rewrite length_app, length_skipn. lia. Qed.

Lemma resize_padded n (h : list Q) k :
  length h + k <= n -> resize n (h ++ zeros k) = resize n h.
Proof.
  intros Hle. unfold resize.
  rewrite !firstn_all2 by (rewrite ?length_app, ?zeros_length; lia).
  rewrite length_app, zeros_length, <- app_assoc. f_equal.
  unfold zeros. rewrite <- repeat_app. f_equal. lia.
Qed.

Lemma h_row_first (h : list Q) L b n :
  length h <= L -> L <= n -> h_row h L b n 0 = resize n (pad_the_end h L).
Proof.
  intros Hh HL. unfold h_row, pad_beginning, pad_the_end.
  cbn [Nat.mul skipn]. rewrite Nat.Div0.mod_0_l. cbn [zeros repeat app].
  rewrite firstn_all2 by assumption.
  destruct (Nat.ltb_spec (length h) L); [|reflexivity].
  rewrite resize_padded by lia. reflexivity.
Qed.

(** ** A short impulse response in UPOLS *)

(** C8. When the impulse response is shorter than the partition
    ([0 < Nh < L]), construction and the first [process] call of a UPOLS
    engine raise nothing: there is one partition, its filter row is the
    impulse response zero padded to [L] (and on to the transform size), and
    a block of [B] samples is returned. *)
Theorem upols_short_impulse_response
        (log2 : nat -> Q) (strict : bool) (b L : nat) (h x : list Q)
        (nrm : bool) :
  0 < length h -> length h < L -> 0 < b -> length x = b ->
  exists s out s',
    init log2 UPOLS_m b (Some h) (Some L) nrm = Ok s
    /\ process log2 strict x None s = (Ok out, s')
    /\ length out = b
    /\ P s' = 1
    /\ NFFT s' = Some (b + L + (b - Nat.gcd L b))
    /\ H s' = [resize (b + L + (b - Nat.gcd L b)) (pad_the_end h L)].
Proof.
  intros Hh HL Hb Hx.
  assert (EL : (L =? 0) = false) by (apply eqb_false_of_pos; lia).
  assert (Eb : (b =? 0) = false) by (apply eqb_false_of_pos; lia).
  assert (En' : upols_nfft b L = b + L + (b - Nat.gcd L b))
    by (apply upols_nfft_pos; assumption).
  assert (Hn : b <= upols_nfft b L) by lia.
  assert (En : (upols_nfft b L =? 0) = false) by (apply eqb_false_of_pos; lia).
  assert (EP : ceil_div (length h) L = 1) by (apply ceil_div_small; lia).
  assert (Ew : length (skipn b (zeros (upols_nfft b L)) ++ x) = upols_nfft b L)
    by (rewrite slide_length; rewrite ?zeros_length; auto).
  eexists. unfold init.
  assert (Hrun : forall s, s = mkFIR UPOLS_m b None true (Some h) (Some (ref_of h))
                    1 (zeros b) 0 (Some L) nrm [] [] 0 [] [] [] ->
            exists out s', process log2 strict x None s = (Ok out, s')
              /\ length out = b /\ P s' = 1
              /\ NFFT s' = Some (upols_nfft b L)
              /\ H s' = [h_row h L b (upols_nfft b L) 0]).
  { intros s ->.
    fir_run. rewrite EL. fir_run. rewrite EP.
    cbn [Nat.ltb Nat.leb andb]. rewrite En, Eb. fir_run.
    cbn [seq map length Nat.eqb list_max fold_right repeat].
    rewrite slide_window; rewrite ?zeros_length; try lia.
    fir_run. rewrite Ew, En.
    replace (0 * L / b) with 0 by (cbn [Nat.mul]; symmetry; apply Nat.Div0.div_0_l).
    cbn [Nat.max Nat.add repeat roll_rows rev app].
    fir_run. cbn [fdl_products nth_error]. fir_run.
    rewrite spec_mul_ok by (rewrite resize_length, h_row_length; reflexivity).
    fir_run.
    assert (Hlen : length (py_tail b (sum_rows (upols_nfft b L)
              [cconv (resize (upols_nfft b L) (skipn b (zeros (upols_nfft b L)) ++ x))
                     (h_row h L b (upols_nfft b L) 0)])) = b).
    { apply py_tail_length; [assumption|].
      cbn [sum_rows fold_left].
      rewrite zip_add_length, cconv_length, resize_length, zeros_length. lia. }
    destruct nrm; fir_run; eexists; eexists;
      (split; [reflexivity|]); rewrite length_map; auto. }
  destruct (Hrun _ eq_refl) as (out & s' & Hp & Hl & HP & HN & HH).
  exists out, s'. split; [reflexivity|].
  rewrite <- En'. rewrite <- h_row_first with (b := b) by lia.
  auto.
Qed.

Lemma upols_short_impulse_response_witness :
  exists s out s',
    init ilog2 UPOLS_m 2 (Some [1; 2; 3]%Q) (Some 4) false = Ok s
    /\ process ilog2 true [1; 1]%Q None s = (Ok out, s')
    /\ length out = 2
    /\ P s' = 1
    /\ NFFT s' = Some (2 + 4 + (2 - Nat.gcd 4 2))
    /\ H s' = [resize (2 + 4 + (2 - Nat.gcd 4 2)) (pad_the_end [1; 2; 3]%Q 4)].
Proof.
  apply (upols_short_impulse_response ilog2 true 2 4 [1; 2; 3]%Q [1; 1]%Q false);
    simpl; lia.
Defined.

Lemma fdl_products_eq F : forall slots Hs s,
  fdl_products F slots Hs s = (fdl_rows F slots Hs, s).
Proof.
  induction slots as [|i slots IH]; intros [|Hm Hs] s; try reflexivity.
  cbn [fdl_products fdl_rows]. unfold bind, need.
  destruct (nth_error F i) as [X|]; [|reflexivity]. unfold ret.
  destruct (spec_mul X Hm) as [p|]; [|reflexivity].
  rewrite IH. destruct (fdl_rows F slots Hs); reflexivity.
Qed.

(** Inversion of a run that returned: follow the program, branch on the
    innermost test that blocks it, and drop the branches that raise. *)
Ltac innermost X :=
  lazymatch X with
  | context [match ?Y with _ => _ end] => innermost Y
  | _ => X
  end.

Ltac fir_inv Hrun :=
  repeat (fir_run_in Hrun; rewrite ?fdl_products_eq in Hrun;
          lazymatch type of Hrun with
          | (Raise _, _) = (Ok _, _) => discriminate Hrun
          | context [match ?X with _ => _ end] =>
              let Y := innermost X in
              destruct Y eqn:?; try discriminate Hrun
          end).

(** ** Recomputation of the filter transform *)

(** After inversion: read the final state off the run and decide the tests
    on the flag with the equations collected on the way. *)
Ltac close_run Hrun :=
  injection Hrun as <- <-; subst;
  unfold flag_at_call, h_in_force, changed_by, fresh_H;
  cbn [flagIRchanged stored_h H method NFFT partition B orb];
  repeat match goal with
         | E : ?a = _ |- context [?a] => rewrite E
         end;
  cbn [orb];
  repeat split; intros;
  repeat match goal with
         | E : _ || true = false |- _ => rewrite orb_true_r in E
         | E : _ || false = _ |- _ => rewrite orb_false_r in E
         end;
  subst; try discriminate; try reflexivity; eauto.

Lemma process_flag_and_H
      (log2 : nat -> Q) (strict : bool) (s : FIR) (x : list Q)
      (hopt : option (list Q))
      (out : list fval) (s' : FIR) :
  process log2 strict x hopt s = (Ok out, s') ->
  flagIRchanged s' = false
  /\ (flag_at_call hopt s = false -> H s' = H s)
  /\ (flag_at_call hopt s = true ->
      exists hv, h_in_force hopt s = Some hv /\ H s' = fresh_H s' hv).
Proof.
  intros Hrun. destruct s as [mth b n fl sh r c lo ly pt nr Hs ob p ib sl F].
  destruct mth; fir_inv Hrun; close_run Hrun.
Qed.

(** C4. In every [process] call that returns, [H] is recomputed exactly
    when the impulse-response-changed flag is set as the method starts (it
    was set before the call, or the call brings a changed impulse
    response): then [H] is the transform of the impulse response in force;
    otherwise the stored [H] is kept, whatever it holds.  The flag is clear
    after the call. *)
Theorem H_recomputed_iff_flag
        (log2 : nat -> Q) (strict : bool) (s : FIR) (x : list Q)
        (hopt : option (list Q))
        (out : list fval) (s' : FIR) :
  process log2 strict x hopt s = (Ok out, s') ->
  flagIRchanged s' = false
  /\ (flag_at_call hopt s = false -> H s' = H s)
  /\ (flag_at_call hopt s = true ->
      exists hv, h_in_force hopt s = Some hv /\ H s' = fresh_H s' hv).
Proof. apply process_flag_and_H. Qed.

Lemma H_recomputed_iff_flag_witness :
  process ilog2 true [1; 1]%Q None stale_engine
  = (Ok [Finite 10; Finite 10], snd (process ilog2 true [1; 1]%Q None stale_engine))
  /\ flagIRchanged (snd (process ilog2 true [1; 1]%Q None stale_engine)) = false
  /\ (flag_at_call None stale_engine = false ->
      H (snd (process ilog2 true [1; 1]%Q None stale_engine)) = H stale_engine)
  /\ (flag_at_call None stale_engine = true ->
      exists hv, h_in_force None stale_engine = Some hv
                 /\ H (snd (process ilog2 true [1; 1]%Q None stale_engine))
                    = fresh_H (snd (process ilog2 true [1; 1]%Q None stale_engine)) hv).
Proof.
  assert (Hrun : process ilog2 true [1; 1]%Q None stale_engine
                 = (Ok [Finite 10; Finite 10],
                    snd (process ilog2 true [1; 1]%Q None stale_engine)))
    by (vm_compute; reflexivity).
  split; [exact Hrun|].
  exact (H_recomputed_iff_flag ilog2 true stale_engine [1; 1]%Q None
           [Finite 10; Finite 10] _ Hrun).
Defined.

(** ** Ring buffers *)

Lemma assign_tail_length b (a x l : list Q) :
  assign_tail b a x = Some l -> length l = length a.
Proof.
  unfold assign_tail, broadcast_to.
  destruct (Nat.eqb_spec (length x) (length a - tail_start b (length a))) as [E|E].
  - intros [= <-]. rewrite length_app, length_firstn.
    unfold tail_start in *. destruct (b =? 0); lia.
  - destruct x as [|c [|]]; try discriminate. intros [= <-].
    rewrite length_app, length_firstn, repeat_length.
    unfold tail_start. destruct (b =? 0); lia.
Qed.

(** A block of [b] samples that was written into a non-empty window: the
    window holds at least a block, and the block is its tail. *)
Lemma assign_tail_inv b (a x l : list Q) :
  assign_tail b a x = Some l -> 0 < b -> length x = b -> 0 < length a ->
  b <= length a /\ l = firstn (length a - b) a ++ x.
Proof.
  intros Hrun Hb Hx Ha. unfold assign_tail in Hrun.
  rewrite tail_start_pos in Hrun by assumption.
  unfold broadcast_to in Hrun.
  destruct (Nat.eqb_spec (length x) (length a - (length a - b))) as [E|E].
  - injection Hrun as <-. split; [lia | reflexivity].
  - destruct x as [|c [|]]; try discriminate. simpl in Hx. subst b.
    exfalso. apply E. simpl. lia.
Qed.

Lemma slide_window_inv b (a x l : list Q) :
  assign_tail b (roll_left b a) x = Some l ->
  0 < b -> length x = b -> 0 < length a ->
  b <= length a /\ l = skipn b a ++ x.
Proof.
  intros Hrun Hb Hx Ha.
  destruct (assign_tail_inv _ _ _ _ Hrun Hb Hx) as [Hle _].
  - rewrite roll_left_length. assumption.
  - rewrite roll_left_length in Hle. split; [assumption|].
    rewrite slide_window in Hrun by assumption. congruence.
Qed.

Lemma roll_rows_cons {A : Type} (F : list A) r rest :
  roll_rows F = r :: rest -> rest = removelast F.
Proof.
  unfold roll_rows. destruct (rev F) as [|r' front] eqn:E; [discriminate|].
  intros [= <- <-]. apply (f_equal (@rev A)) in E. rewrite rev_involutive in E.
  subst F. simpl. rewrite removelast_last. reflexivity.
Qed.

Lemma Forall_removelast {A : Type} (Pr : A -> Prop) (F : list A) :
  Forall Pr F -> Forall Pr (removelast F).
Proof.
  induction 1 as [|a F Ha HF IH]; simpl; [constructor|].
  destruct F; [constructor|]. constructor; assumption.
Qed.

Lemma Forall_repeat {A : Type} (Pr : A -> Prop) (a : A) k :
  Pr a -> Forall Pr (repeat a k).
Proof. intros Ha. induction k; simpl; constructor; assumption. Qed.

(** From a run that wrote a block into a rolled window of known size: the
    window holds at least a block and has slid by [b]. *)
Ltac slide_facts Hok :=
  match goal with
  | Hn : (?n =? 0) = false,
    Ht : assign_tail ?b (roll_left ?b ?A) ?x = Some ?l |- _ =>
      apply Nat.eqb_neq in Hn;
      assert (HA : length A = n)
        by (first [apply zeros_length | apply Hok; reflexivity]);
      let Hle := fresh "Hle" in
      destruct (slide_window_inv _ _ _ _ Ht) as [Hle ->];
      [assumption | assumption | lia |]
  end.

Ltac finish_buffers :=
  eexists; repeat split; try reflexivity; intros;
  repeat match goal with
         | E : Some _ = Some _ |- _ => injection E as E; try subst
         end;
  rewrite ?slide_length by lia; rewrite ?zeros_length in *; try lia.

Section RingBuffers.

Variable log2 : nat -> Q.
Variable strict : bool.

Lemma OLS_buffers s x hopt out s' :
  buffers_ok s -> method s = OLS_m -> 0 < B s -> length x = B s ->
  process log2 strict x hopt s = (Ok out, s') ->
  exists n, NFFT s' = Some n /\ B s <= n /\ length (window s') = n
            /\ window s' = skipn (B s) (window_before hopt s n) ++ x
            /\ buffers_ok s' /\ B s' = B s /\ method s' = method s.
Proof.
  intros Hok Hm Hb Hx Hrun.
  destruct s as [mth b n fl sh r c lo ly pt nr Hs ob p ib sl F].
  cbn in Hm, Hb, Hx. subst mth. unfold buffers_ok in Hok. cbn in Hok.
  fir_inv Hrun.
  all: injection Hrun as <- <-.
  all: unfold window, window_before, buffers_ok;
    cbn [method NFFT OLS_input_buffer B].
  all: slide_facts Hok.
  all: finish_buffers.
Qed.

End RingBuffers.

(** The same for a window whose size is read off the written block. *)
Ltac slide_facts' :=
  match goal with
  | Hn : (length ?l =? 0) = false,
    Ht : assign_tail ?b (roll_left ?b ?A) ?x = Some ?l |- _ =>
      apply Nat.eqb_neq in Hn;
      let Hl := fresh "Hl" in
      pose proof (assign_tail_length _ _ _ _ Ht) as Hl;
      rewrite roll_left_length in Hl;
      let Hle := fresh "Hle" in
      destruct (slide_window_inv _ _ _ _ Ht) as [Hle ->];
      [assumption | assumption | lia |]
  end.

Lemma UPOLS_buffers (log2 : nat -> Q) (strict : bool) s x hopt out s' :
    buffers_ok s -> method s = UPOLS_m -> 0 < B s -> length x = B s ->
    process log2 strict x hopt s = (Ok out, s') ->
    exists n, NFFT s' = Some n /\ B s <= n /\ length (window s') = n
              /\ window s' = skipn (B s) (window_before hopt s n) ++ x
              /\ Forall (fun r => length r = n) (FDL s')
              /\ FDL s' = window s' :: removelast (FDL_before hopt s s' n)
              /\ buffers_ok s' /\ B s' = B s /\ method s' = method s.
Proof.
    intros Hok Hm Hb Hx Hrun.
    destruct s as [mth b n fl sh r c lo ly pt nr Hs ob p ib sl F].
    cbn in Hm, Hb, Hx. subst mth. unfold buffers_ok in Hok. cbn in Hok.
    fir_inv Hrun.
    all: injection Hrun as <- <-.
    all: unfold window, window_before, FDL_before, buffers_ok, flag_at_call, changed_by;
      cbn [method NFFT input_buffer B FDL nm flagIRchanged stored_h].
    all: slide_facts'.
    all: rewrite ?resize_id by reflexivity.
    all: try (destruct (Hok eq_refl) as (n' & En' & Hib & Hbn & HF); clear Hok).
    all: repeat match goal with
                | E : ?a = _ |- context [?a] => rewrite E
                end; rewrite ?orb_true_r; cbn [orb].
    all: match goal with
         | Hr : roll_rows _ = _ :: _ |- _ => apply roll_rows_cons in Hr; subst
         end.
    all: rewrite ?resize_id by reflexivity.
    all: rewrite ?zeros_length in *.
    all: repeat (eexists; repeat split; try reflexivity; intros;
                 try lia; try assumption;
                 try (constructor;
                      [assumption || lia
                      | apply Forall_removelast;
                        first [apply Forall_repeat, zeros_length | assumption]])).
Qed.

Lemma zero_tail_rolled b (lo : list Q) :
  0 < b -> b <= length lo ->
  zero_tail b (roll_left b lo) = skipn b lo ++ zeros b.
Proof.
  intros Hb Hle. unfold zero_tail.
  rewrite roll_left_length, tail_start_pos by assumption.
  replace (length lo - (length lo - b)) with b by lia. f_equal.
  pose proof (slide_window b lo (zeros b) Hb Hle (zeros_length b)) as Hs.
  rewrite assign_tail_block in Hs;
    rewrite ?roll_left_length, ?zeros_length; auto.
  rewrite roll_left_length in Hs. injection Hs as Hs.
  apply app_inv_tail in Hs. exact Hs.
Qed.

Lemma spec_mul_inv X Hv l :
  spec_mul X Hv = Some l -> l = cconv X Hv /\ length l = length X.
Proof.
  unfold spec_mul. destruct (length X =? length Hv); [|discriminate].
  intros [= <-]. split; [reflexivity | apply cconv_length].
Qed.

Lemma vadd_same_length a c l :
  length a = length c -> vadd a c = Some l -> l = zip_add a c.
Proof.
  intros E. unfold vadd. rewrite E, Nat.eqb_refl. congruence.
Qed.

(** The carry update of OLA: the buffer is shifted by [b], its last [b]
    samples are cleared, and the tail of [y] is added. *)
Lemma ola_carry_inv n b (lo y : list Q) ly l2 l3 :
  length lo = n -> length y = n -> 0 < b -> b <= n -> ly = n - b ->
  vadd (firstn ly (zero_tail b (roll_left b lo))) (skipn b y) = Some l2 ->
  assign_head ly (zero_tail b (roll_left b lo)) l2 = Some l3 ->
  l3 = zip_add (skipn b lo) (skipn b y) ++ zeros b.
Proof.
  intros Hlo Hy Hb Hle -> Hv Ha.
  rewrite zero_tail_rolled in Hv, Ha by lia.
  assert (Hf : firstn (n - b) (skipn b lo ++ zeros b) = skipn b lo).
  { rewrite firstn_app, length_skipn, Hlo, Nat.sub_diag, firstn_O, app_nil_r.
    apply firstn_all2. rewrite length_skipn. lia. }
  rewrite Hf in Hv.
  apply vadd_same_length in Hv; [|rewrite !length_skipn; lia]. subst l2.
  unfold assign_head in Ha. rewrite broadcast_to_exact in Ha.
  - injection Ha as <-. f_equal.
    rewrite skipn_app, length_skipn, Hlo, Nat.sub_diag.
    rewrite skipn_all2 by (rewrite length_skipn; lia). reflexivity.
  - rewrite zip_add_length, !length_skipn, length_app, length_skipn, zeros_length.
    lia.
Qed.

Lemma ola_carry_length b (lo y : list Q) n :
  length lo = n -> length y = n -> b <= n ->
  length (zip_add (skipn b lo) (skipn b y) ++ zeros b) = n.
Proof.
  intros Hlo Hy Hle.
  rewrite length_app, zip_add_length, !length_skipn, zeros_length. lia.
Qed.

Lemma OLA_buffers (log2 : nat -> Q) (strict : bool) s x hopt out s' :
    buffers_ok s -> method s = OLA_m -> 0 < B s -> 
    process log2 strict x hopt s = (Ok out, s') ->
    exists n Hv, NFFT s' = Some n /\ B s <= n /\ length (window s') = n
              /\ H s' = [Hv]
              /\ window s' = zip_add (skipn (B s) (window_before hopt s n))
                                     (skipn (B s) (cconv (resize n x) Hv))
                             ++ zeros (B s)
              /\ buffers_ok s' /\ B s' = B s /\ method s' = method s.
Proof.
    intros Hok Hm Hb Hrun.
    destruct s as [mth b n fl sh r c lo ly pt nr Hs ob p ib sl F].
    cbn in Hm, Hb. subst mth. unfold buffers_ok in Hok. cbn in Hok.
    fir_inv Hrun.
    all: injection Hrun as <- <-.
    all: unfold window, window_before, buffers_ok;
      cbn [method NFFT left_overs B len_y_left H].
    all: match goal with
         | Hm : spec_mul _ _ = Some _ |- _ =>
             apply spec_mul_inv in Hm; destruct Hm as [-> Hml];
             rewrite resize_length in Hml
         end.
    all: try (destruct (Hok _ eq_refl) as (Hlo & Hbn & Hly); clear Hok).
    all: repeat match goal with
                | E : (_ =? 0) = false |- _ => apply Nat.eqb_neq in E
                end.
    all: match goal with
         | Hv : vadd (firstn _ (zero_tail _ (roll_left _ ?A))) (skipn _ ?y) = Some _,
           Ha : assign_head _ _ _ = Some _ |- _ =>
             eapply (ola_carry_inv _ _ A y) in Ha;
             [ | | | | | | exact Hv];
             [ subst | try apply zeros_length; try eassumption
               | eassumption | assumption | try lia | try lia ]
         end.
    all: match goal with
         | |- exists n Hv, Some ?N = Some n /\ _ => exists N
         end.
    all: match goal with
         | Hv : vadd _ (skipn _ (cconv _ ?R)) = Some _ |- _ => exists R
         end.
    all: repeat split; try reflexivity; try assumption; try lia; intros;
      repeat match goal with
             | E : Some _ = Some _ |- _ => injection E as E; try subst
             end;
      repeat split;
      try (apply ola_carry_length;
           [first [reflexivity | apply zeros_length] | assumption | lia]);
      try reflexivity; try assumption; try lia.
Qed.

Lemma init_buffers_ok log2 mth b h part nrm s :
  init log2 mth b h part nrm = Ok s -> buffers_ok s /\ B s = b.
Proof.
  unfold init. intros Hi.
  destruct mth, part, h; try (injection Hi as <-; split;
    [unfold buffers_ok; cbn; intros; discriminate | reflexivity]).
  destruct (optimize_UPOLS_parameters log2 (length l) b); [|discriminate].
  injection Hi as <-. split; [|reflexivity].
  unfold buffers_ok. cbn. discriminate.
Qed.

Lemma process_buffers log2 strict s x hopt out s' :
  buffers_ok s -> 0 < B s -> length x = B s ->
  process log2 strict x hopt s = (Ok out, s') ->
  buffers_ok s' /\ B s' = B s.
Proof.
  intros Hok Hb Hx Hrun. destruct (method s) eqn:Hm.
  - destruct (OLS_buffers log2 strict s x hopt out s' Hok Hm Hb Hx Hrun)
      as (n & _ & _ & _ & _ & H1 & H2 & _). auto.
  - destruct (OLA_buffers log2 strict s x hopt out s' Hok Hm Hb Hrun)
      as (n & y & _ & _ & _ & _ & _ & H1 & H2 & _). auto.
  - destruct (UPOLS_buffers log2 strict s x hopt out s' Hok Hm Hb Hx Hrun)
      as (n & _ & _ & _ & _ & _ & _ & H1 & H2 & _). auto.
Qed.

Lemma reachable_buffers_ok log2 strict s :
  reachable log2 strict s -> buffers_ok s /\ 0 < B s.
Proof.
  induction 1 as [mth b h part nrm s Hb Hi | s x hopt out s' _ [IH1 IH2] Hx Hrun].
  - destruct (init_buffers_ok _ _ _ _ _ _ _ Hi) as [H1 H2]. split; [assumption | lia].
  - destruct (process_buffers log2 strict s x hopt out s' IH1 IH2 Hx Hrun) as [H1 H2].
    split; [assumption | lia].
Qed.


Lemma upols_engine_reachable : reachable ilog2 true upols_engine.
Proof.
  apply (reach_init ilog2 true UPOLS_m 2 (Some [1; 1; 1]%Q) (Some 2) false);
    [lia | reflexivity].
Qed.


(** The carry buffer of an OLA engine of [B = 1] for the impulse response
    [1, 1, 1]: after the block [1] it holds [1, 1, 0]; after the block [2]
    it has lost its first sample, taken a zero at its end and added the
    tail [2, 2] of the new block's convolution. *)
Example ola_carry_slides_by_B :
  match init ilog2 OLA_m 1 (Some [1; 1; 1]%Q) None false with
  | Ok s0 =>
      let s1 := snd (process ilog2 true [1]%Q None s0) in
      let s2 := snd (process ilog2 true [2]%Q None s1) in
      left_overs s1 = [1; 1; 0]%Q /\ left_overs s2 = [3; 2; 0]%Q
  | Raise _ => False
  end.
Proof. vm_compute. split; reflexivity. Qed.

(** ** A new impulse response *)




Lemma upols_engine_1_reachable : reachable ilog2 true upols_engine_1.
Proof.
  apply (reach_step ilog2 true upols_engine [1; 2]%Q None [Finite 1; Finite 3]).
  - exact upols_engine_reachable.
  - reflexivity.
  - vm_compute. reflexivity.
Qed.



(** OLS keeps the transform size of its first impulse response when a
    longer one arrives (numpy before 1.25, which compares the two): the
    five-sample impulse response is cropped to [NFFT = 3] samples. *)
Example ols_keeps_NFFT_for_longer_impulse_response :
  match init ilog2 OLS_m 2 (Some [1; 1]%Q) None false with
  | Ok s0 =>
      let s1 := snd (process ilog2 false [1; 2]%Q None s0) in
      let s2 := snd (process ilog2 false [3; 4]%Q (Some [1; 1; 1; 1; 1]%Q) s1) in
      NFFT s1 = Some 3 /\ NFFT s2 = Some 3 /\ H s2 = [[1; 1; 1]%Q]
  | Raise _ => False
  end.
Proof. vm_compute. repeat split. Qed.

(** From numpy 1.25 on the same call raises at the comparison and changes
    nothing. *)
Example longer_impulse_response_raises_on_strict_numpy :
  match init ilog2 OLS_m 2 (Some [1; 1]%Q) None false with
  | Ok s0 =>
      let s1 := snd (process ilog2 true [1; 2]%Q None s0) in
      process ilog2 true [3; 4]%Q (Some [1; 1; 1; 1; 1]%Q) s1
      = (Raise ValueError, s1)
  | Raise _ => False
  end.
Proof. vm_compute. reflexivity. Qed.

(** ** A block that does not fit the window *)



(** ** Sums and the amplitude of a convolution *)

Lemma sumQ_le {A : Type} (f g : A -> Q) (l : list A) :
  (forall k, In k l -> (f k <= g k)%Q) ->
  (sumQ (map f l) <= sumQ (map g l))%Q.
Proof.
  induction l as [|a l IH]; simpl; intros Hfg; [apply Qle_refl|].
  apply Qplus_le_compat; [apply Hfg; left; reflexivity|].
  apply IH. intros k Hk. apply Hfg. right. exact Hk.
Qed.

Lemma sumQ_plus {A : Type} (f g : A -> Q) (l : list A) :
  (sumQ (map f l) + sumQ (map g l)
   == sumQ (map (fun k => f k + g k) l))%Q.
Proof.
  induction l as [|a l IH]; simpl; [reflexivity|]. rewrite <- IH. ring.
Qed.

Lemma sumQ_abs {A : Type} (f : A -> Q) (l : list A) :
  (Qabs (sumQ (map f l)) <= sumQ (map (fun k => Qabs (f k)) l))%Q.
Proof.
  induction l as [|a l IH]; simpl; [apply Qle_refl|].
  eapply Qle_trans; [apply Qabs_triangle|].
  apply Qplus_le_compat; [apply Qle_refl | exact IH].
Qed.

Lemma nth_map_seq (f : nat -> Q) n i :
  i < n -> nth i (map f (seq 0 n)) 0%Q = f i.
Proof.
  intros Hi. rewrite (nth_indep _ 0%Q (f 0)) by (rewrite length_map, length_seq; lia).
  rewrite map_nth, seq_nth by lia. reflexivity.
Qed.

Lemma cconv_nth X Hv i :
  i < length X ->
  nth i (cconv X Hv) 0%Q
  = sumQ (map (fun k => (nth k Hv 0 * nth ((i + length X - k) mod length X) X 0)%Q)
              (seq 0 (length X))).
Proof.
  intros Hi. unfold cconv.
  exact (nth_map_seq
           (fun j => sumQ (map (fun k => (nth k Hv 0
                      * nth ((j + length X - k) mod length X) X 0)%Q)
                               (seq 0 (length X))))
           (length X) i Hi).
Qed.

Lemma unitQ_abs q : unitQ q <-> (Qabs q <= 1)%Q.
Proof. unfold unitQ. symmetry. apply Qabs_Qle_condition. Qed.

Lemma unitQ_zero : unitQ 0.
Proof. split; discriminate. Qed.

Lemma nth_unitQ l j : Forall unitQ l -> unitQ (nth j l 0%Q).
Proof.
  intros Hl. destruct (Nat.lt_ge_cases j (length l)) as [Hj|Hj].
  - eapply Forall_forall; [exact Hl | apply nth_In; exact Hj].
  - rewrite nth_overflow by assumption. apply unitQ_zero.
Qed.

Lemma nth_resize_beyond n x j :
  length x <= j -> nth j (resize n x) 0%Q = 0%Q.
Proof.
  intros Hj. unfold resize.
  rewrite app_nth2 by (rewrite length_firstn; lia).
  unfold zeros. apply nth_repeat.
Qed.

Lemma sum_nth_seq (f : Q -> Q) (l : list Q) :
  sumQ (map (fun k => f (nth k l 0%Q)) (seq 0 (length l))) = sumQ (map f l).
Proof.
  induction l as [|a l IH]; [reflexivity|].
  cbn [length seq map sumQ nth]. f_equal.
  rewrite <- seq_shift, map_map. cbn [nth]. exact IH.
Qed.

Lemma sumabs_nonneg l : (0 <= ref_of l)%Q.
Proof.
  unfold ref_of.
  induction l as [|q l IH]; cbn [map sumQ]; [apply Qle_refl|].
  apply (Qle_trans _ (0 + 0)); [discriminate|].
  apply Qplus_le_compat; [apply Qabs_nonneg | exact IH].
Qed.

(** A sample whose amplitude is within a positive reference is normalised
    into [[-1, 1]]. *)
Lemma fdiv_in_unit r a :
  (0 < r)%Q -> (Qabs a <= r)%Q -> in_unit (fdiv r a).
Proof.
  intros Hr Ha. unfold fdiv.
  destruct (Qeq_bool r 0) eqn:E.
  - apply Qeq_bool_iff in E. rewrite E in Hr. discriminate Hr.
  - apply Qabs_Qle_condition in Ha. destruct Ha as [H1 H2]. cbn. split.
    + apply Qle_shift_div_l; [assumption|]. lra.
    + apply Qle_shift_div_r; [assumption|]. lra.
Qed.

(** ** The configuration is fixed at construction *)

(** An assertion that no attribute assignment of the methods breaks is
    kept by every [process] call. *)
Lemma stable_process (I : FIR -> Prop) log2 strict x hopt :
  (forall v s, I s -> I (set_NFFT v s)) ->
  (forall v s, I s -> I (set_flagIRchanged v s)) ->
  (forall v s, I s -> I (set_stored_h v s)) ->
  (forall v s, I s -> I (set_ref v s)) ->
  (forall v s, I s -> I (set_N_ch v s)) ->
  (forall v s, I s -> I (set_left_overs v s)) ->
  (forall v s, I s -> I (set_len_y_left v s)) ->
  (forall v s, I s -> I (set_partition v s)) ->
  (forall v s, I s -> I (set_H v s)) ->
  (forall v s, I s -> I (set_OLS_input_buffer v s)) ->
  (forall v s, I s -> I (set_P v s)) ->
  (forall v s, I s -> I (set_input_buffer v s)) ->
  (forall v s, I s -> I (set_nm v s)) ->
  (forall v s, I s -> I (set_FDL v s)) ->
  stable I (process log2 strict x hopt).
Proof.
  intros.
  unfold process, generate_ref, dispatch, OLS, OLA, UPOLS, UPOLS_setup,
    fft_conv, np_fft, max_shape, finish, normalize_output.
  repeat first
    [ apply stable_fdl_products
    | match goal with
      | |- stable _ (upd _) => apply stable_upd; auto
      end
    | stable_step ].
Qed.

(** X1. No [process] call, whether it returns or raises, changes the
    method, the block size or the normalisation switch of the engine. *)
Theorem process_keeps_configuration
        (log2 : nat -> Q) (strict : bool) (x : list Q)
        (hopt : option (list Q)) (s : FIR) :
  same_configuration s (snd (process log2 strict x hopt s)).
Proof.
  pose proof (stable_process (same_configuration s) log2 strict x hopt) as Hst.
  unfold stable, hoare in Hst.
  specialize (fun a b c d e f g h i j k l m n =>
                Hst a b c d e f g h i j k l m n s).
  destruct (process log2 strict x hopt s) as [[o|e] s']; apply Hst;
    try (intros v t Ht; exact Ht); repeat split.
Qed.

(** ** The impulse-response argument *)

Lemma any_differs_Qeq h : forall g,
  Forall2 Qeq h g -> any_differs h g = false.
Proof.
  induction h as [|a h IH]; intros g Hg;
    inversion Hg as [|a' c h' g' Hac Hrest]; subst; [reflexivity|].
  cbn [any_differs]. unfold Qneqb.
  rewrite (proj2 (Qeq_bool_iff _ _) Hac). cbn [negb orb]. apply IH, Hrest.
Qed.

(** X2. An impulse response that equals the stored one sample by sample is
    no change: the call behaves, in its result and in the state it leaves,
    as the call without an impulse response. *)
Theorem same_impulse_response_is_no_change
        (log2 : nat -> Q) (strict : bool) (x h g : list Q) (s : FIR) :
  stored_h s = Some g -> Forall2 Qeq h g ->
  process log2 strict x (Some h) s = process log2 strict x None s.
Proof.
  intros Hs Hg. unfold process, bind, get. rewrite Hs.
  unfold ir_changed, comparable. rewrite (Forall2_length Hg), Nat.eqb_refl.
  cbn [orb negb]. rewrite andb_false_r.
  rewrite (any_differs_Qeq _ _ Hg). reflexivity.
Qed.

Lemma same_impulse_response_is_no_change_witness :
  process ilog2 true [3; 4]%Q (Some [1; 1]%Q) ola_engine_1
  = process ilog2 true [3; 4]%Q None ola_engine_1.
Proof.
  apply (same_impulse_response_is_no_change ilog2 true [3; 4]%Q [1; 1]%Q [1; 1]%Q).
  - reflexivity.
  - repeat constructor.
Defined.

(** X3. An engine constructed without an impulse response raises an
    [AttributeError] in a [process] call that brings none, whatever the
    method, and the call leaves the engine as it was. *)
Theorem no_impulse_response_raises
        (log2 : nat -> Q) (strict : bool) (mth : method_t) (b : nat)
        (part : option nat)
        (nrm : bool) (x : list Q) :
  exists s, init log2 mth b None part nrm = Ok s
    /\ process log2 strict x None s = (Raise AttributeError, s).
Proof.
  eexists. split.
  - unfold init. destruct mth, part; reflexivity.
  - destruct mth; reflexivity.
Qed.

(** ** The normalisation reference *)

Lemma Qabs_zero_inv q : (Qabs q == 0)%Q -> (q == 0)%Q.
Proof.
  intros E. apply Qle_antisym.
  - apply (Qle_trans _ (Qabs q)); [apply Qle_Qabs | rewrite E; apply Qle_refl].
  - assert (- q <= 0)%Q.
    { apply (Qle_trans _ (Qabs (- q))); [apply Qle_Qabs|].
      rewrite Qabs_opp, E. apply Qle_refl. }
    lra.
Qed.

(** X4. The reference is never negative, and it is zero exactly for an
    impulse response whose samples are all zero. *)
Theorem reference_zero_iff (h : list Q) :
  (0 <= ref_of h)%Q
  /\ ((ref_of h == 0)%Q <-> Forall (fun a => (a == 0)%Q) h).
Proof.
  split; [apply sumabs_nonneg|]. split; [|apply sumQ_abs_zero].
  unfold ref_of. induction h as [|a h IH]; cbn [map sumQ]; intros E;
    constructor.
  - apply Qabs_zero_inv. pose proof (Qabs_nonneg a) as Ha.
    pose proof (sumabs_nonneg h) as Hh. unfold ref_of in Hh.
    revert E Ha Hh. generalize (Qabs a), (sumQ (map Qabs h)).
    intros u v E H1 H2. lra.
  - apply IH. pose proof (Qabs_nonneg a) as Ha.
    pose proof (sumabs_nonneg h) as Hh. unfold ref_of in Hh.
    revert E Ha Hh. generalize (Qabs a), (sumQ (map Qabs h)).
    intros u v E H1 H2. lra.
Qed.

(** ** The optimizer returns a cheapest pair *)

Section OptimizerMinimum.

Variable log2 : nat -> Q.

Lemma scan_K_min b N C L K acc :
  acc_min log2 b N C acc ->
  acc_min log2 b N (C ++ [(L, K)]) (scan_K log2 b N L acc K).
Proof.
  unfold acc_min, scan_K. destruct acc as [[c|] [[L0 K0]|]]; cbn [fst];
    try contradiction.
  - intros [Ec Hmin]. unfold Qlt_bool.
    destruct (Qle_bool c (cost log2 b N L K)) eqn:E; cbn [negb].
    + split; [assumption|]. intros L' K' Hin. apply in_app_or in Hin.
      destruct Hin as [Hin|[Hin|[]]]; [apply Hmin, Hin|].
      injection Hin as <- <-. apply Qle_bool_iff, E.
    + assert (Hlt : (cost log2 b N L K < c)%Q).
      { apply Qnot_le_lt. intros Hle. apply Qle_bool_iff in Hle. congruence. }
      split; [reflexivity|]. intros L' K' Hin. apply in_app_or in Hin.
      destruct Hin as [Hin|[Hin|[]]].
      * apply Qlt_le_weak. eapply Qlt_le_trans; [exact Hlt | apply Hmin, Hin].
      * injection Hin as <- <-. apply Qle_refl.
  - intros ->. split; [reflexivity|]. intros L' K' [Hin|[]].
    injection Hin as <- <-. apply Qle_refl.
Qed.

Lemma fold_scan_K_min b N L Ks : forall C acc,
  acc_min log2 b N C acc ->
  acc_min log2 b N (C ++ map (pair L) Ks)
          (fold_left (scan_K log2 b N L) Ks acc).
Proof.
  induction Ks as [|K Ks IH]; intros C acc Hacc; cbn [fold_left map].
  - rewrite app_nil_r. exact Hacc.
  - replace (C ++ (L, K) :: map (pair L) Ks)
      with ((C ++ [(L, K)]) ++ map (pair L) Ks)
      by (rewrite <- app_assoc; reflexivity).
    apply IH, scan_K_min, Hacc.
Qed.

Lemma scan_L_min b N Ls : forall C acc acc',
  acc_min log2 b N C acc ->
  scan_L log2 b N Ls acc = Ok acc' ->
  acc_min log2 b N
          (C ++ flat_map (fun L => map (pair L) (K_range b L)) Ls) acc'.
Proof.
  induction Ls as [|L Ls IH]; intros C acc acc' Hacc Hrun;
    cbn [scan_L flat_map] in *.
  - injection Hrun as <-. rewrite app_nil_r. exact Hacc.
  - destruct (b =? 0); [discriminate|]. rewrite app_assoc.
    eapply IH; [|exact Hrun]. apply fold_scan_K_min, Hacc.
Qed.

End OptimizerMinimum.

(** X5. The pair that the optimizer returns has the least cost among the
    pairs the two loops visit, whatever values the logarithm of the cost
    model takes. *)
Theorem optimizer_returns_cheapest (log2 : nat -> Q) (N b L K : nat) :
  optimize_UPOLS_parameters log2 N b = Ok (L, K) ->
  forall L' K', In (L', K') (candidates N b) ->
    (cost log2 b N L K <= cost log2 b N L' K')%Q.
Proof.
  unfold optimize_UPOLS_parameters. intros Hrun.
  destruct (N =? 0); [discriminate|].
  destruct (scan_L log2 b N (rang N) (None, None)) as [acc|e] eqn:E;
    [|discriminate].
  apply (scan_L_min log2 b N (rang N) []) in E; [|reflexivity].
  cbn [app] in E. fold (candidates N b) in E.
  destruct acc as [c [LK|]]; [|discriminate]. injection Hrun as ->.
  unfold acc_min in E. destruct c as [c|]; [|contradiction].
  destruct E as [-> Hmin]. exact Hmin.
Qed.

Lemma optimizer_returns_cheapest_witness :
  optimize_UPOLS_parameters ilog2 8 4 = Ok (4, 7)
  /\ In (1, 8) (candidates 8 4)
  /\ (cost ilog2 4 8 4 7 <= cost ilog2 4 8 1 8)%Q.
Proof.
  split; [vm_compute; reflexivity|].
  split; [right; left; reflexivity|].
  apply (optimizer_returns_cheapest ilog2 8 4 4 7 eq_refl 1 8).
  right; left; reflexivity.
Defined.

(** ** The size of a returned block *)

Lemma OLS_out_length (log2 : nat -> Q) (strict : bool) s x hopt out s' :
  buffers_ok s -> method s = OLS_m -> 0 < B s -> length x = B s ->
  process log2 strict x hopt s = (Ok out, s') -> length out = B s.
Proof.
  intros Hok Hm Hb Hx Hrun.
  destruct s as [mth b n fl sh r c lo ly pt nr Hs ob p ib sl F].
  cbn in Hm, Hb, Hx. subst mth. unfold buffers_ok in Hok. cbn in Hok.
  fir_inv Hrun.
  all: injection Hrun as <- <-.
  all: cbn [B].
  all: slide_facts Hok.
  all: match goal with
       | Hm : spec_mul _ _ = Some _ |- _ =>
           apply spec_mul_inv in Hm; destruct Hm as [-> Hml];
           rewrite resize_length in Hml
       end.
  all: rewrite length_map; apply py_tail_length; [assumption|].
  all: rewrite cconv_length, resize_length.
  all: rewrite ?zeros_length in *; lia.
Qed.

Lemma OLA_out_length (log2 : nat -> Q) (strict : bool) s x hopt out s' :
  buffers_ok s -> method s = OLA_m -> 0 < B s ->
  process log2 strict x hopt s = (Ok out, s') -> length out = B s.
Proof.
  intros Hok Hm Hb Hrun.
  destruct s as [mth b n fl sh r c lo ly pt nr Hs ob p ib sl F].
  cbn in Hm, Hb. subst mth. unfold buffers_ok in Hok. cbn in Hok.
  fir_inv Hrun.
  all: injection Hrun as <- <-.
  all: cbn [B].
  all: match goal with
       | Hm : spec_mul _ _ = Some _ |- _ =>
           apply spec_mul_inv in Hm; destruct Hm as [-> Hml];
           rewrite resize_length in Hml
       end.
  all: try (destruct (Hok _ eq_refl) as (Hlo & Hbn & Hly); clear Hok).
  all: repeat match goal with
              | E : (_ =? 0) = false |- _ => apply Nat.eqb_neq in E
              end.
  all: rewrite length_map.
  all: match goal with
       | Hv : vadd (firstn ?b ?y) (firstn ?b ?lo) = Some ?l |- length ?l = _ =>
           apply vadd_same_length in Hv;
           [subst l; rewrite zip_add_length, !length_firstn
           | rewrite !length_firstn]
       end.
  all: rewrite ?zeros_length, ?cconv_length, ?resize_length in *; try lia.
Qed.

Lemma sum_rows_length n rows :
  Forall (fun r => length r = n) rows -> length (sum_rows n rows) = n.
Proof.
  unfold sum_rows. generalize (zeros_length n). generalize (zeros n).
  intros z Hz Hr. revert z Hz. induction Hr as [|r rows Hr _ IH]; intros z Hz;
    cbn [fold_left]; [assumption|].
  apply IH. rewrite zip_add_length. lia.
Qed.

Lemma fdl_rows_length n F : forall slots Hs ps,
  Forall (fun r => length r = n) F ->
  fdl_rows F slots Hs = Ok ps -> Forall (fun r => length r = n) ps.
Proof.
  induction slots as [|i slots IH]; intros [|Hm Hs] ps HF Hrun;
    cbn [fdl_rows] in Hrun; try discriminate.
  - injection Hrun as <-. constructor.
  - destruct (nth_error F i) as [X|] eqn:EX; [|discriminate].
    destruct (spec_mul X Hm) as [p|] eqn:Ep; [|discriminate].
    destruct (fdl_rows F slots Hs) as [ps'|] eqn:Eps; [|discriminate].
    injection Hrun as <-. constructor; [|eapply IH; eauto].
    apply spec_mul_inv in Ep. destruct Ep as [_ ->].
    apply nth_error_In in EX. rewrite Forall_forall in HF. apply HF, EX.
Qed.

Lemma UPOLS_out_length (log2 : nat -> Q) (strict : bool) s x hopt out s' :
  buffers_ok s -> method s = UPOLS_m -> 0 < B s -> length x = B s ->
  process log2 strict x hopt s = (Ok out, s') -> length out = B s.
Proof.
  intros Hok Hm Hb Hx Hrun.
  destruct (UPOLS_buffers log2 strict s x hopt out s' Hok Hm Hb Hx Hrun)
    as (n & Hn & Hbn & _ & _ & HF & _).
  destruct s as [mth b n0 fl sh r c lo ly pt nr Hs ob p ib sl F].
  cbn in Hm, Hb, Hx, Hbn. subst mth. clear Hok.
  fir_inv Hrun.
  all: injection Hrun as <- <-.
  all: cbn [B NFFT FDL] in *.
  all: rewrite length_map; apply py_tail_length; [assumption|].
  all: match goal with
       | E : fdl_rows _ _ _ = Ok _ |- _ =>
           apply (fdl_rows_length n) in E; [|assumption]
       end.
  all: try discriminate Hn.
  all: injection Hn as Hn; subst.
  all: rewrite sum_rows_length by assumption; assumption.
Qed.

(** X6. The output has the size of the block: on an engine in use, every
    [process] call that returns for a block of [B] samples returns [B]
    samples, with or without a new impulse response. *)
Theorem output_has_block_size
        (log2 : nat -> Q) (strict : bool) (s : FIR) (x : list Q)
        (hopt : option (list Q))
        (out : list fval) (s' : FIR) :
  reachable log2 strict s -> length x = B s ->
  process log2 strict x hopt s = (Ok out, s') -> length out = B s.
Proof.
  intros Hr Hx Hrun. destruct (reachable_buffers_ok log2 strict s Hr) as [Hok Hb].
  destruct (method s) eqn:Hm.
  - eapply OLS_out_length; eauto.
  - eapply OLA_out_length; eauto.
  - eapply UPOLS_out_length; eauto.
Qed.

Lemma output_has_block_size_witness :
  length [Finite 1; Finite 3] = B upols_engine.
Proof.
  apply (output_has_block_size ilog2 true upols_engine [1; 2]%Q None
           [Finite 1; Finite 3]
           (snd (process ilog2 true [1; 2]%Q None upols_engine))).
  - apply upols_engine_reachable.
  - reflexivity.
  - vm_compute. reflexivity.
Defined.

(** ** Streaming engines and the direct convolution *)

Lemma past_window_length n S : length (past_window n S) = n.
Proof.
  unfold past_window. rewrite length_skipn, length_app, zeros_length. lia.
Qed.

Lemma past_window_slide n b S x :
  b <= n -> length x = b ->
  skipn b (past_window n S) ++ x = past_window n (S ++ x).
Proof.
  intros Hle Hx. unfold past_window.
  rewrite skipn_skipn, length_app, app_assoc, Hx.
  rewrite (skipn_app (length S + b)).
  rewrite length_app, zeros_length.
  replace (length S + b - (n + length S)) with 0 by lia.
  rewrite (Nat.add_comm b). reflexivity.
Qed.

Lemma past_window_nth n S i :
  i < n ->
  nth i (past_window n S) 0%Q
  = if n <=? length S + i then nth (length S + i - n) S 0%Q else 0%Q.
Proof.
  intros Hi. unfold past_window. rewrite nth_skipn.
  destruct (Nat.leb_spec n (length S + i)) as [H|H].
  - rewrite app_nth2 by (rewrite zeros_length; lia).
    rewrite zeros_length. reflexivity.
  - rewrite app_nth1 by (rewrite zeros_length; lia).
    unfold zeros. apply nth_repeat.
Qed.

Section OLSRun.

Variable log2 : nat -> Q.
Variable strict : bool.
Variables (b : nat) (h : list Q) (part : option nat) (nrm : bool).
Hypothesis Hb : 0 < b.
Hypothesis Hh : 0 < length h.

(** The first call allocates the window and transforms the impulse
    response; the calls after it slide the window. *)
Lemma OLS_first_block x :
  length x = b ->
  process log2 strict x None
          (mkFIR OLS_m b None true (Some h) (Some (ref_of h)) 1 (zeros b) 0
                 part nrm [] [] 0 [] [] [])
  = (Ok (map (returned nrm h)
             (py_tail b (cconv (past_window (b + length h - 1) x)
                               (resize (b + length h - 1) h)))),
     ols_after b h part nrm x).
Proof.
  intros Hx. unfold ols_after.
  assert (En : (b + length h - 1 =? 0) = false)
    by (apply eqb_false_of_pos; lia).
  assert (Ebh : (b + length h =? 0) = false) by (apply eqb_false_of_pos; lia).
  assert (Ew : skipn b (zeros (b + length h - 1)) ++ x
               = past_window (b + length h - 1) x).
  { pose proof (past_window_slide (b + length h - 1) b [] x ltac:(lia) Hx) as E.
    cbn [app] in E. rewrite <- E. unfold past_window.
    cbn [length skipn]. rewrite app_nil_r. reflexivity. }
  fir_run. rewrite Ebh. fir_run.
  rewrite slide_window by (rewrite ?zeros_length; lia).
  fir_run. rewrite En. fir_run. rewrite Ew.
  rewrite (resize_id _ (past_window (b + length h - 1) x))
    by apply past_window_length.
  rewrite spec_mul_ok by (rewrite past_window_length, resize_length; reflexivity).
  fir_run. destruct nrm; reflexivity.
Qed.

Lemma OLS_next_block S x :
  length x = b ->
  process log2 strict x None (ols_after b h part nrm S)
  = (Ok (map (returned nrm h)
             (py_tail b (cconv (past_window (b + length h - 1) (S ++ x))
                               (resize (b + length h - 1) h)))),
     ols_after b h part nrm (S ++ x)).
Proof.
  intros Hx. unfold ols_after.
  assert (En : (b + length h - 1 =? 0) = false)
    by (apply eqb_false_of_pos; lia).
  fir_run.
  rewrite slide_window by (rewrite ?past_window_length; lia).
  fir_run. rewrite En. fir_run.
  rewrite past_window_slide by lia.
  rewrite (resize_id _ (past_window (b + length h - 1) (S ++ x)))
    by apply past_window_length.
  rewrite spec_mul_ok by (rewrite past_window_length, resize_length; reflexivity).
  fir_run. destruct nrm; reflexivity.
Qed.

End OLSRun.

Lemma sumQ_ext {A : Type} (f g : A -> Q) (l : list A) :
  (forall k, In k l -> (f k == g k)%Q) ->
  (sumQ (map f l) == sumQ (map g l))%Q.
Proof.
  induction l as [|a l IH]; cbn [map sumQ]; intros Hfg; [reflexivity|].
  rewrite (Hfg a) by (left; reflexivity).
  rewrite IH by (intros k Hk; apply Hfg; right; exact Hk). reflexivity.
Qed.

Lemma sumQ_app (l1 l2 : list Q) :
  (sumQ (l1 ++ l2) == sumQ l1 + sumQ l2)%Q.
Proof.
  induction l1 as [|a l1 IH]; cbn [app sumQ]; [ring|]. rewrite IH. ring.
Qed.

Lemma sumQ_zero {A : Type} (f : A -> Q) (l : list A) :
  (forall k, In k l -> (f k == 0)%Q) -> (sumQ (map f l) == 0)%Q.
Proof.
  induction l as [|a l IH]; cbn [map sumQ]; intros Hf; [reflexivity|].
  rewrite (Hf a) by (left; reflexivity).
  rewrite IH by (intros k Hk; apply Hf; right; exact Hk). reflexivity.
Qed.

(** A sum over [n] indices whose terms vanish from [m] on. *)
Lemma sumQ_seq_cut (f : nat -> Q) m n :
  m <= n -> (forall k, m <= k < n -> (f k == 0)%Q) ->
  (sumQ (map f (seq 0 n)) == sumQ (map f (seq 0 m)))%Q.
Proof.
  intros Hle Hf. replace n with (m + (n - m)) by lia.
  rewrite seq_app, map_app, sumQ_app.
  rewrite (sumQ_zero f (seq (0 + m) (n - m))).
  - ring.
  - intros k Hk. apply in_seq in Hk. apply Hf. lia.
Qed.

Lemma nth_resize_within n (x : list Q) k :
  k < n -> nth k (resize n x) 0%Q = nth k x 0%Q.
Proof.
  intros Hk. destruct (Nat.lt_ge_cases k (length x)) as [H|H].
  - unfold resize. rewrite app_nth1 by (rewrite length_firstn; lia).
    rewrite nth_firstn. destruct (Nat.ltb_spec k n); [reflexivity | lia].
  - rewrite nth_resize_beyond by assumption. symmetry. apply nth_overflow. assumption.
Qed.

Lemma mod_wrap_back i k n : k <= i -> i < n -> (i + n - k) mod n = i - k.
Proof.
  intros Hk Hi. replace (i + n - k) with ((i - k) + 1 * n) by lia.
  rewrite Nat.Div0.mod_add. apply Nat.mod_small. lia.
Qed.

(** The last [b] samples of the circular convolution of the window with
    the padded impulse response are samples of the linear convolution of
    the whole input: no tap wraps around into them. *)
Lemma ols_block_value b h S j :
  0 < b -> 0 < length h -> b <= length S -> j < b ->
  (nth j (py_tail b (cconv (past_window (b + length h - 1) S)
                           (resize (b + length h - 1) h))) 0
   == conv_at h S (length S - b + j))%Q.
Proof.
  intros Hb Hh HS Hj. set (n := b + length h - 1).
  unfold py_tail. rewrite tail_start_pos by assumption.
  rewrite cconv_length, past_window_length, nth_skipn.
  rewrite cconv_nth by (rewrite past_window_length; subst n; lia).
  rewrite past_window_length.
  rewrite (sumQ_seq_cut _ (length h) n).
  - unfold conv_at. apply sumQ_ext. intros k Hk. apply in_seq in Hk.
    rewrite nth_resize_within by (subst n; lia).
    rewrite mod_wrap_back by (subst n; lia).
    rewrite past_window_nth by (subst n; lia).
    destruct (Nat.leb_spec n (length S + (n - b + j - k)));
      destruct (Nat.leb_spec k (length S - b + j)); try (subst n; lia).
    + replace (length S + (n - b + j - k) - n) with (length S - b + j - k)
        by (subst n; lia). reflexivity.
    + reflexivity.
  - subst n; lia.
  - intros k Hk. rewrite nth_resize_beyond by lia. ring.
Qed.

Lemma returned_Qeq nrm h p q :
  (p == q)%Q -> fval_eq (returned nrm h p) (returned nrm h q).
Proof.
  intros E. unfold returned, fdiv. destruct nrm; [|exact E].
  destruct (Qeq_bool (ref_of h) 0); [exact I|]. cbn. rewrite E. reflexivity.
Qed.

(** Blocks of one length whose samples agree. *)
Lemma Forall2_returned nrm h (l : list Q) (f : nat -> Q) (start : nat) :
  (forall j, j < length l -> (nth j l 0 == f (start + j)%nat)%Q) ->
  Forall2 fval_eq (map (returned nrm h) l)
          (map (fun p => returned nrm h (f p)) (seq start (length l))).
Proof.
  revert start. induction l as [|a l IH]; intros start Hl; cbn [length seq map];
    constructor.
  - apply returned_Qeq. specialize (Hl 0 ltac:(cbn; lia)).
    rewrite Nat.add_0_r in Hl. exact Hl.
  - apply IH. intros j Hj. specialize (Hl (S j) ltac:(cbn; lia)).
    cbn [nth] in Hl. rewrite Nat.add_succ_r in Hl. exact Hl.
Qed.

(** A sample of the convolution depends on the input up to it. *)
Lemma conv_at_causal h A R p :
  p < length A -> conv_at h (A ++ R) p = conv_at h A p.
Proof.
  intros Hp. unfold conv_at. f_equal. apply map_ext_in. intros k Hk.
  destruct (k <=? p); [|reflexivity].
  rewrite app_nth1 by lia. reflexivity.
Qed.

Lemma firstn_seq_le n start len :
  n <= len -> firstn n (seq start len) = seq start n.
Proof.
  intros Hle. replace len with (n + (len - n)) by lia.
  rewrite seq_app, firstn_app, length_seq, Nat.sub_diag, firstn_O, app_nil_r.
  apply firstn_all2. rewrite length_seq. lia.
Qed.

Lemma convolve_firstn X h :
  0 < length h ->
  firstn (length X) (convolve X h) = map (conv_at h X) (seq 0 (length X)).
Proof.
  intros Hh. unfold convolve. fold (conv_at h X).
  rewrite firstn_map, firstn_seq_le by lia. reflexivity.
Qed.

Lemma Forall2_fval_eq_app a a' c c' :
  Forall2 fval_eq a a' -> Forall2 fval_eq c c' -> Forall2 fval_eq (a ++ c) (a' ++ c').
Proof. apply Forall2_app. Qed.

(** Blocks that continue the convolution, put after the block before
    them. *)
Lemma continues_cons nrm h b S x xs o outs :
  length x = b -> length o = b ->
  Forall2 fval_eq o
          (map (fun p => returned nrm h (conv_at h (S ++ x) p))
               (seq (length S) b)) ->
  continues_convolution nrm h b (S ++ x) xs outs ->
  continues_convolution nrm h b S (x :: xs) (o :: outs).
Proof.
  intros Hx Ho Hfirst [Hlen Hrest]. split; [constructor; assumption|].
  cbn [concat]. rewrite length_app, Hx, seq_app, map_app.
  apply Forall2_app.
  - erewrite map_ext_in; [exact Hfirst|]. intros p Hp. apply in_seq in Hp.
    cbn beta. rewrite app_assoc. rewrite conv_at_causal; [reflexivity|].
    rewrite length_app. lia.
  - rewrite length_app, Hx, <- app_assoc in Hrest. exact Hrest.
Qed.

Lemma continues_from_start nrm h b xs outs :
  0 < length h ->
  continues_convolution nrm h b [] xs outs ->
  streams_convolution nrm h b xs outs.
Proof.
  intros Hh [Hlen Hv]. split; [assumption|].
  rewrite convolve_firstn by assumption. rewrite map_map. exact Hv.
Qed.

Section OLSStream.

Variable log2 : nat -> Q.
Variable strict : bool.
Variables (b : nat) (h : list Q) (part : option nat) (nrm : bool).
Hypothesis Hb : 0 < b.
Hypothesis Hh : 0 < length h.

Lemma ols_block S :
  b <= length S ->
  Forall2 fval_eq
          (map (returned nrm h)
               (py_tail b (cconv (past_window (b + length h - 1) S)
                                 (resize (b + length h - 1) h))))
          (map (fun p => returned nrm h (conv_at h S p))
               (seq (length S - b) b)).
Proof.
  intros HS.
  pose proof (fun j => ols_block_value b h S j Hb Hh HS) as Hv.
  assert (Hl : length (py_tail b (cconv (past_window (b + length h - 1) S)
                                        (resize (b + length h - 1) h))) = b).
  { apply py_tail_length; [assumption|].
    rewrite cconv_length, past_window_length. lia. }
  revert Hv Hl.
  generalize (py_tail b (cconv (past_window (b + length h - 1) S)
                               (resize (b + length h - 1) h))).
  intros l Hv Hl. rewrite <- Hl at 2. apply Forall2_returned.
  rewrite Hl. exact Hv.
Qed.

Lemma OLS_stream xs : forall S,
  Forall (fun x => length x = b) xs ->
  exists outs,
    stream log2 strict xs (ols_after b h part nrm S)
    = (Ok outs, ols_after b h part nrm (S ++ concat xs))
    /\ continues_convolution nrm h b S xs outs.
Proof.
  induction xs as [|x xs IH]; intros S Hxs.
  - exists []. cbn [stream concat]. rewrite app_nil_r. split; [reflexivity|].
    split; constructor.
  - pose proof (Forall_inv Hxs) as Hx. cbn beta in Hx.
    pose proof (Forall_inv_tail Hxs) as Hxs'.
    destruct (IH (S ++ x) Hxs') as (outs & Hrun & Hc).
    eexists. cbn [stream]. unfold bind.
    rewrite (OLS_next_block log2 strict b h part nrm Hb Hh S x Hx).
    rewrite Hrun. unfold ret. cbn [concat]. rewrite app_assoc.
    split; [reflexivity|].
    apply continues_cons; try assumption; try reflexivity.
    + rewrite length_map. apply py_tail_length; [assumption|].
      rewrite cconv_length, past_window_length. lia.
    + pose proof (ols_block (S ++ x)) as Hblk.
      rewrite length_app in Hblk.
      replace (length S + length x - b) with (length S) in Hblk by lia.
      apply Hblk. lia.
Qed.

Lemma OLS_run xs :
  Forall (fun x => length x = b) xs ->
  exists outs,
    engine_run log2 strict OLS_m b (Some h) part nrm xs = Ok outs
    /\ continues_convolution nrm h b [] xs outs.
Proof.
  intros Hxs. unfold engine_run, init.
  destruct xs as [|x xs].
  - exists []. split; [reflexivity|]. split; constructor.
  - pose proof (Forall_inv Hxs) as Hx. cbn beta in Hx.
    pose proof (Forall_inv_tail Hxs) as Hxs'.
    destruct (OLS_stream xs x Hxs') as (outs & Hrun & Hc).
    eexists. cbn [stream]. unfold bind.
    rewrite (OLS_first_block log2 strict b h part nrm Hb Hh x Hx).
    rewrite Hrun. unfold ret. cbn [fst]. split; [reflexivity|].
    apply continues_cons; try assumption; try reflexivity.
    + rewrite length_map. apply py_tail_length; [assumption|].
      rewrite cconv_length, past_window_length. lia.
    + pose proof (ols_block x) as Hblk.
      rewrite Hx, Nat.sub_diag in Hblk. apply Hblk. lia.
Qed.

End OLSStream.

(** ** Normalised output within [[-1, 1]] *)

(** With input samples in [[-1, 1]], a sample of the convolution is within
    the reference. *)
Lemma conv_at_bound h S p :
  Forall unitQ S -> (Qabs (conv_at h S p) <= ref_of h)%Q.
Proof.
  intros HS. unfold conv_at. eapply Qle_trans; [apply sumQ_abs|].
  unfold ref_of. rewrite <- (sum_nth_seq Qabs h). apply sumQ_le.
  intros k _. rewrite Qabs_Qmult.
  rewrite <- (Qmult_1_r (Qabs (nth k h 0%Q))) at 2.
  apply Qmult_le_compat_nonneg.
  - split; [apply Qabs_nonneg | apply Qle_refl].
  - split; [apply Qabs_nonneg|]. apply (proj1 (unitQ_abs _)).
    destruct (k <=? p); [apply nth_unitQ, HS | apply unitQ_zero].
Qed.

Lemma in_unit_fval_eq a c : fval_eq a c -> in_unit c -> in_unit a.
Proof.
  destruct a as [p|], c as [q|]; cbn; try contradiction.
  intros E [H1 H2]. rewrite E. split; assumption.
Qed.

Lemma Forall2_in_unit l : forall l',
  Forall2 fval_eq l l' -> Forall in_unit l' -> Forall in_unit l.
Proof.
  induction l as [|a l IH]; intros l' H2 HF; [constructor|].
  inversion H2 as [|? c ? l'' Hac Hrest]; subst.
  inversion HF as [|? ? Hc HF']; subst.
  constructor; [eapply in_unit_fval_eq; eassumption | eapply IH; eassumption].
Qed.

(** Blocks that are the convolution divided by a positive reference, for
    input samples in [[-1, 1]]. *)
Lemma streams_convolution_in_unit h b xs outs :
  0 < length h -> (0 < ref_of h)%Q -> Forall (Forall unitQ) xs ->
  streams_convolution true h b xs outs ->
  Forall (Forall in_unit) outs.
Proof.
  intros Hh Hr Hxs [_ Hv]. apply Forall_concat.
  eapply Forall2_in_unit; [exact Hv|].
  rewrite convolve_firstn by assumption. rewrite map_map.
  apply Forall_map, Forall_forall. intros p _.
  apply fdiv_in_unit; [assumption|].
  apply conv_at_bound, Forall_concat, Hxs.
Qed.

Lemma vadd_ok a c : length a = length c -> vadd a c = Some (zip_add a c).
Proof. intros E. unfold vadd. rewrite E, Nat.eqb_refl. reflexivity. Qed.

Lemma zip_add_nth a : forall c i,
  i < length a -> i < length c ->
  nth i (zip_add a c) 0%Q = (nth i a 0 + nth i c 0)%Q.
Proof.
  induction a as [|p a IH]; intros [|q c] [|i] Ha Hc; cbn in *; try lia;
    [reflexivity|]. apply IH; lia.
Qed.

(** The carry update, forwards. *)
Lemma ola_carry_step n b (lo y : list Q) :
  length lo = n -> length y = n -> 0 < b -> b <= n ->
  exists sm,
    vadd (firstn (n - b) (zero_tail b (roll_left b lo))) (skipn b y) = Some sm
    /\ assign_head (n - b) (zero_tail b (roll_left b lo)) sm
       = Some (zip_add (skipn b lo) (skipn b y) ++ zeros b).
Proof.
  intros Hlo Hy Hb Hle. rewrite zero_tail_rolled by lia.
  assert (Hf : firstn (n - b) (skipn b lo ++ zeros b) = skipn b lo).
  { rewrite firstn_app, length_skipn, Hlo, Nat.sub_diag, firstn_O, app_nil_r.
    apply firstn_all2. rewrite length_skipn. lia. }
  rewrite Hf. eexists. split.
  - apply vadd_ok. rewrite !length_skipn. lia.
  - unfold assign_head. rewrite broadcast_to_exact.
    + f_equal. f_equal.
      rewrite skipn_app, length_skipn, Hlo, Nat.sub_diag.
      rewrite skipn_all2 by (rewrite length_skipn; lia). reflexivity.
    + rewrite zip_add_length, !length_skipn, length_app, length_skipn,
        zeros_length. lia.
Qed.

Section OLARun.

Variable log2 : nat -> Q.
Variable strict : bool.
Variables (b : nat) (h : list Q) (part : option nat) (nrm : bool).
Hypothesis Hb : 0 < b.
Hypothesis Hh : 0 < length h.
Hypothesis Hn : 2 < b + length h.

Lemma OLA_first_block x :
  process log2 strict x None
          (mkFIR OLA_m b None true (Some h) (Some (ref_of h)) 1 (zeros b) 0
                 part nrm [] [] 0 [] [] [])
  = (Ok (map (returned nrm h)
             (zip_add (firstn b (cconv (resize (b + length h - 1) x)
                                       (resize (b + length h - 1) h)))
                      (firstn b (zeros (b + length h - 1))))),
     ola_state b h part nrm
               (zip_add (skipn b (zeros (b + length h - 1)))
                        (skipn b (cconv (resize (b + length h - 1) x)
                                        (resize (b + length h - 1) h)))
                ++ zeros b)).
Proof.
  unfold ola_state.
  assert (En : (b + length h - 1 =? 0) = false)
    by (apply eqb_false_of_pos; lia).
  assert (En1 : (b + length h - 1 =? 1) = false) by (apply Nat.eqb_neq; lia).
  assert (Eh : (length h =? 0) = false) by (apply eqb_false_of_pos; lia).
  destruct (ola_carry_step (b + length h - 1) b (zeros (b + length h - 1))
              (cconv (resize (b + length h - 1) x) (resize (b + length h - 1) h)))
    as (sm & Hsm & Hlo); try lia;
    rewrite ?zeros_length, ?cconv_length, ?resize_length; try reflexivity.
  fir_run. rewrite Eh. fir_run. rewrite En. fir_run.
  rewrite spec_mul_ok by (rewrite !resize_length; reflexivity).
  fir_run. rewrite En1. fir_run.
  rewrite vadd_ok
    by (rewrite !length_firstn, cconv_length, resize_length, zeros_length; lia).
  fir_run. rewrite Hsm. fir_run. rewrite Hlo. fir_run.
  destruct nrm; reflexivity.
Qed.

Lemma OLA_next_block lo x :
  length lo = b + length h - 1 ->
  process log2 strict x None (ola_state b h part nrm lo)
  = (Ok (map (returned nrm h)
             (zip_add (firstn b (cconv (resize (b + length h - 1) x)
                                       (resize (b + length h - 1) h)))
                      (firstn b lo))),
     ola_state b h part nrm
               (zip_add (skipn b lo)
                        (skipn b (cconv (resize (b + length h - 1) x)
                                        (resize (b + length h - 1) h)))
                ++ zeros b)).
Proof.
  intros Hlo. unfold ola_state.
  assert (En : (b + length h - 1 =? 0) = false)
    by (apply eqb_false_of_pos; lia).
  assert (En1 : (b + length h - 1 =? 1) = false) by (apply Nat.eqb_neq; lia).
  destruct (ola_carry_step (b + length h - 1) b lo
              (cconv (resize (b + length h - 1) x) (resize (b + length h - 1) h)))
    as (sm & Hsm & Hlo'); try lia;
    rewrite ?cconv_length, ?resize_length; try reflexivity.
  fir_run. rewrite En. fir_run.
  rewrite spec_mul_ok by (rewrite !resize_length; reflexivity).
  fir_run. rewrite En1. fir_run.
  rewrite vadd_ok
    by (rewrite !length_firstn, cconv_length, resize_length, Hlo; lia).
  fir_run. rewrite Hsm. fir_run. rewrite Hlo'. fir_run.
  destruct nrm; reflexivity.
Qed.

End OLARun.

(** The circular convolution of a block and an impulse response, both
    padded to [b + Nh - 1] samples, is their linear convolution. *)
Lemma cconv_padded b h x i :
  0 < b -> 0 < length h -> length x = b -> i < b + length h - 1 ->
  (nth i (cconv (resize (b + length h - 1) x) (resize (b + length h - 1) h)) 0
   == conv_at h x i)%Q.
Proof.
  intros Hb Hh Hx Hi.
  rewrite cconv_nth by (rewrite resize_length; lia).
  rewrite resize_length.
  rewrite (sumQ_seq_cut _ (length h) (b + length h - 1)).
  - unfold conv_at. apply sumQ_ext. intros k Hk. apply in_seq in Hk.
    rewrite nth_resize_within by lia.
    destruct (Nat.leb_spec k i) as [Hki|Hki].
    + rewrite mod_wrap_back by lia.
      rewrite nth_resize_within by lia. reflexivity.
    + rewrite Nat.mod_small by lia.
      rewrite nth_resize_beyond by lia. reflexivity.
  - lia.
  - intros k Hk. rewrite nth_resize_beyond by lia. ring.
Qed.

Lemma nth_nil_Q i : nth i (@nil Q) 0%Q = 0%Q.
Proof. destruct i; reflexivity. Qed.

(** A returned sample: the convolution of the block, and what the input
    before it carries over. *)
Lemma ola_out_value h S x j :
  (conv_at h x j + carry_at h S j == conv_at h (S ++ x) (length S + j))%Q.
Proof.
  unfold conv_at, carry_at. rewrite sumQ_plus. apply sumQ_ext.
  intros k _. destruct (Nat.leb_spec k j) as [Hk|Hk].
  - replace (j <? k) with false by (symmetry; apply Nat.ltb_ge; lia).
    replace (k <=? length S + j) with true by (symmetry; apply Nat.leb_le; lia).
    cbn [andb]. rewrite app_nth2 by lia.
    replace (length S + j - k - length S) with (j - k) by lia. ring.
  - replace (j <? k) with true by (symmetry; apply Nat.ltb_lt; lia).
    cbn [andb]. destruct (Nat.leb_spec k (length S + j)).
    + rewrite app_nth1 by lia. ring.
    + ring.
Qed.

(** The carry moves on by a block. *)
Lemma carry_step h S x b i :
  length x = b ->
  (carry_at h S (b + i) + conv_at h x (b + i) == carry_at h (S ++ x) i)%Q.
Proof.
  intros Hx. unfold conv_at, carry_at. rewrite sumQ_plus. apply sumQ_ext.
  intros k _. rewrite length_app, Hx.
  replace (length S + b + i) with (length S + (b + i)) by lia.
  destruct (Nat.leb_spec k i) as [Hk|Hk].
  - replace (i <? k) with false by (symmetry; apply Nat.ltb_ge; lia).
    replace (b + i <? k) with false by (symmetry; apply Nat.ltb_ge; lia).
    replace (k <=? b + i) with true by (symmetry; apply Nat.leb_le; lia).
    cbn [andb]. rewrite (nth_overflow x) by lia. ring.
  - replace (i <? k) with true by (symmetry; apply Nat.ltb_lt; lia).
    cbn [andb]. destruct (Nat.leb_spec k (b + i)) as [Hk2|Hk2].
    + replace (b + i <? k) with false by (symmetry; apply Nat.ltb_ge; lia).
      replace (k <=? length S + (b + i)) with true
        by (symmetry; apply Nat.leb_le; lia).
      cbn [andb]. rewrite app_nth2 by lia.
      replace (length S + (b + i) - k - length S) with (b + i - k) by lia. ring.
    + replace (b + i <? k) with true by (symmetry; apply Nat.ltb_lt; lia).
      cbn [andb]. destruct (Nat.leb_spec k (length S + (b + i))).
      * rewrite app_nth1 by lia. ring.
      * ring.
Qed.

Lemma carry_beyond h S i : length h - 1 <= i -> (carry_at h S i == 0)%Q.
Proof.
  intros Hi. unfold carry_at. apply sumQ_zero. intros k Hk. apply in_seq in Hk.
  replace (i <? k) with false by (symmetry; apply Nat.ltb_ge; lia).
  cbn [andb]. ring.
Qed.

Lemma carries_init b h : carries b h [] (zeros (b + length h - 1)).
Proof.
  split; [apply zeros_length|]. intros i Hi.
  unfold zeros. rewrite nth_repeat. symmetry.
  unfold carry_at. apply sumQ_zero. intros k _. rewrite nth_nil_Q.
  destruct (_ && _); ring.
Qed.

Lemma carries_step b h S lo x :
  0 < b -> 0 < length h -> length x = b -> carries b h S lo ->
  carries b h (S ++ x)
          (zip_add (skipn b lo)
                   (skipn b (cconv (resize (b + length h - 1) x)
                                   (resize (b + length h - 1) h)))
           ++ zeros b).
Proof.
  intros Hb Hh Hx [Hlen Hlo]. split.
  - apply ola_carry_length; [assumption | | lia].
    rewrite cconv_length. apply resize_length.
  - intros i Hi.
    assert (Hz : length (zip_add (skipn b lo)
                   (skipn b (cconv (resize (b + length h - 1) x)
                                   (resize (b + length h - 1) h))))
                 = length h - 1).
    { rewrite zip_add_length, !length_skipn, cconv_length, resize_length. lia. }
    destruct (Nat.lt_ge_cases i (length h - 1)) as [Hlt|Hge].
    + rewrite app_nth1 by lia.
      rewrite zip_add_nth
        by (rewrite length_skipn, ?cconv_length, ?resize_length; lia).
      rewrite !nth_skipn.
      rewrite Hlo by lia. rewrite cconv_padded by (try assumption; lia).
      apply carry_step. assumption.
    + rewrite app_nth2 by lia. unfold zeros. rewrite nth_repeat.
      symmetry. apply carry_beyond. assumption.
Qed.

Lemma ola_block b h nrm S lo x :
  0 < b -> 0 < length h -> length x = b -> carries b h S lo ->
  Forall2 fval_eq
          (map (returned nrm h)
               (zip_add (firstn b (cconv (resize (b + length h - 1) x)
                                         (resize (b + length h - 1) h)))
                        (firstn b lo)))
          (map (fun p => returned nrm h (conv_at h (S ++ x) p))
               (seq (length S) b)).
Proof.
  intros Hb Hh Hx [Hlen Hlo].
  assert (Hv : forall j, j < b ->
            (nth j (zip_add (firstn b (cconv (resize (b + length h - 1) x)
                                             (resize (b + length h - 1) h)))
                            (firstn b lo)) 0
             == conv_at h (S ++ x) (length S + j))%Q).
  { intros j Hj.
    rewrite zip_add_nth
      by (rewrite length_firstn, ?cconv_length, ?resize_length; lia).
    rewrite !nth_firstn.
    replace (j <? b) with true by (symmetry; apply Nat.ltb_lt; lia).
    rewrite Hlo by lia. rewrite cconv_padded by (try assumption; lia).
    apply ola_out_value. }
  assert (Hl : length (zip_add (firstn b (cconv (resize (b + length h - 1) x)
                                                (resize (b + length h - 1) h)))
                               (firstn b lo)) = b).
  { rewrite zip_add_length, !length_firstn, cconv_length, resize_length. lia. }
  revert Hv Hl.
  generalize (zip_add (firstn b (cconv (resize (b + length h - 1) x)
                                       (resize (b + length h - 1) h)))
                      (firstn b lo)).
  intros l Hv Hl. rewrite <- Hl. apply Forall2_returned.
  rewrite Hl. exact Hv.
Qed.

Section OLAStream.

Variable log2 : nat -> Q.
Variable strict : bool.
Variables (b : nat) (h : list Q) (part : option nat) (nrm : bool).
Hypothesis Hb : 0 < b.
Hypothesis Hh : 0 < length h.
Hypothesis Hn : 2 < b + length h.

Lemma OLA_stream xs : forall S lo,
  Forall (fun x => length x = b) xs -> carries b h S lo ->
  exists outs lo',
    stream log2 strict xs (ola_state b h part nrm lo)
    = (Ok outs, ola_state b h part nrm lo')
    /\ carries b h (S ++ concat xs) lo'
    /\ continues_convolution nrm h b S xs outs.
Proof.
  induction xs as [|x xs IH]; intros S lo Hxs Hlo.
  - exists [], lo. cbn [stream concat]. rewrite app_nil_r.
    split; [reflexivity|]. split; [assumption|]. split; constructor.
  - pose proof (Forall_inv Hxs) as Hx. cbn beta in Hx.
    pose proof (Forall_inv_tail Hxs) as Hxs'.
    pose proof (carries_step b h S lo x Hb Hh Hx Hlo) as Hlo1.
    destruct (IH (S ++ x) _ Hxs' Hlo1) as (outs & lo' & Hrun & Hlo' & Hc).
    eexists. exists lo'. cbn [stream]. unfold bind.
    rewrite (OLA_next_block log2 strict b h part nrm Hb Hh Hn lo x (proj1 Hlo)).
    rewrite Hrun. unfold ret. cbn [concat]. rewrite app_assoc.
    split; [reflexivity|]. split; [assumption|].
    apply continues_cons; try assumption.
    + rewrite length_map, zip_add_length, !length_firstn, cconv_length,
        resize_length, (proj1 Hlo). lia.
    + apply ola_block; assumption.
Qed.

Lemma OLA_run xs :
  Forall (fun x => length x = b) xs ->
  exists outs,
    engine_run log2 strict OLA_m b (Some h) part nrm xs = Ok outs
    /\ continues_convolution nrm h b [] xs outs.
Proof.
  intros Hxs. unfold engine_run, init.
  destruct xs as [|x xs].
  - exists []. split; [reflexivity|]. split; constructor.
  - pose proof (Forall_inv Hxs) as Hx. cbn beta in Hx.
    pose proof (Forall_inv_tail Hxs) as Hxs'.
    pose proof (carries_init b h) as Hlo0.
    pose proof (carries_step b h [] _ x Hb Hh Hx Hlo0) as Hlo1.
    destruct (OLA_stream xs ([] ++ x) _ Hxs' Hlo1)
      as (outs & lo' & Hrun & _ & Hc).
    eexists. cbn [stream]. unfold bind.
    rewrite (OLA_first_block log2 strict b h part nrm Hb Hh Hn x).
    rewrite Hrun. unfold ret. cbn [fst]. split; [reflexivity|].
    apply continues_cons; try assumption.
    + rewrite length_map, zip_add_length, !length_firstn, cconv_length,
        resize_length, zeros_length. lia.
    + apply (ola_block b h nrm [] _ x Hb Hh Hx Hlo0).
Qed.

End OLAStream.

(** The remainder delay of a partition leaves room for the greatest common
    divisor of the partition length and the block size. *)
Lemma delay_bound b L m : 0 < b -> (m * L) mod b + Nat.gcd L b <= b.
Proof.
  intros Hb.
  destruct (Nat.gcd_divide_l L b) as [u Hu].
  destruct (Nat.gcd_divide_r L b) as [v Hv].
  remember (Nat.gcd L b) as g eqn:Eg. clear Eg.
  assert (Hg : 0 < g) by (destruct g; lia).
  assert (Hv0 : 0 < v) by (destruct v; lia).
  subst L b.
  replace (m * (u * g)) with (g * (m * u)) by lia.
  replace (v * g) with (g * v) by lia.
  rewrite Nat.Div0.mul_mod_distr_l.
  pose proof (Nat.mod_upper_bound (m * u) v ltac:(lia)). nia.
Qed.

Lemma ceil_div_covers Nh L : 0 < L -> Nh <= ceil_div Nh L * L.
Proof.
  intros HL. unfold ceil_div.
  pose proof (Nat.div_mod_eq (Nh + L - 1) L) as E.
  pose proof (Nat.mod_upper_bound (Nh + L - 1) L ltac:(lia)). nia.
Qed.

Lemma ceil_div_pos Nh L : 0 < L -> 0 < Nh -> 0 < ceil_div Nh L.
Proof.
  intros HL HN. pose proof (ceil_div_covers Nh L HL).
  destruct (ceil_div Nh L); lia.
Qed.

(** A filter row, sample by sample: the delay, then the partition. *)
Lemma h_row_nth h L b n m k :
  k < n ->
  nth k (h_row h L b n m) 0%Q
  = if ((m * L) mod b <=? k) && (k <? (m * L) mod b + L)
    then nth (m * L + (k - (m * L) mod b)) h 0%Q else 0%Q.
Proof.
  intros Hk. unfold h_row, pad_beginning. rewrite nth_resize_within by assumption.
  destruct (Nat.leb_spec ((m * L) mod b) k) as [H1|H1]; cbn [andb].
  - rewrite app_nth2 by (rewrite zeros_length; lia). rewrite zeros_length.
    rewrite nth_firstn.
    destruct (Nat.ltb_spec (k - (m * L) mod b) L);
      destruct (Nat.ltb_spec k ((m * L) mod b + L)); try lia; [|reflexivity].
    rewrite nth_skipn. reflexivity.
  - rewrite app_nth1 by (rewrite zeros_length; lia).
    unfold zeros. apply nth_repeat.
Qed.

Lemma map_seq_shift (f : nat -> Q) a n :
  map f (seq a n) = map (fun i => f (a + i)) (seq 0 n).
Proof.
  revert a. induction n as [|n IH]; intros a; cbn [seq map]; [reflexivity|].
  rewrite Nat.add_0_r. f_equal. rewrite IH. rewrite <- seq_shift, map_map.
  apply map_ext. intros i. f_equal. lia.
Qed.

(** A sum whose terms vanish outside [[d, d + L)]. *)
Lemma sumQ_seq_window (f : nat -> Q) d L n :
  d + L <= n ->
  (forall k, k < n -> ~ (d <= k < d + L) -> (f k == 0)%Q) ->
  (sumQ (map f (seq 0 n)) == sumQ (map (fun k' => f (d + k')%nat) (seq 0 L)))%Q.
Proof.
  intros Hle Hf. replace n with (d + (L + (n - d - L))) by lia.
  rewrite seq_app, map_app, sumQ_app. cbn [Nat.add].
  rewrite seq_app, map_app, sumQ_app.
  rewrite (sumQ_zero f (seq 0 d)) by (intros k Hk; apply in_seq in Hk; apply Hf; lia).
  rewrite (sumQ_zero f (seq (d + L) (n - d - L)))
    by (intros k Hk; apply in_seq in Hk; apply Hf; lia).
  rewrite (map_seq_shift f d L). ring.
Qed.

(** Sample [i] of the product of a window with a filter row, when no tap
    of the row wraps around: the partition against the window, delayed. *)
Lemma row_product_nth h L b n m W i :
  length W = n -> (m * L) mod b + L <= i + 1 -> i < n ->
  (nth i (cconv W (h_row h L b n m)) 0
   == sumQ (map (fun k' => nth (m * L + k')%nat h 0
                           * nth (i - (m * L) mod b - k')%nat W 0)
                (seq 0 L)))%Q.
Proof.
  intros HW Hd Hi. rewrite cconv_nth by lia. rewrite HW.
  rewrite (sumQ_seq_window _ ((m * L) mod b) L n).
  - apply sumQ_ext. intros k' Hk'. apply in_seq in Hk'.
    rewrite h_row_nth by lia.
    replace ((m * L) mod b <=? (m * L) mod b + k') with true
      by (symmetry; apply Nat.leb_le; lia).
    replace ((m * L) mod b + k' <? (m * L) mod b + L) with true
      by (symmetry; apply Nat.ltb_lt; lia).
    cbn [andb]. rewrite mod_wrap_back by lia.
    replace ((m * L) mod b + k' - (m * L) mod b) with k' by lia.
    replace (i - ((m * L) mod b + k')) with (i - (m * L) mod b - k') by lia.
    reflexivity.
  - lia.
  - intros k Hk Hout. rewrite h_row_nth by lia.
    destruct (Nat.leb_spec ((m * L) mod b) k);
      destruct (Nat.ltb_spec k ((m * L) mod b + L)); cbn [andb]; try lia; ring.
Qed.

(** The window of [r] blocks ago, against the input as a whole. *)
Lemma delayed_window_nth n b S r i :
  i < n ->
  nth i (past_window n (firstn (length S - r * b) S)) 0%Q
  = if (n + r * b <=? length S + i)
    then nth (length S + i - r * b - n) S 0%Q else 0%Q.
Proof.
  intros Hi. rewrite past_window_nth by assumption.
  rewrite length_firstn.
  replace (Nat.min (length S - r * b) (length S)) with (length S - r * b) by lia.
  destruct (Nat.leb_spec n (length S - r * b + i));
    destruct (Nat.leb_spec (n + r * b) (length S + i)); try lia.
  - rewrite nth_firstn.
    replace (length S - r * b + i - n <? length S - r * b) with true
      by (symmetry; apply Nat.ltb_lt; lia).
    f_equal. lia.
  - reflexivity.
Qed.

(** One partition's share of an output sample. *)
Lemma partition_share b h L S m j :
  0 < b -> 0 < L -> b <= length S -> j < b ->
  (nth (upols_nfft b L - b + j)%nat
       (cconv (past_window (upols_nfft b L)
                           (firstn (length S - (m * L / b) * b)%nat S))
              (h_row h L b (upols_nfft b L) m)) 0
   == sumQ (map (fun k' =>
                   nth (m * L + k')%nat h 0
                   * (if (m * L + k' <=? length S - b + j)%nat
                      then nth (length S - b + j - (m * L + k'))%nat S 0
                      else 0))
                (seq 0 L)))%Q.
Proof.
  intros Hb HL HS Hj.
  pose proof (delay_bound b L m Hb) as Hd.
  pose proof (Nat.div_mod_eq (m * L) b) as Hdm.
  rewrite upols_nfft_pos by assumption.
  set (n := b + L + (b - Nat.gcd L b)).
  assert (Hg : Nat.gcd L b <= b).
  { destruct (Nat.gcd_divide_r L b) as [v Hv]. destruct v; nia. }
  rewrite row_product_nth by (rewrite ?past_window_length; subst n; lia).
  apply sumQ_ext. intros k' Hk'. apply in_seq in Hk'.
  rewrite delayed_window_nth by (subst n; lia).
  destruct (Nat.leb_spec (n + m * L / b * b)
                         (length S + (n - b + j - (m * L) mod b - k')));
    destruct (Nat.leb_spec (m * L + k') (length S - b + j));
    try (subst n; nia).
  - replace (length S + (n - b + j - (m * L) mod b - k') - m * L / b * b - n)
      with (length S - b + j - (m * L + k')) by (subst n; nia).
    reflexivity.
  - reflexivity.
Qed.

Lemma fold_zip_add_nth n i rows : forall z,
  length z = n -> Forall (fun r => length r = n) rows -> i < n ->
  (nth i (fold_left zip_add rows z) 0
   == nth i z 0 + sumQ (map (fun r => nth i r 0) rows))%Q.
Proof.
  induction rows as [|r rows IH]; intros z Hz Hr Hi; cbn [fold_left map sumQ].
  - ring.
  - pose proof (Forall_inv Hr) as Hr0. cbn beta in Hr0.
    rewrite IH; [|rewrite zip_add_length; lia | exact (Forall_inv_tail Hr) | exact Hi].
    rewrite zip_add_nth by lia. ring.
Qed.

(** A sample of the sum of the rows is the sum of their samples. *)
Lemma sum_rows_nth n i rows :
  Forall (fun r => length r = n) rows -> i < n ->
  (nth i (sum_rows n rows) 0 == sumQ (map (fun r => nth i r 0) rows))%Q.
Proof.
  intros Hr Hi. unfold sum_rows.
  rewrite (fold_zip_add_nth n) by (try apply zeros_length; assumption).
  unfold zeros. rewrite nth_repeat. ring.
Qed.

(** The partitions of [L] taps each, one after the other, are the taps. *)
Lemma sumQ_partitions (f : nat -> Q) L P :
  (sumQ (map (fun m => sumQ (map (fun k' => f (m * L + k')%nat) (seq 0 L)))
             (seq 0 P))
   == sumQ (map f (seq 0 (P * L))))%Q.
Proof.
  induction P as [|P IH].
  - reflexivity.
  - rewrite seq_S, map_app, sumQ_app, IH. cbn [map sumQ Nat.add].
    replace (S P * L) with (P * L + L) by lia.
    rewrite seq_app, map_app, sumQ_app. cbn [Nat.add].
    rewrite (map_seq_shift f (P * L) L). ring.
Qed.

(** The last [b] samples of the sum of the row products are samples of the
    convolution of the whole input with the whole impulse response. *)
Lemma upols_block_value b h L S j :
  0 < b -> 0 < L -> b <= length S -> j < b ->
  (nth j (py_tail b
            (sum_rows (upols_nfft b L)
               (map (fun m =>
                       cconv (past_window (upols_nfft b L)
                                (firstn (length S - (m * L / b) * b) S))
                             (h_row h L b (upols_nfft b L) m))
                    (seq 0 (ceil_div (length h) L))))) 0
   == conv_at h S (length S - b + j))%Q.
Proof.
  intros Hb HL HS Hj.
  assert (Hn : b <= upols_nfft b L) by (rewrite upols_nfft_pos by assumption; lia).
  assert (Hrows : Forall (fun r => length r = upols_nfft b L)
            (map (fun m =>
                    cconv (past_window (upols_nfft b L)
                             (firstn (length S - (m * L / b) * b) S))
                          (h_row h L b (upols_nfft b L) m))
                 (seq 0 (ceil_div (length h) L)))).
  { apply Forall_forall. intros r Hr. apply in_map_iff in Hr.
    destruct Hr as (m & <- & _). rewrite cconv_length. apply past_window_length. }
  unfold py_tail. rewrite tail_start_pos by assumption.
  rewrite sum_rows_length by assumption. rewrite nth_skipn.
  rewrite sum_rows_nth by (try assumption; lia).
  rewrite map_map.
  rewrite (sumQ_ext _ _ _ (fun m _ => partition_share b h L S m j Hb HL HS Hj)).
  rewrite (sumQ_partitions
             (fun k => nth k h 0
                       * (if k <=? length S - b + j
                          then nth (length S - b + j - k) S 0 else 0))%Q).
  unfold conv_at. apply sumQ_seq_cut.
  - apply ceil_div_covers. assumption.
  - intros k Hk. rewrite (nth_overflow h) by lia. ring.
Qed.

Lemma past_window_nil n : past_window n [] = zeros n.
Proof. unfold past_window. cbn [length skipn]. apply app_nil_r. Qed.

Lemma delay_line_nil b n R : delay_line b n R [] = repeat (zeros n) R.
Proof.
  unfold delay_line. generalize 0. induction R as [|R IH]; intros a;
    cbn [seq map repeat]; [reflexivity|].
  rewrite IH. cbn [length Nat.sub firstn]. rewrite ?firstn_nil.
  rewrite past_window_nil. reflexivity.
Qed.

Lemma roll_rows_step {A : Type} (F : list A) :
  F <> [] -> exists r, roll_rows F = r :: removelast F.
Proof.
  intros HF. unfold roll_rows.
  destruct (rev F) as [|r front] eqn:E.
  - apply (f_equal (@rev A)) in E. rewrite rev_involutive in E. contradiction.
  - exists r. apply (f_equal (@rev A)) in E. rewrite rev_involutive in E.
    subst F. cbn [rev]. rewrite removelast_last. reflexivity.
Qed.

(** The delay line moves down by one row and takes the new window. *)
Lemma delay_line_step b n R S x :
  0 < R -> length x = b ->
  past_window n (S ++ x) :: removelast (delay_line b n R S)
  = delay_line b n R (S ++ x).
Proof.
  intros HR Hx. destruct R as [|R]; [lia|]. unfold delay_line.
  rewrite (seq_S R 0) at 1. rewrite map_app. cbn [map].
  rewrite removelast_last. cbn [seq map]. f_equal.
  - cbn [Nat.mul]. rewrite Nat.sub_0_r, firstn_all. reflexivity.
  - rewrite <- seq_shift, map_map. apply map_ext. intros r.
    rewrite length_app, Hx.
    replace (length S + b - Datatypes.S r * b) with (length S - r * b) by lia.
    rewrite firstn_app.
    replace (length S - r * b - length S) with 0 by lia.
    cbn [firstn]. rewrite app_nil_r. reflexivity.
Qed.

Lemma delay_line_row b n R S r :
  r < R ->
  nth_error (delay_line b n R S) r
  = Some (past_window n (firstn (length S - r * b) S)).
Proof.
  intros Hr. unfold delay_line.
  rewrite nth_error_map, nth_error_nth' with (d := 0) by (rewrite length_seq; lia).
  rewrite seq_nth by lia. reflexivity.
Qed.

Lemma slot_in_delay_line b L Nh m :
  In m (seq 0 (ceil_div Nh L)) ->
  m * L / b < list_max (upols_slots b L Nh) + 1.
Proof.
  intros Hm.
  pose proof (proj1 (list_max_le (upols_slots b L Nh)
                                 (list_max (upols_slots b L Nh)))
                    (Nat.le_refl _)) as HF.
  rewrite Forall_forall in HF.
  specialize (HF (m * L / b)). unfold upols_slots in HF at 1.
  assert (m * L / b <= list_max (upols_slots b L Nh)).
  { apply HF. apply in_map_iff. exists m. split; [reflexivity | assumption]. }
  lia.
Qed.

(** The rows [FDL[nm, :] * H] of an engine after its setup. *)
Lemma fdl_rows_delay_line b h L S :
  fdl_rows (delay_line b (upols_nfft b L)
                       (list_max (upols_slots b L (length h)) + 1) S)
           (upols_slots b L (length h))
           (map (h_row h L b (upols_nfft b L)) (seq 0 (ceil_div (length h) L)))
  = Ok (map (fun m =>
               cconv (past_window (upols_nfft b L)
                        (firstn (length S - (m * L / b) * b) S))
                     (h_row h L b (upols_nfft b L) m))
            (seq 0 (ceil_div (length h) L))).
Proof.
  unfold upols_slots at 2.
  assert (Hin : forall m, In m (seq 0 (ceil_div (length h) L)) ->
            In m (seq 0 (ceil_div (length h) L))) by auto.
  revert Hin. generalize (seq 0 (ceil_div (length h) L)) at 1 3 4 5.
  intros ms. induction ms as [|m ms IH]; intros Hin; cbn [map fdl_rows];
    [reflexivity|].
  rewrite delay_line_row by (apply slot_in_delay_line, Hin; left; reflexivity).
  rewrite spec_mul_ok by (rewrite past_window_length, h_row_length; reflexivity).
  rewrite IH by (intros m' Hm'; apply Hin; right; exact Hm').
  reflexivity.
Qed.

Section UPOLSRun.

Variable log2 : nat -> Q.
Variable strict : bool.
Variables (b : nat) (h : list Q) (L : nat) (nrm : bool).
Hypothesis Hb : 0 < b.
Hypothesis Hh : 0 < length h.
Hypothesis HL : 0 < L.

(** The setup, from an engine as constructed (whatever transform size the
    constructor stored). *)
Lemma UPOLS_setup_run n0 :
  UPOLS_setup log2 (Some h)
              (mkFIR UPOLS_m b n0 true (Some h) (Some (ref_of h)) 1 (zeros b) 0
                     (Some L) nrm [] [] 0 [] [] [])
  = (Ok tt, upols_after b h L nrm []).
Proof.
  assert (EL : (L =? 0) = false) by (apply eqb_false_of_pos; lia).
  assert (Eb : (b =? 0) = false) by (apply eqb_false_of_pos; lia).
  assert (En : (upols_nfft b L =? 0) = false)
    by (apply eqb_false_of_pos; rewrite upols_nfft_pos by assumption; lia).
  assert (EP : (ceil_div (length h) L =? 0) = false)
    by (apply eqb_false_of_pos, ceil_div_pos; assumption).
  unfold upols_after. rewrite past_window_nil, delay_line_nil.
  fir_run. rewrite EL. fir_run. rewrite En, Eb, !andb_false_r. fir_run.
  rewrite length_map, length_seq, EP. fir_run.
  reflexivity.
Qed.

(** A call whose setup has run continues as the call on the state the
    setup left. *)
Lemma UPOLS_after_setup x hopt hopt' s s1 :
  flagIRchanged s = true -> UPOLS_setup log2 hopt s = (Ok tt, s1) ->
  flagIRchanged s1 = false ->
  UPOLS log2 x hopt s = UPOLS log2 x hopt' s1.
Proof.
  intros Hf Hs Hf1. unfold UPOLS, bind, get. rewrite Hf, Hs, Hf1. reflexivity.
Qed.

Lemma UPOLS_next_block S x :
  length x = b ->
  process log2 strict x None (upols_after b h L nrm S)
  = (Ok (map (returned nrm h)
             (py_tail b
                (sum_rows (upols_nfft b L)
                   (map (fun m =>
                           cconv (past_window (upols_nfft b L)
                                    (firstn (length (S ++ x) - (m * L / b) * b)
                                            (S ++ x)))
                                 (h_row h L b (upols_nfft b L) m))
                        (seq 0 (ceil_div (length h) L)))))),
     upols_after b h L nrm (S ++ x)).
Proof.
  intros Hx. unfold upols_after.
  assert (Hn : b <= upols_nfft b L)
    by (rewrite upols_nfft_pos by assumption; lia).
  assert (En : (upols_nfft b L =? 0) = false)
    by (apply eqb_false_of_pos; lia).
  destruct (roll_rows_step
              (delay_line b (upols_nfft b L)
                          (list_max (upols_slots b L (length h)) + 1) S))
    as [r Hroll].
  { unfold delay_line. rewrite Nat.add_1_r. discriminate. }
  fir_run.
  rewrite slide_window by (rewrite ?past_window_length; lia).
  fir_run. rewrite past_window_slide by lia.
  rewrite past_window_length, En. fir_run.
  rewrite Hroll. fir_run.
  rewrite (resize_id _ (past_window (upols_nfft b L) (S ++ x)))
    by apply past_window_length.
  rewrite delay_line_step by (try assumption; lia).
  rewrite fdl_products_eq, fdl_rows_delay_line. fir_run.
  destruct nrm; reflexivity.
Qed.

Lemma UPOLS_first_block n0 x :
  length x = b ->
  process log2 strict x None
          (mkFIR UPOLS_m b n0 true (Some h) (Some (ref_of h)) 1 (zeros b) 0
                 (Some L) nrm [] [] 0 [] [] [])
  = process log2 strict x None (upols_after b h L nrm []).
Proof.
  intros Hx.
  change (UPOLS log2 x (Some h)
            (mkFIR UPOLS_m b n0 true (Some h) (Some (ref_of h)) 1
                   (zeros b) 0 (Some L) nrm [] [] 0 [] [] [])
          = UPOLS log2 x (Some h) (upols_after b h L nrm [])).
  apply UPOLS_after_setup; [reflexivity | apply UPOLS_setup_run | reflexivity].
Qed.

End UPOLSRun.

Section UPOLSStream.

Variable log2 : nat -> Q.
Variable strict : bool.
Variables (b : nat) (h : list Q) (L : nat) (nrm : bool).
Hypothesis Hb : 0 < b.
Hypothesis Hh : 0 < length h.
Hypothesis HL : 0 < L.

Lemma upols_block S :
  b <= length S ->
  Forall2 fval_eq
          (map (returned nrm h)
               (py_tail b
                  (sum_rows (upols_nfft b L)
                     (map (fun m =>
                             cconv (past_window (upols_nfft b L)
                                      (firstn (length S - (m * L / b) * b) S))
                                   (h_row h L b (upols_nfft b L) m))
                          (seq 0 (ceil_div (length h) L))))))
          (map (fun p => returned nrm h (conv_at h S p))
               (seq (length S - b) b)).
Proof.
  intros HS.
  pose proof (fun j => upols_block_value b h L S j Hb HL HS) as Hv.
  assert (Hl : length (py_tail b
                  (sum_rows (upols_nfft b L)
                     (map (fun m =>
                             cconv (past_window (upols_nfft b L)
                                      (firstn (length S - (m * L / b) * b) S))
                                   (h_row h L b (upols_nfft b L) m))
                          (seq 0 (ceil_div (length h) L))))) = b).
  { apply py_tail_length; [assumption|]. rewrite sum_rows_length.
    - rewrite upols_nfft_pos by assumption. lia.
    - apply Forall_forall. intros r Hr. apply in_map_iff in Hr.
      destruct Hr as (m & <- & _). rewrite cconv_length.
      apply past_window_length. }
  revert Hv Hl.
  generalize (py_tail b
                  (sum_rows (upols_nfft b L)
                     (map (fun m =>
                             cconv (past_window (upols_nfft b L)
                                      (firstn (length S - (m * L / b) * b) S))
                                   (h_row h L b (upols_nfft b L) m))
                          (seq 0 (ceil_div (length h) L))))).
  intros l Hv Hl. rewrite <- Hl at 2. apply Forall2_returned.
  rewrite Hl. exact Hv.
Qed.

Lemma UPOLS_stream xs : forall S,
  Forall (fun x => length x = b) xs ->
  exists outs,
    stream log2 strict xs (upols_after b h L nrm S)
    = (Ok outs, upols_after b h L nrm (S ++ concat xs))
    /\ continues_convolution nrm h b S xs outs.
Proof.
  induction xs as [|x xs IH]; intros S Hxs.
  - exists []. cbn [stream concat]. rewrite app_nil_r. split; [reflexivity|].
    split; constructor.
  - pose proof (Forall_inv Hxs) as Hx. cbn beta in Hx.
    pose proof (Forall_inv_tail Hxs) as Hxs'.
    destruct (IH (S ++ x) Hxs') as (outs & Hrun & Hc).
    pose proof (upols_block (S ++ x)) as Hblk.
    rewrite length_app in Hblk.
    replace (length S + length x - b) with (length S) in Hblk by lia.
    specialize (Hblk ltac:(lia)). rewrite <- length_app in Hblk.
    eexists. cbn [stream]. unfold bind.
    rewrite (UPOLS_next_block log2 strict b h L nrm Hb Hh HL S x Hx).
    rewrite Hrun. unfold ret. cbn [concat]. rewrite app_assoc.
    split; [reflexivity|].
    apply continues_cons; try assumption.
    rewrite (Forall2_length Hblk), length_map, length_seq. reflexivity.
Qed.

(** The first call runs the setup; the stream is the one of the engine
    after its setup. *)
Lemma UPOLS_stream_start n0 xs :
  Forall (fun x => length x = b) xs ->
  exists outs,
    fst (stream log2 strict xs
           (mkFIR UPOLS_m b n0 true (Some h) (Some (ref_of h)) 1 (zeros b) 0
                  (Some L) nrm [] [] 0 [] [] []))
    = Ok outs
    /\ continues_convolution nrm h b [] xs outs.
Proof.
  intros Hxs. destruct xs as [|x xs].
  - exists []. split; [reflexivity|]. split; constructor.
  - destruct (UPOLS_stream (x :: xs) [] Hxs) as (outs & Hrun & Hc).
    exists outs. split; [|exact Hc].
    cbn [stream] in *. unfold bind in *.
    rewrite (UPOLS_first_block log2 strict b h L nrm Hb Hh HL n0 x
               (Forall_inv Hxs)).
    rewrite Hrun. reflexivity.
Qed.

End UPOLSStream.

(** A UPOLS engine with a given partition length, or with the one the
    optimizer chooses. *)
Lemma UPOLS_run log2 strict b h part nrm xs :
  0 < b ->
  match part with
  | Some L => 0 < L /\ 0 < length h
  | None => 2 <= length h
  end ->
  Forall (fun x => length x = b) xs ->
  exists outs,
    engine_run log2 strict UPOLS_m b (Some h) part nrm xs = Ok outs
    /\ continues_convolution nrm h b [] xs outs.
Proof.
  intros Hb Hp Hxs. unfold engine_run, init. destruct part as [L|].
  - destruct Hp as [HL Hh]. apply UPOLS_stream_start; assumption.
  - destruct (optimize_in_candidates log2 (length h) b Hp Hb)
      as (L & K & -> & Hin).
    apply candidates_spec in Hin. destruct Hin as [HLr _].
    destruct (rang_spec _ _ HLr) as (k & -> & _).
    cbn [fst snd]. unfold set_NFFT, set_partition. cbn.
    apply UPOLS_stream_start; try assumption; try lia.
    pose proof (Nat.pow_nonzero 2 k). lia.
Qed.

(** ** The three methods compute the direct convolution *)

(** X7. Overlap-save.  For a positive block size and an impulse response
    of one sample or more, an OLS engine fed blocks of [B] samples raises
    nothing, returns blocks of [B] samples, and these are, one after the
    other, the first samples of the direct convolution of the whole input
    with the impulse response (divided by the reference when the engine
    normalises). *)
Theorem OLS_streams_convolution
        (log2 : nat -> Q) (strict : bool) (b : nat) (h : list Q)
        (part : option nat)
        (nrm : bool) (xs : list (list Q)) :
  0 < b -> 0 < length h -> Forall (fun x => length x = b) xs ->
  exists outs,
    engine_run log2 strict OLS_m b (Some h) part nrm xs = Ok outs
    /\ streams_convolution nrm h b xs outs.
Proof.
  intros Hb Hh Hxs.
  destruct (OLS_run log2 strict b h part nrm Hb Hh xs Hxs) as (outs & Hrun & Hc).
  exists outs. split; [exact Hrun|].
  apply continues_from_start; assumption.
Qed.

Lemma OLS_streams_convolution_witness :
  exists outs,
    engine_run ilog2 true OLS_m 2 (Some [1; 1]%Q) None false
               [[1; 2]%Q; [3; 4]%Q] = Ok outs
    /\ streams_convolution false [1; 1]%Q 2 [[1; 2]%Q; [3; 4]%Q] outs.
Proof.
  apply (OLS_streams_convolution ilog2 true 2 [1; 1]%Q None false
           [[1; 2]%Q; [3; 4]%Q]).
  - lia.
  - simpl. lia.
  - repeat constructor.
Defined.

(** X8. Overlap-add.  The same for an OLA engine, whose transform must
    have more than one point ([B + Nh - 1 > 1]). *)
Theorem OLA_streams_convolution
        (log2 : nat -> Q) (strict : bool) (b : nat) (h : list Q)
        (part : option nat)
        (nrm : bool) (xs : list (list Q)) :
  0 < b -> 0 < length h -> 2 < b + length h ->
  Forall (fun x => length x = b) xs ->
  exists outs,
    engine_run log2 strict OLA_m b (Some h) part nrm xs = Ok outs
    /\ streams_convolution nrm h b xs outs.
Proof.
  intros Hb Hh Hn Hxs.
  destruct (OLA_run log2 strict b h part nrm Hb Hh Hn xs Hxs) as (outs & Hrun & Hc).
  exists outs. split; [exact Hrun|].
  apply continues_from_start; assumption.
Qed.

Lemma OLA_streams_convolution_witness :
  exists outs,
    engine_run ilog2 true OLA_m 2 (Some [1; 1]%Q) None false
               [[1; 2]%Q; [3; 4]%Q] = Ok outs
    /\ streams_convolution false [1; 1]%Q 2 [[1; 2]%Q; [3; 4]%Q] outs.
Proof.
  apply (OLA_streams_convolution ilog2 true 2 [1; 1]%Q None false
           [[1; 2]%Q; [3; 4]%Q]).
  - lia.
  - simpl. lia.
  - simpl. lia.
  - repeat constructor.
Defined.

(** X9. Uniformly partitioned overlap-save.  The same for a UPOLS engine,
    for every positive partition length given to the constructor, whether
    it divides the block size or the length of the impulse response or
    not, and for the partition length the optimizer chooses when none is
    given and the impulse response has two samples or more. *)
Theorem UPOLS_streams_convolution
        (log2 : nat -> Q) (strict : bool) (b : nat) (h : list Q)
        (part : option nat)
        (nrm : bool) (xs : list (list Q)) :
  0 < b ->
  match part with
  | Some L => 0 < L /\ 0 < length h
  | None => 2 <= length h
  end ->
  Forall (fun x => length x = b) xs ->
  exists outs,
    engine_run log2 strict UPOLS_m b (Some h) part nrm xs = Ok outs
    /\ streams_convolution nrm h b xs outs.
Proof.
  intros Hb Hp Hxs.
  destruct (UPOLS_run log2 strict b h part nrm xs Hb Hp Hxs) as (outs & Hrun & Hc).
  exists outs. split; [exact Hrun|].
  apply continues_from_start; [|assumption].
  destruct part as [L|]; [apply Hp | lia].
Qed.

Lemma UPOLS_streams_convolution_witness :
  exists outs,
    engine_run ilog2 true UPOLS_m 2 (Some [1; 1; 1]%Q) (Some 2) false
               [[1; 2]%Q; [3; 4]%Q] = Ok outs
    /\ streams_convolution false [1; 1; 1]%Q 2 [[1; 2]%Q; [3; 4]%Q] outs.
Proof.
  apply (UPOLS_streams_convolution ilog2 true 2 [1; 1; 1]%Q (Some 2) false
           [[1; 2]%Q; [3; 4]%Q]).
  - lia.
  - simpl. lia.
  - repeat constructor.
Defined.

(** Every construction that can stream does. *)
Lemma engine_streams log2 strict mth b h part nrm xs :
  streamable mth b h part -> Forall (fun x => length x = b) xs ->
  0 < length h
  /\ exists outs,
       engine_run log2 strict mth b (Some h) part nrm xs = Ok outs
       /\ continues_convolution nrm h b [] xs outs.
Proof.
  intros [Hb Hm] Hxs. destruct mth.
  - split; [assumption | apply OLS_run; assumption].
  - destruct Hm as [Hh Hn]. split; [assumption | apply OLA_run; assumption].
  - split; [destruct part as [L|]; [apply Hm | lia]|].
    apply UPOLS_run; assumption.
Qed.

(** ** Normalisation keeps the output in [[-1, 1]] *)

(** X10. In exact arithmetic (samples are rationals here): with
    [normalize] set, an impulse response that is not all zeros (a positive
    reference) and input samples in [[-1, 1]], the exact value of every
    sample an engine returns is finite and in [[-1, 1]], whatever the
    method.  The bound is met with equality
    ([normalized_bound_is_attained]) and the code does not clip: its
    float64 result is this value up to the rounding error of the
    transforms, and can pass 1 by that error. *)
Theorem normalized_output_in_unit
        (log2 : nat -> Q) (strict : bool) (mth : method_t) (b : nat)
        (h : list Q)
        (part : option nat) (xs : list (list Q)) :
  streamable mth b h part -> (0 < ref_of h)%Q ->
  Forall (fun x => length x = b) xs -> Forall (Forall unitQ) xs ->
  exists outs,
    engine_run log2 strict mth b (Some h) part true xs = Ok outs
    /\ Forall (Forall in_unit) outs.
Proof.
  intros Hs Hr Hxs Hu.
  destruct (engine_streams log2 strict mth b h part true xs Hs Hxs)
    as (Hh & outs & Hrun & Hc).
  exists outs. split; [exact Hrun|].
  apply (streams_convolution_in_unit h b xs); try assumption.
  apply continues_from_start; assumption.
Qed.

Lemma normalized_output_in_unit_witness :
  exists outs,
    engine_run ilog2 true OLA_m 2 (Some [1; -2]%Q) None true
               [[1; -1]%Q; [1 # 2; 0]%Q] = Ok outs
    /\ Forall (Forall in_unit) outs.
Proof.
  apply (normalized_output_in_unit ilog2 true OLA_m 2 [1; -2]%Q None
           [[1; -1]%Q; [1 # 2; 0]%Q]).
  - repeat split; simpl; lia.
  - reflexivity.
  - repeat constructor.
  - repeat constructor; discriminate.
Defined.

(** The bound leaves no margin: a UPOLS engine of [B = 3] for the impulse
    response [1, 1, 1] (partition length 2) returns the exact value 1 for
    blocks of ones. *)
Example normalized_bound_is_attained :
  exists outs,
    engine_run ilog2 true UPOLS_m 3 (Some [1; 1; 1]%Q) (Some 2) true
               [[1; 1; 1]%Q; [1; 1; 1]%Q] = Ok outs
    /\ Forall2 (Forall2 fval_eq) outs
               [[Finite (1 # 3); Finite (2 # 3); Finite 1];
                [Finite 1; Finite 1; Finite 1]].
Proof.
  eexists. split; [vm_compute; reflexivity|].
  repeat constructor.
Qed.

(** ** The methods agree *)

Lemma fval_eq_sym a c : fval_eq a c -> fval_eq c a.
Proof.
  destruct a, c; cbn; try contradiction; [|exact (fun t => t)].
  intros E. symmetry. exact E.
Qed.

Lemma fval_eq_trans a c d : fval_eq a c -> fval_eq c d -> fval_eq a d.
Proof.
  destruct a, c, d; cbn; try contradiction; [|exact (fun _ t => t)].
  intros E1 E2. rewrite E1. exact E2.
Qed.

Lemma Forall2_fval_eq_join l1 : forall l l2,
  Forall2 fval_eq l1 l -> Forall2 fval_eq l2 l -> Forall2 fval_eq l1 l2.
Proof.
  induction l1 as [|a l1 IH]; intros l l2 H1 H2.
  - inversion H1; subst. inversion H2; subst. constructor.
  - inversion H1 as [|? c ? l' Hac H1']; subst.
    inversion H2 as [|a2 ? l2' ? Ha2 H2']; subst.
    constructor; [|eapply IH; eassumption].
    eapply fval_eq_trans; [exact Hac | apply fval_eq_sym, Ha2].
Qed.

(** X11. Two engines for one impulse response, block size and
    normalisation switch, of any two methods (and partition lengths),
    return the same samples for the same blocks. *)
Theorem methods_agree
        (log2 : nat -> Q) (strict : bool) (m1 m2 : method_t) (b : nat)
        (h : list Q)
        (p1 p2 : option nat) (nrm : bool) (xs : list (list Q)) :
  streamable m1 b h p1 -> streamable m2 b h p2 ->
  Forall (fun x => length x = b) xs ->
  exists o1 o2,
    engine_run log2 strict m1 b (Some h) p1 nrm xs = Ok o1
    /\ engine_run log2 strict m2 b (Some h) p2 nrm xs = Ok o2
    /\ Forall (fun o => length o = b) o1
    /\ Forall (fun o => length o = b) o2
    /\ Forall2 fval_eq (concat o1) (concat o2).
Proof.
  intros H1 H2 Hxs.
  destruct (engine_streams log2 strict m1 b h p1 nrm xs H1 Hxs)
    as (_ & o1 & Hr1 & Hl1 & Hv1).
  destruct (engine_streams log2 strict m2 b h p2 nrm xs H2 Hxs)
    as (_ & o2 & Hr2 & Hl2 & Hv2).
  exists o1, o2. repeat split; try assumption.
  eapply Forall2_fval_eq_join; eassumption.
Qed.

Lemma methods_agree_witness :
  exists o1 o2,
    engine_run ilog2 true OLA_m 2 (Some [1; 2; 3]%Q) None true
               [[1; 2]%Q; [3; 4]%Q] = Ok o1
    /\ engine_run ilog2 true UPOLS_m 2 (Some [1; 2; 3]%Q) (Some 3) true
                  [[1; 2]%Q; [3; 4]%Q] = Ok o2
    /\ Forall (fun o => length o = 2) o1
    /\ Forall (fun o => length o = 2) o2
    /\ Forall2 fval_eq (concat o1) (concat o2).
Proof.
  apply (methods_agree ilog2 true OLA_m UPOLS_m 2 [1; 2; 3]%Q None (Some 3) true
           [[1; 2]%Q; [3; 4]%Q]).
  - repeat split; simpl; lia.
  - repeat split; simpl; lia.
  - repeat constructor.
Defined.

(** ** The transform size of an optimized UPOLS engine *)



(** In the scenario the optimizer returns 7 points and the engine runs
    with 8. *)
Example optimizer_nfft_differs :
  optimize_UPOLS_parameters ilog2 (length h_scn) 4 = Ok (4, 7)
  /\ NFFT (snd (process ilog2 true x_scn1 None
                  (mkFIR UPOLS_m 4 (Some 7) true (Some h_scn)
                         (Some (ref_of h_scn)) 1 (zeros 4) 0 (Some 4) false
                         [] [] 0 [] [] []))) = Some 8.
Proof. split; vm_compute; reflexivity. Qed.

(** ** A one-point transform in OLA *)

(** X13. An OLA engine with [B = 1] and an impulse response of one sample
    has a transform of one point; its carry buffer is squeezed to a 0-d
    array and the first [process] call of a stream raises [IndexError],
    whatever the block. *)
Theorem OLA_one_point_transform_raises
        (log2 : nat -> Q) (strict : bool) (a : Q) (part : option nat)
        (nrm : bool)
        (x : list Q) (xs : list (list Q)) :
  engine_run log2 strict OLA_m 1 (Some [a]) part nrm (x :: xs) = Raise IndexError.
Proof.
  unfold engine_run, init. cbn [stream]. unfold bind at 1.
  assert (E : fst (process log2 strict x None
             (mkFIR OLA_m 1 None true (Some [a]) (Some (ref_of [a])) 1
                    (zeros 1) 0 part nrm [] [] 0 [] [] []))
            = Raise IndexError).
  { fir_run. cbn [length Nat.eqb Nat.add Nat.sub]. fir_run.
    rewrite spec_mul_ok by (rewrite !resize_length; reflexivity).
    fir_run. reflexivity. }
  destruct (process log2 strict x None _) as [[o|e] s1]; cbn [fst] in *;
    [discriminate | congruence].
Qed.

(** ** A new impulse response in the middle of a stream *)

(** The comparison of an impulse response with the stored one raises
    nothing where numpy is not strict, and where the shapes can be
    broadcast: against [None], for equal lengths, and for one sample. *)
Lemma compares (strict : bool) h st :
  (strict = true -> comparable h st = true) ->
  strict && negb (comparable h st) = false.
Proof.
  intros Hc. destruct strict; [|reflexivity]. rewrite Hc; reflexivity.
Qed.

Lemma compares_same_length (strict : bool) (h g : list Q) :
  length h = length g -> strict && negb (comparable h (Some g)) = false.
Proof.
  intros E. apply compares. intros _. unfold comparable.
  rewrite E, Nat.eqb_refl. reflexivity.
Qed.

(** A call with a changed impulse response is the call without one on the
    engine that stores it. *)
Lemma process_changed log2 strict x h s :
  strict && negb (comparable h (stored_h s)) = false ->
  ir_changed h (stored_h s) = true ->
  process log2 strict x (Some h) s
  = process log2 strict x None (with_new_ir h s).
Proof.
  intros C E. unfold process, bind, get. rewrite C, E. reflexivity.
Qed.

Section OLSSwitch.

Variable log2 : nat -> Q.
Variable strict : bool.
Variables (b : nat) (h : list Q) (part : option nat) (nrm : bool).
Hypothesis Hb : 0 < b.
Hypothesis Hh : 0 < length h.

(** A call that finds the flag set transforms the stored impulse response
    again, whatever [H] held. *)
Lemma OLS_refresh_block Hs S x :
  length x = b ->
  process log2 strict x None
          (mkFIR OLS_m b (Some (b + length h - 1)) true (Some h)
                 (Some (ref_of h)) 1 (zeros b) 0 part nrm Hs
                 (past_window (b + length h - 1) S) 0 [] [] [])
  = (Ok (map (returned nrm h)
             (py_tail b (cconv (past_window (b + length h - 1) (S ++ x))
                               (resize (b + length h - 1) h)))),
     ols_after b h part nrm (S ++ x)).
Proof.
  intros Hx. unfold ols_after.
  assert (En : (b + length h - 1 =? 0) = false)
    by (apply eqb_false_of_pos; lia).
  fir_run.
  rewrite slide_window by (rewrite ?past_window_length; lia).
  fir_run. rewrite En. fir_run.
  rewrite past_window_slide by lia.
  rewrite (resize_id _ (past_window (b + length h - 1) (S ++ x)))
    by apply past_window_length.
  rewrite spec_mul_ok by (rewrite past_window_length, resize_length; reflexivity).
  fir_run. destruct nrm; reflexivity.
Qed.

(** The engine after a stream of one block or more. *)
Lemma OLS_reaches x xs :
  Forall (fun x => length x = b) (x :: xs) ->
  exists outs,
    stream log2 strict (x :: xs)
           (mkFIR OLS_m b None true (Some h) (Some (ref_of h)) 1 (zeros b) 0
                  part nrm [] [] 0 [] [] [])
    = (Ok outs, ols_after b h part nrm (concat (x :: xs))).
Proof.
  intros Hxs. pose proof (Forall_inv Hxs) as Hx. cbn beta in Hx.
  destruct (OLS_stream log2 strict b h part nrm Hb Hh xs x (Forall_inv_tail Hxs))
    as (outs & Hrun & _).
  eexists. cbn [stream]. unfold bind.
  rewrite (OLS_first_block log2 strict b h part nrm Hb Hh x Hx), Hrun.
  reflexivity.
Qed.

End OLSSwitch.

(** X14. Overlap-save and a new impulse response.  When a call of an OLS
    engine brings a changed impulse response of the stored length, the
    block it returns and the blocks after it are samples of the convolution
    of the whole input, the blocks received before the change included,
    with the new impulse response: the input window is kept and the new
    filter is applied to it at once. *)
Theorem OLS_new_impulse_response_takes_over
        (log2 : nat -> Q) (strict : bool) (b : nat) (h1 h2 : list Q)
        (part : option nat)
        (nrm : bool) (xs1 : list (list Q)) (x : list Q) (xs2 : list (list Q)) :
  0 < b -> 0 < length h1 -> length h2 = length h1 ->
  ir_changed h2 (Some h1) = true ->
  Forall (fun x => length x = b) xs1 -> length x = b ->
  Forall (fun x => length x = b) xs2 ->
  exists s0 outs1 s1 out s2 outs2 s3,
    init log2 OLS_m b (Some h1) part nrm = Ok s0
    /\ stream log2 strict xs1 s0 = (Ok outs1, s1)
    /\ process log2 strict x (Some h2) s1 = (Ok out, s2)
    /\ stream log2 strict xs2 s2 = (Ok outs2, s3)
    /\ continues_convolution nrm h2 b (concat xs1) (x :: xs2) (out :: outs2).
Proof.
  intros Hb Hh1 Hlen Hch Hxs1 Hx Hxs2.
  assert (Hh2 : 0 < length h2) by lia.
  destruct (OLS_stream log2 strict b h2 part nrm Hb Hh2 xs2 (concat xs1 ++ x) Hxs2)
    as (outs2 & Hrun2 & Hc2).
  assert (Hblk : Forall2 fval_eq
            (map (returned nrm h2)
                 (py_tail b (cconv (past_window (b + length h2 - 1)
                                                (concat xs1 ++ x))
                                   (resize (b + length h2 - 1) h2))))
            (map (fun p => returned nrm h2 (conv_at h2 (concat xs1 ++ x) p))
                 (seq (length (concat xs1)) b))).
  { pose proof (ols_block b h2 nrm Hb Hh2 (concat xs1 ++ x)) as Hblk.
    rewrite length_app in Hblk.
    replace (length (concat xs1) + length x - b) with (length (concat xs1))
      in Hblk by lia.
    apply Hblk. lia. }
  assert (Hc : continues_convolution nrm h2 b (concat xs1) (x :: xs2)
                 (map (returned nrm h2)
                      (py_tail b (cconv (past_window (b + length h2 - 1)
                                                     (concat xs1 ++ x))
                                        (resize (b + length h2 - 1) h2)))
                  :: outs2)).
  { apply continues_cons; try assumption.
    rewrite (Forall2_length Hblk), length_map, length_seq. reflexivity. }
  exists (mkFIR OLS_m b None true (Some h1) (Some (ref_of h1)) 1 (zeros b) 0
                part nrm [] [] 0 [] [] []).
  destruct xs1 as [|x1 xs1].
  - exists [].  eexists. eexists. eexists. exists outs2. eexists.
    split; [reflexivity|]. split; [reflexivity|].
    split; [|split; [exact Hrun2 | exact Hc]].
    rewrite process_changed
      by (first [exact Hch | apply compares_same_length; exact Hlen]).
    apply (OLS_first_block log2 strict b h2 part nrm Hb Hh2 x Hx).
  - destruct (OLS_reaches log2 strict b h1 part nrm Hb Hh1 x1 xs1 Hxs1)
      as (outs1 & Hrun1).
    exists outs1. eexists. eexists. eexists. exists outs2. eexists.
    split; [reflexivity|]. split; [exact Hrun1|].
    split; [|split; [exact Hrun2 | exact Hc]].
    rewrite process_changed
      by (first [exact Hch | apply compares_same_length; exact Hlen]).
    unfold ols_after, with_new_ir. cbn. rewrite <- Hlen.
    apply (OLS_refresh_block log2 strict b h2 part nrm Hb Hh2).
    exact Hx.
Qed.

Lemma OLS_new_impulse_response_takes_over_witness :
  exists s0 outs1 s1 out s2 outs2 s3,
    init ilog2 OLS_m 2 (Some [1; 1]%Q) None false = Ok s0
    /\ stream ilog2 true [[1; 2]%Q] s0 = (Ok outs1, s1)
    /\ process ilog2 true [3; 4]%Q (Some [1; 2]%Q) s1 = (Ok out, s2)
    /\ stream ilog2 true [[5; 6]%Q] s2 = (Ok outs2, s3)
    /\ continues_convolution false [1; 2]%Q 2 (concat [[1; 2]%Q])
                             ([3; 4]%Q :: [[5; 6]%Q]) (out :: outs2).
Proof.
  apply (OLS_new_impulse_response_takes_over ilog2 true 2 [1; 1]%Q [1; 2]%Q None
           false [[1; 2]%Q] [3; 4]%Q [[5; 6]%Q]).
  - lia.
  - simpl. lia.
  - reflexivity.
  - reflexivity.
  - repeat constructor.
  - reflexivity.
  - repeat constructor.
Defined.

Section UPOLSSwitch.

Variable log2 : nat -> Q.
Variable strict : bool.
Variables (b : nat) (h : list Q) (L : nat) (nrm : bool).
Hypothesis Hb : 0 < b.
Hypothesis Hh : 0 < length h.
Hypothesis HL : 0 < L.




End UPOLSSwitch.



(** ** Overlap-add across a change of the impulse response *)

Lemma carries_over_start b h1 h2 S lo :
  length h2 = length h1 -> carries b h1 S lo -> carries_over b h1 h2 S [] lo.
Proof.
  intros Hlen [Hl Hlo]. split; [lia|]. intros i Hi. cbn [length Nat.add].
  rewrite Hlo by lia.
  assert (E : (carry_at h2 [] i == 0)%Q).
  { unfold carry_at. apply sumQ_zero. intros k _. rewrite nth_nil_Q.
    destruct (_ && _); ring. }
  rewrite E. ring.
Qed.

Lemma carries_over_step b h1 h2 S X lo x :
  0 < b -> 0 < length h2 -> length h2 = length h1 -> length x = b ->
  carries_over b h1 h2 S X lo ->
  carries_over b h1 h2 S (X ++ x)
               (zip_add (skipn b lo)
                        (skipn b (cconv (resize (b + length h2 - 1) x)
                                        (resize (b + length h2 - 1) h2)))
                ++ zeros b).
Proof.
  intros Hb Hh Hlen Hx [Hl Hlo]. split.
  - apply ola_carry_length; [assumption | | lia].
    rewrite cconv_length. apply resize_length.
  - intros i Hi.
    assert (Hz : length (zip_add (skipn b lo)
                   (skipn b (cconv (resize (b + length h2 - 1) x)
                                   (resize (b + length h2 - 1) h2))))
                 = length h2 - 1).
    { rewrite zip_add_length, !length_skipn, cconv_length, resize_length. lia. }
    rewrite length_app, Hx.
    replace (length X + b + i) with (length X + (b + i)) by lia.
    destruct (Nat.lt_ge_cases i (length h2 - 1)) as [Hlt|Hge].
    + rewrite app_nth1 by lia.
      rewrite zip_add_nth
        by (rewrite length_skipn, ?cconv_length, ?resize_length; lia).
      rewrite !nth_skipn.
      rewrite Hlo by lia. rewrite cconv_padded by (try assumption; lia).
      rewrite <- (carry_step h2 X x b i Hx). ring.
    + rewrite app_nth2 by lia. unfold zeros. rewrite nth_repeat.
      rewrite (carry_beyond h1) by lia. rewrite (carry_beyond h2) by lia.
      ring.
Qed.

Lemma ola_block_over b h1 h2 nrm S X lo x :
  0 < b -> 0 < length h2 -> length x = b -> carries_over b h1 h2 S X lo ->
  Forall2 fval_eq
          (map (returned nrm h2)
               (zip_add (firstn b (cconv (resize (b + length h2 - 1) x)
                                         (resize (b + length h2 - 1) h2)))
                        (firstn b lo)))
          (map (fun q => returned nrm h2
                           (conv_at h2 (X ++ x) q + carry_at h1 S q))
               (seq (length X) b)).
Proof.
  intros Hb Hh Hx [Hlen Hlo].
  assert (Hv : forall j, j < b ->
            (nth j (zip_add (firstn b (cconv (resize (b + length h2 - 1) x)
                                             (resize (b + length h2 - 1) h2)))
                            (firstn b lo)) 0
             == conv_at h2 (X ++ x) (length X + j)
                + carry_at h1 S (length X + j))%Q).
  { intros j Hj.
    rewrite zip_add_nth
      by (rewrite length_firstn, ?cconv_length, ?resize_length; lia).
    rewrite !nth_firstn.
    replace (j <? b) with true by (symmetry; apply Nat.ltb_lt; lia).
    rewrite Hlo by lia. rewrite cconv_padded by (try assumption; lia).
    rewrite <- (ola_out_value h2 X x j). ring. }
  assert (Hl : length (zip_add (firstn b (cconv (resize (b + length h2 - 1) x)
                                                (resize (b + length h2 - 1) h2)))
                               (firstn b lo)) = b).
  { rewrite zip_add_length, !length_firstn, cconv_length, resize_length. lia. }
  revert Hv Hl.
  generalize (zip_add (firstn b (cconv (resize (b + length h2 - 1) x)
                                       (resize (b + length h2 - 1) h2)))
                      (firstn b lo)).
  intros l Hv Hl. rewrite <- Hl.
  apply (Forall2_returned nrm h2 l
           (fun q => conv_at h2 (X ++ x) q + carry_at h1 S q)%Q (length X)).
  rewrite Hl. exact Hv.
Qed.

Lemma superposed_cons nrm h1 h2 b S X x xs o outs :
  length x = b -> length o = b ->
  Forall2 fval_eq o
          (map (fun q => returned nrm h2
                           (conv_at h2 (X ++ x) q + carry_at h1 S q))
               (seq (length X) b)) ->
  continues_superposed nrm h1 h2 b S (X ++ x) xs outs ->
  continues_superposed nrm h1 h2 b S X (x :: xs) (o :: outs).
Proof.
  intros Hx Ho Hfirst [Hlen Hrest]. split; [constructor; assumption|].
  cbn [concat]. rewrite length_app, Hx, seq_app, map_app.
  apply Forall2_app.
  - erewrite map_ext_in; [exact Hfirst|]. intros p Hp. apply in_seq in Hp.
    cbn beta. rewrite app_assoc. rewrite conv_at_causal; [reflexivity|].
    rewrite length_app. lia.
  - rewrite length_app, Hx, <- app_assoc in Hrest. exact Hrest.
Qed.

Section OLARefresh.

Variable log2 : nat -> Q.
Variable strict : bool.
Variables (b : nat) (h : list Q) (part : option nat) (nrm : bool).
Hypothesis Hb : 0 < b.
Hypothesis Hh : 0 < length h.
Hypothesis Hn : 2 < b + length h.

(** A call that finds the flag set transforms the stored impulse response
    again, whatever [H] held. *)
Lemma OLA_refresh_block Hs lo x :
  length lo = b + length h - 1 ->
  process log2 strict x None
          (mkFIR OLA_m b (Some (b + length h - 1)) true (Some h)
                 (Some (ref_of h)) 1 lo (b + length h - 1 - b) part nrm Hs
                 [] 0 [] [] [])
  = (Ok (map (returned nrm h)
             (zip_add (firstn b (cconv (resize (b + length h - 1) x)
                                       (resize (b + length h - 1) h)))
                      (firstn b lo))),
     ola_state b h part nrm
               (zip_add (skipn b lo)
                        (skipn b (cconv (resize (b + length h - 1) x)
                                        (resize (b + length h - 1) h)))
                ++ zeros b)).
Proof.
  intros Hlo. unfold ola_state.
  assert (En : (b + length h - 1 =? 0) = false)
    by (apply eqb_false_of_pos; lia).
  assert (En1 : (b + length h - 1 =? 1) = false) by (apply Nat.eqb_neq; lia).
  destruct (ola_carry_step (b + length h - 1) b lo
              (cconv (resize (b + length h - 1) x) (resize (b + length h - 1) h)))
    as (sm & Hsm & Hlo'); try lia;
    rewrite ?cconv_length, ?resize_length; try reflexivity.
  fir_run. rewrite En. fir_run.
  rewrite spec_mul_ok by (rewrite !resize_length; reflexivity).
  fir_run. rewrite En1. fir_run.
  rewrite vadd_ok
    by (rewrite !length_firstn, cconv_length, resize_length, Hlo; lia).
  fir_run. rewrite Hsm. fir_run. rewrite Hlo'. fir_run.
  destruct nrm; reflexivity.
Qed.

End OLARefresh.

Section OLASwitch.

Variable log2 : nat -> Q.
Variable strict : bool.
Variables (b : nat) (h1 h : list Q) (part : option nat) (nrm : bool).
Hypothesis Hb : 0 < b.
Hypothesis Hh : 0 < length h.
Hypothesis Hlen : length h = length h1.
Hypothesis Hn : 2 < b + length h.

Lemma OLA_stream_over S xs : forall X lo,
  Forall (fun x => length x = b) xs -> carries_over b h1 h S X lo ->
  exists outs lo',
    stream log2 strict xs (ola_state b h part nrm lo)
    = (Ok outs, ola_state b h part nrm lo')
    /\ carries_over b h1 h S (X ++ concat xs) lo'
    /\ continues_superposed nrm h1 h b S X xs outs.
Proof.
  induction xs as [|x xs IH]; intros X lo Hxs Hlo.
  - exists [], lo. cbn [stream concat]. rewrite app_nil_r.
    split; [reflexivity|]. split; [assumption|]. split; constructor.
  - pose proof (Forall_inv Hxs) as Hx. cbn beta in Hx.
    pose proof (Forall_inv_tail Hxs) as Hxs'.
    pose proof (carries_over_step b h1 h S X lo x Hb Hh Hlen Hx Hlo) as Hlo1.
    destruct (IH (X ++ x) _ Hxs' Hlo1) as (outs & lo' & Hrun & Hlo' & Hc).
    eexists. exists lo'. cbn [stream]. unfold bind.
    rewrite (OLA_next_block log2 strict b h part nrm Hb Hh Hn lo x (proj1 Hlo)).
    rewrite Hrun. unfold ret. cbn [concat]. rewrite app_assoc.
    split; [reflexivity|]. split; [assumption|].
    apply superposed_cons; try assumption.
    + rewrite length_map, zip_add_length, !length_firstn, cconv_length,
        resize_length, (proj1 Hlo). lia.
    + apply ola_block_over; assumption.
Qed.

End OLASwitch.

(** The engine after a stream of one block or more. *)
Lemma OLA_reaches log2 strict b h part nrm x xs :
  0 < b -> 0 < length h -> 2 < b + length h ->
  Forall (fun x => length x = b) (x :: xs) ->
  exists outs lo,
    stream log2 strict (x :: xs)
           (mkFIR OLA_m b None true (Some h) (Some (ref_of h)) 1 (zeros b) 0
                  part nrm [] [] 0 [] [] [])
    = (Ok outs, ola_state b h part nrm lo)
    /\ carries b h (concat (x :: xs)) lo.
Proof.
  intros Hb Hh Hn Hxs. pose proof (Forall_inv Hxs) as Hx. cbn beta in Hx.
  pose proof (carries_step b h [] _ x Hb Hh Hx (carries_init b h)) as Hlo1.
  destruct (OLA_stream log2 strict b h part nrm Hb Hh Hn xs ([] ++ x) _
              (Forall_inv_tail Hxs) Hlo1) as (outs & lo' & Hrun & Hlo' & _).
  eexists. exists lo'. cbn [stream]. unfold bind.
  rewrite (OLA_first_block log2 strict b h part nrm Hb Hh Hn x), Hrun.
  split; [reflexivity | exact Hlo'].
Qed.

(** X16. Overlap-add and a new impulse response.  When a call of an OLA
    engine brings a changed impulse response of the stored length, the
    carry buffer is kept: the block it returns and the blocks after it are
    the convolution of the input received since the change with the new
    impulse response, added to what the input before the change carries
    over under the old one (its tail rings out). *)
Theorem OLA_new_impulse_response_superposes
        (log2 : nat -> Q) (strict : bool) (b : nat) (h1 h2 : list Q)
        (part : option nat)
        (nrm : bool) (xs1 : list (list Q)) (x : list Q) (xs2 : list (list Q)) :
  0 < b -> 0 < length h1 -> length h2 = length h1 -> 2 < b + length h1 ->
  ir_changed h2 (Some h1) = true ->
  Forall (fun x => length x = b) xs1 -> length x = b ->
  Forall (fun x => length x = b) xs2 ->
  exists s0 outs1 s1 out s2 outs2 s3,
    init log2 OLA_m b (Some h1) part nrm = Ok s0
    /\ stream log2 strict xs1 s0 = (Ok outs1, s1)
    /\ process log2 strict x (Some h2) s1 = (Ok out, s2)
    /\ stream log2 strict xs2 s2 = (Ok outs2, s3)
    /\ continues_superposed nrm h1 h2 b (concat xs1) [] (x :: xs2)
                            (out :: outs2).
Proof.
  intros Hb Hh1 Hlen Hn Hch Hxs1 Hx Hxs2.
  assert (Hh2 : 0 < length h2) by lia.
  assert (Hn2 : 2 < b + length h2) by lia.
  assert (Hgo : forall lo,
            carries_over b h1 h2 (concat xs1) [] lo ->
            exists outs2 s3,
              stream log2 strict xs2
                (ola_state b h2 part nrm
                   (zip_add (skipn b lo)
                            (skipn b (cconv (resize (b + length h2 - 1) x)
                                            (resize (b + length h2 - 1) h2)))
                    ++ zeros b))
              = (Ok outs2, s3)
              /\ continues_superposed nrm h1 h2 b (concat xs1) [] (x :: xs2)
                   (map (returned nrm h2)
                        (zip_add (firstn b (cconv (resize (b + length h2 - 1) x)
                                                  (resize (b + length h2 - 1) h2)))
                                 (firstn b lo))
                    :: outs2)).
  { intros lo Hlo.
    pose proof (carries_over_step b h1 h2 _ [] lo x Hb Hh2 Hlen Hx Hlo) as Hlo1.
    destruct (OLA_stream_over log2 strict b h1 h2 part nrm Hb Hh2 Hlen Hn2
                (concat xs1) xs2 ([] ++ x) _ Hxs2 Hlo1)
      as (outs2 & lo' & Hrun2 & _ & Hc2).
    exists outs2. eexists. split; [exact Hrun2|].
    apply superposed_cons; try assumption.
    - rewrite length_map, zip_add_length, !length_firstn, cconv_length,
        resize_length, (proj1 Hlo). lia.
    - apply (ola_block_over b h1 h2 nrm (concat xs1) [] lo x Hb Hh2 Hx Hlo). }
  exists (mkFIR OLA_m b None true (Some h1) (Some (ref_of h1)) 1 (zeros b) 0
                part nrm [] [] 0 [] [] []).
  destruct xs1 as [|x1 xs1].
  - assert (Hlo0 : carries_over b h1 h2 (concat []) []
                     (zeros (b + length h2 - 1))).
    { apply carries_over_start; [assumption|]. rewrite Hlen.
      apply carries_init. }
    destruct (Hgo _ Hlo0) as (outs2 & s3 & Hrun2 & Hc).
    exists [], (mkFIR OLA_m b None true (Some h1) (Some (ref_of h1)) 1
                      (zeros b) 0 part nrm [] [] 0 [] [] []).
    eexists. eexists. exists outs2, s3.
    split; [reflexivity|]. split; [reflexivity|].
    split; [|split; [exact Hrun2 | exact Hc]].
    rewrite process_changed
      by (first [exact Hch | apply compares_same_length; exact Hlen]).
    apply (OLA_first_block log2 strict b h2 part nrm Hb Hh2 Hn2 x).
  - destruct (OLA_reaches log2 strict b h1 part nrm x1 xs1 Hb Hh1 Hn Hxs1)
      as (outs1 & lo & Hrun1 & Hlo).
    pose proof (carries_over_start b h1 h2 _ lo Hlen Hlo) as Hlo0.
    destruct (Hgo _ Hlo0) as (outs2 & s3 & Hrun2 & Hc).
    exists outs1, (ola_state b h1 part nrm lo).
    eexists. eexists. exists outs2, s3.
    split; [reflexivity|]. split; [exact Hrun1|].
    split; [|split; [exact Hrun2 | exact Hc]].
    rewrite process_changed
      by (first [exact Hch | apply compares_same_length; exact Hlen]).
    unfold ola_state at 1. rewrite <- Hlen.
    apply (OLA_refresh_block log2 strict b h2 part nrm Hb Hh2 Hn2).
    exact (proj1 Hlo0).
Qed.

Lemma OLA_new_impulse_response_superposes_witness :
  exists s0 outs1 s1 out s2 outs2 s3,
    init ilog2 OLA_m 2 (Some [1; 1]%Q) None false = Ok s0
    /\ stream ilog2 true [[1; 2]%Q] s0 = (Ok outs1, s1)
    /\ process ilog2 true [3; 4]%Q (Some [1; 2]%Q) s1 = (Ok out, s2)
    /\ stream ilog2 true [[5; 6]%Q] s2 = (Ok outs2, s3)
    /\ continues_superposed false [1; 1]%Q [1; 2]%Q 2 (concat [[1; 2]%Q]) []
                            ([3; 4]%Q :: [[5; 6]%Q]) (out :: outs2).
Proof.
  apply (OLA_new_impulse_response_superposes ilog2 true 2 [1; 1]%Q [1; 2]%Q None
           false [[1; 2]%Q] [3; 4]%Q [[5; 6]%Q]).
  - lia.
  - simpl. lia.
  - reflexivity.
  - simpl. lia.
  - reflexivity.
  - repeat constructor.
  - reflexivity.
  - repeat constructor.
Defined.

(** What an input carries over is the tail of its own convolution: the
    samples that follow it when zeros are fed. *)
Lemma carry_rings_out h S m j :
  (carry_at h S j == conv_at h (S ++ zeros m) (length S + j))%Q.
Proof.
  rewrite <- (ola_out_value h S (zeros m) j).
  assert (E : (conv_at h (zeros m) j == 0)%Q).
  { unfold conv_at. apply sumQ_zero. intros k _.
    destruct (k <=? j); [|ring]. unfold zeros. rewrite nth_repeat. ring. }
  rewrite E. ring.
Qed.

(** ** An impulse response given at the first call *)

(** X17. An engine constructed without an impulse response, whose first
    [process] call brings one (of one sample or more), behaves in that call
    as the engine constructed with it: same result, same state.  For UPOLS
    this holds when the constructor was given a partition (without one,
    the constructor and the call run the optimizer at different points). *)
Theorem impulse_response_at_first_call
        (log2 : nat -> Q) (strict : bool) (mth : method_t) (b : nat)
        (h : list Q)
        (part : option nat) (nrm : bool) (x : list Q) :
  0 < length h -> (mth = UPOLS_m -> part <> None) ->
  exists s0 s1,
    init log2 mth b None part nrm = Ok s0
    /\ init log2 mth b (Some h) part nrm = Ok s1
    /\ process log2 strict x (Some h) s0 = process log2 strict x None s1.
Proof.
  intros Hh Hp.
  exists (mkFIR mth b None true None None 1 (zeros b) 0 part nrm
                [] [] 0 [] [] []),
    (mkFIR mth b None true (Some h) (Some (ref_of h)) 1 (zeros b) 0 part nrm
           [] [] 0 [] [] []).
  split; [destruct mth, part; reflexivity|].
  split.
  - destruct mth; try reflexivity.
    destruct part; [reflexivity | exfalso; apply Hp; reflexivity].
  - rewrite process_changed; [reflexivity | apply andb_false_r |].
    cbn [stored_h ir_changed]. rewrite (eqb_false_of_pos _ Hh). reflexivity.
Qed.

Lemma impulse_response_at_first_call_witness :
  exists s0 s1,
    init ilog2 UPOLS_m 2 None (Some 2) true = Ok s0
    /\ init ilog2 UPOLS_m 2 (Some [1; 1; 1]%Q) (Some 2) true = Ok s1
    /\ process ilog2 true [1; 2]%Q (Some [1; 1; 1]%Q) s0
       = process ilog2 true [1; 2]%Q None s1.
Proof.
  apply (impulse_response_at_first_call ilog2 true UPOLS_m 2 [1; 1; 1]%Q (Some 2)
           true [1; 2]%Q).
  - simpl. lia.
  - discriminate.
Defined.

(** ** A block of one sample *)

(** Writing one sample into the last [b] positions broadcasts it. *)
Lemma slide_window_one b a c :
  0 < b -> b <= length a ->
  assign_tail b (roll_left b a) [c]
  = assign_tail b (roll_left b a) (repeat c b).
Proof.
  intros Hb Hle.
  rewrite (assign_tail_block b (roll_left b a) (repeat c b))
    by (rewrite ?roll_left_length, ?repeat_length; lia).
  unfold assign_tail. rewrite tail_start_pos by assumption.
  rewrite roll_left_length.
  replace (length a - (length a - b)) with b by lia.
  unfold broadcast_to. cbn [length].
  destruct (Nat.eqb_spec 1 b) as [<-|_]; reflexivity.
Qed.

Lemma resize_one_sample n b c :
  0 < b -> b <= n -> resize n [c] = resize n (c :: zeros (b - 1)).
Proof.
  intros Hb Hle. unfold resize. cbn [length].
  rewrite zeros_length.
  rewrite !firstn_all2 by (cbn [length]; rewrite ?zeros_length; lia).
  cbn [app]. f_equal. unfold zeros. rewrite <- repeat_app. f_equal. lia.
Qed.

(** X18. On an engine in use a block of one sample is not rejected for
    its length: the call returns the result and leaves the state of a call
    with a block of [B] samples, and the methods differ in which: OLS and
    UPOLS read [B] copies of the sample, OLA the sample followed by
    [B - 1] zeros. *)
Theorem one_sample_block
        (log2 : nat -> Q) (strict : bool) (s : FIR) (c : Q)
        (hopt : option (list Q)) :
  reachable log2 strict s ->
  match method s with
  | UPOLS_m =>
      flagIRchanged s = false ->
      process log2 strict [c] None s
      = process log2 strict (one_sample_as (method s) (B s) c) None s
  | _ =>
      NFFT s <> None ->
      process log2 strict [c] hopt s
      = process log2 strict (one_sample_as (method s) (B s) c) hopt s
  end.
Proof.
  intros Hr. destruct (reachable_buffers_ok log2 strict s Hr) as [Hok Hb].
  destruct s as [mth b n fl sh r ch lo ly pt nr Hs ob p ib sl F].
  unfold buffers_ok in Hok. cbn in Hok, Hb. cbn [method B flagIRchanged NFFT].
  destruct mth; cbn [one_sample_as].
  - intros Hn. destruct n as [n|]; [|contradiction].
    destruct (Hok n eq_refl) as [Hl Hle].
    destruct hopt as [hv|];
      [unfold process, bind, get; cbn [stored_h];
       destruct (strict && negb (comparable hv sh)); [reflexivity|];
       destruct (ir_changed hv sh)|];
      fir_run; rewrite (slide_window_one b ob c) by lia; reflexivity.
  - intros Hn. destruct n as [n|]; [|contradiction].
    destruct (Hok n eq_refl) as (Hl & Hle & _).
    destruct hopt as [hv|];
      [unfold process, bind, get; cbn [stored_h];
       destruct (strict && negb (comparable hv sh)); [reflexivity|];
       destruct (ir_changed hv sh)|];
      fir_run; rewrite (resize_one_sample n b c) by assumption; reflexivity.
  - intros ->. destruct (Hok eq_refl) as (n' & -> & Hl & Hle & _).
    fir_run. rewrite (slide_window_one b ib c) by lia. reflexivity.
Qed.

Lemma one_sample_block_witness :
  process ilog2 true [5]%Q None upols_engine_1
  = process ilog2 true (one_sample_as UPOLS_m 2 5) None upols_engine_1.
Proof.
  exact (one_sample_block ilog2 true upols_engine_1 5 None
           upols_engine_1_reachable eq_refl).
Defined.

(** ** Blocks of another length or shape *)




Lemma finish_returns out s :
  ref s <> None ->
  exists o, finish out s = (Ok o, s) /\ length o = length out.
Proof.
  intros Hr. destruct s as [mth b n fl sh r c lo ly pt nr Hs ob p ib sl F].
  cbn in Hr. unfold finish, normalize_output, bind, get, need, ret.
  cbn [normalize ref]. destruct nr.
  - destruct r as [r|]; [|contradiction]. eexists. split; [reflexivity|].
    apply length_map.
  - eexists. split; [reflexivity|]. apply length_map.
Qed.

















